(** * The dispatch core of circuits' [Manager] (circuits/core/manager.py)

    A shallow embedding of the handler registry, handler resolution, the
    dispatcher, completion tracking, the task runner and the tick loop of
    [circuits.core.manager.Manager], together with the properties the
    specification states about them.

    Python objects with identity (events, generators, managers) live in
    explicit stores and are referred to by their index; exceptions are
    explicit results. *)

From Stdlib Require Import ZArith String Sorted Permutation.
From stdpp Require Import gmap strings list fin_maps sorting.

Local Open Scope string_scope.
Local Open Scope Z_scope.
Local Open Scope list_scope.

(** ** Exceptions and results *)

(** The exceptions the manager distinguishes: [KeyboardInterrupt] and
    [SystemExit] are re-raised by the dispatcher, [KeyError] comes from the
    [dict] and [set] operations of [removeHandler], [StopIteration] from an
    exhausted generator, everything else is [OtherError etype evalue tb]. *)
Inductive exn :=
| KeyboardInterrupt
| SystemExit
| KeyError
| OtherError (etype evalue : string) (etraceback : list string).

(** [except (KeyboardInterrupt, SystemExit): raise] *)
Definition is_fatal (e : exn) : bool :=
  match e with
  | KeyboardInterrupt | SystemExit => true
  | _ => false
  end.

(** A call either returns normally or leaves through an exception; Python
    keeps the mutations done before the [raise], so both carry the state. *)
Inductive result (A : Type) :=
| Ok (a : A)
| Raised (e : exn) (a : A).
Arguments Ok {A} a.
Arguments Raised {A} e a.

Definition result_state {A} (r : result A) : A :=
  match r with Ok a | Raised _ a => a end.

Definition raised {A} (r : result A) : option exn :=
  match r with Ok _ => None | Raised e _ => Some e end.

(** ** Handlers *)

(** The object a bound method is bound to ([handler.__self__]) and its
    [channel] attribute ([getattr(handler.__self__, "channel", None)]). *)
Record Owner := mkOwner {
  owner_id : nat;
  owner_channel : option string
}.

(** A handler: a function decorated by [handler(...)], possibly bound.
    [h_self = None] is a plain function ([isfunction(f)] holds); bound
    methods compare equal when function and [__self__] agree. *)
Record Handler := mkHandler {
  h_func : nat;                 (* identity of the underlying function *)
  h_self : option Owner;        (* [__self__], absent on a plain function *)
  h_name : string;              (* [__name__] *)
  h_names : list string;       (* [names]: the event names handled *)
  h_channel : option string;   (* [channel] *)
  h_priority : Z;              (* [priority] *)
  h_filter : bool;             (* [filter] *)
  h_event : bool               (* [event]: pass the event as first argument *)
}.

#[global] Instance Owner_eq_dec : EqDecision Owner.
Proof. solve_decision. Defined.

#[global] Instance Owner_countable : Countable Owner.
Proof.
  refine (inj_countable' (λ o, (owner_id o, owner_channel o))
                         (λ p, mkOwner p.1 p.2) _).
  by intros [].
Defined.

#[global] Instance Handler_eq_dec : EqDecision Handler.
Proof. solve_decision. Defined.

#[global] Instance Handler_countable : Countable Handler.
Proof.
  refine (inj_countable'
    (λ h, (h_func h, h_self h, h_name h, h_names h,
           (h_channel h, h_priority h, h_filter h, h_event h)))
    (λ p, mkHandler p.1.1.1.1 p.1.1.1.2 p.1.1.2 p.1.2
                    p.2.1.1.1 p.2.1.1.2 p.2.1.2 p.2.2) _).
  by intros [].
Defined.

Definition isfunction (f : Handler) : bool :=
  match h_self f with None => true | Some _ => false end.

(** ** The manager tree and its handler registry *)

(** The registry part of a [Manager]: [attrs] holds the instance attributes
    written by [setattr(self, method.__name__, method)]. *)
#[warnings="-register-all"] Inductive Manager := mkManager {
  m_id : nat;                               (* object identity *)
  m_channel : option string;                (* [getattr(self, "channel", None)] *)
  _globals : gset Handler;
  _handlers : gmap string (gset Handler);
  attrs : gmap string Handler;
  components : list Manager
}.

(** The root's handler cache, keyed by [(event.name, channels)]; a manager
    used as a channel hashes by identity. *)
Inductive ChanKey :=
| KName (s : string)
| KManager (id : nat).

#[global] Instance ChanKey_eq_dec : EqDecision ChanKey.
Proof. solve_decision. Defined.

#[global] Instance ChanKey_countable : Countable ChanKey.
Proof.
  refine (inj_countable'
    (λ k, match k with KName s => inl s | KManager i => inr i end)
    (λ x, match x with inl s => KName s | inr i => KManager i end) _).
  by intros [].
Defined.

Abbreviation Cache := (gmap (string * list ChanKey) (list Handler)).

Definition self_owner (self : Manager) : Owner :=
  mkOwner (m_id self) (m_channel self).

(** [MethodType(f, self, self.__class__) if isfunction(f) else f] *)
Definition bind_method (self : Manager) (f : Handler) : Handler :=
  if isfunction f then
    mkHandler (h_func f) (Some (self_owner self)) (h_name f) (h_names f)
              (h_channel f) (h_priority f) (h_filter f) (h_event f)
  else f.

Definition set_handlers (self : Manager) (hs : gmap string (gset Handler)) : Manager :=
  mkManager (m_id self) (m_channel self) (_globals self) hs (attrs self)
            (components self).

Definition set_globals (self : Manager) (g : gset Handler) : Manager :=
  mkManager (m_id self) (m_channel self) g (_handlers self) (attrs self)
            (components self).

Definition set_attrs (self : Manager) (a : gmap string Handler) : Manager :=
  mkManager (m_id self) (m_channel self) (_globals self) (_handlers self) a
            (components self).

(** [self._handlers.setdefault(name, set()).add(method)] *)
Definition bucket_add (method : Handler) (self : Manager) (name : string) : Manager :=
  set_handlers self
    (<[name := default ∅ (_handlers self !! name) ∪ {[method]}]> (_handlers self)).

(** [Manager.addHandler]; the second component is [self.root._cache]. *)
Definition addHandler (self : Manager) (cache : Cache) (f : Handler)
  : Manager * Cache :=
  let method := bind_method self f in
  let self := set_attrs self (<[h_name method := method]> (attrs self)) in
  let self :=
    match h_names method with
    | [] =>
        if decide (h_channel method = Some "*")
        then set_globals self (_globals self ∪ {[method]})
        else bucket_add method self "*"
    | names => foldl (bucket_add method) self names
    end in
  (self, ∅).

(** One round of the loop of [removeHandler]:
    [self._handlers[name].remove(method)], then the bucket and the attribute
    are dropped when the bucket is empty. [delattr] on a missing attribute
    raises [AttributeError], which the code swallows. *)
Definition remove_from_bucket (method : Handler) (self : Manager) (name : string)
  : result Manager :=
  match _handlers self !! name with
  | None => Raised KeyError self
  | Some bucket =>
      if decide (method ∈ bucket) then
        let bucket' := bucket ∖ {[method]} in
        if decide (bucket' = ∅) then
          Ok (set_attrs (set_handlers self (delete name (_handlers self)))
                        (delete (h_name method) (attrs self)))
        else Ok (set_handlers self (<[name := bucket']> (_handlers self)))
      else Raised KeyError self
  end.

Fixpoint remove_loop (method : Handler) (self : Manager) (names : list string)
  : result Manager :=
  match names with
  | [] => Ok self
  | name :: rest =>
      match remove_from_bucket method self name with
      | Ok self' => remove_loop method self' rest
      | Raised e self' => Raised e self'
      end
  end.

(** [Manager.removeHandler(f, event=None)] *)
Definition removeHandler (self : Manager) (cache : Cache) (f : Handler)
    (event : option string) : result (Manager * Cache) :=
  let method := bind_method self f in
  let names := match event with None => h_names method | Some e => [e] end in
  match remove_loop method self names with
  | Ok self' => Ok (self', ∅)
  | Raised e self' => Raised e (self', cache)
  end.


(** The buckets after [bucket_add method] ran over [ns] (used to state what
    [addHandler] leaves in [_handlers]). *)
Definition add_names (method : Handler) (H : gmap string (gset Handler))
    (ns : list string) : gmap string (gset Handler) :=
  foldl (λ H n, <[n := default ∅ (H !! n) ∪ {[method]}]> H) H ns.

(** ** Handler resolution *)

(** A channel token: a string (["*"] is the wildcard) or a manager instance
    used as a target. *)
Inductive Channel :=
| ChanName (s : string)
| ChanManager (m : Manager).

Definition chan_key (c : Channel) : ChanKey :=
  match c with
  | ChanName s => KName s
  | ChanManager m => KManager (m_id m)
  end.

(** Truth value of an optional string: [None] and [""] are false. *)
Definition str_truthy (o : option string) : bool :=
  match o with
  | Some s => negb (String.eqb s "")
  | None => false
  end.

(** The channel a handler listens on: its own [channel] when that is set,
    else the [channel] attribute of the object it is bound to. *)
Definition handler_channel (handler : Handler) : option string :=
  if str_truthy (h_channel handler) then h_channel handler
  else match h_self handler with
       | Some o => owner_channel o
       | None => None
       end.

(** [channel == "*" or handler_channel in ("*", channel,) or channel_is_instance] *)
Definition channel_matches (channel : Channel) (handler : Handler) : bool :=
  match channel with
  | ChanManager _ => true
  | ChanName c =>
      bool_decide (c = "*")
      || bool_decide (handler_channel handler = Some "*")
      || bool_decide (handler_channel handler = Some c)
  end.

(** The part of [getHandlers] that looks at [self] only: the handlers of the
    ["*"] bucket and of the bucket of the event's name that match the
    channel, and all of [_globals]. *)
Definition own_handlers (self : Manager) (name : string) (channel : Channel)
  : gset Handler :=
  let handlers_chain :=
    elements (default ∅ (_handlers self !! "*"))
    ++ match _handlers self !! name with
       | Some bucket => elements bucket
       | None => []
       end in
  list_to_set (List.filter (channel_matches channel) handlers_chain)
  ∪ _globals self.

(** [Manager.getHandlers(event, channel)]; [name] is [event.name]. A manager
    instance other than [self] is asked directly, with itself as the channel,
    so that it answers with its own handlers; the children are visited only
    for a channel that is not an instance. *)
Fixpoint getHandlers (self : Manager) (name : string) (channel : Channel)
  : gset Handler :=
  match channel with
  | ChanManager target =>
      if bool_decide (m_id target ≠ m_id self)
      then own_handlers target name channel
      else own_handlers self name channel
  | ChanName _ =>
      match self with
      | mkManager _ _ _ _ _ cs =>
          own_handlers self name channel
          ∪ ⋃ (List.map (λ c, getHandlers c name channel) cs)
      end
  end.

(** All managers of a tree, the root first. *)
Fixpoint managers (m : Manager) : list Manager :=
  match m with
  | mkManager _ _ _ _ _ cs => m :: List.flat_map managers cs
  end.

(** ** Ordering of handlers *)

(** [_sortkey]: the pair [(handler.priority, handler.filter)]. *)
Definition _sortkey (handler : Handler) : Z * bool :=
  (h_priority handler, h_filter handler).

(** Python's order on the key tuples: lexicographic, [False < True]. *)
Definition key_lt (k1 k2 : Z * bool) : bool :=
  (k1.1 <? k2.1) || ((k1.1 =? k2.1) && negb k1.2 && k2.2).

Definition key_le (k1 k2 : Z * bool) : bool := negb (key_lt k2 k1).

(** [sorted(l, key=_sortkey, reverse=True)]: the sort is stable, so a
    handler is placed behind exactly the handlers with a larger or an equal
    key that precede it. *)
Fixpoint insert_desc (h : Handler) (l : list Handler) : list Handler :=
  match l with
  | [] => [h]
  | h' :: l' =>
      if key_lt (_sortkey h) (_sortkey h') then h' :: insert_desc h l'
      else h :: h' :: l'
  end.

Definition sorted_desc (l : list Handler) : list Handler :=
  foldr insert_desc [] l.

(** The concatenation of [self.getHandlers(event, channel)] over the
    channels, as [chain] yields it to [sorted]. *)
Definition resolve (root : Manager) (name : string) (channels : list Channel)
  : list Handler :=
  List.flat_map (λ channel, elements (getHandlers root name channel)) channels.

(** ** Values, events, generators *)

(** The values handlers return and generators yield, as far as the manager
    looks at them: [None], data, the captured error triple
    [(etype, evalue, traceback)] and the [CallValue] wrapper. Generators are
    kept apart (see [Outcome] and [Yielded]). *)
Inductive value :=
| VNone
| VBool (b : bool)
| VInt (z : Z)
| VStr (s : string)
| VError (etype evalue : string) (traceback : list string)
| VCallValue (v : value).

(** Python's truth value: [if value]. A three-element tuple and a
    [CallValue] instance are true. *)
Definition truthy (v : value) : bool :=
  match v with
  | VNone => false
  | VBool b => b
  | VInt z => negb (z =? 0)
  | VStr s => negb (String.eqb s "")
  | VError _ _ _ => true
  | VCallValue _ => true
  end.

(** [value is not None] *)
Definition is_not_None (v : value) : bool :=
  match v with VNone => false | _ => true end.

(** [sys.exc_info()] with the traceback formatted: the triple the manager
    stores for an exception. *)
Definition exc_info (e : exn) : value :=
  match e with
  | KeyboardInterrupt => VError "KeyboardInterrupt" "" []
  | SystemExit => VError "SystemExit" "" []
  | KeyError => VError "KeyError" "" []
  | OtherError etype evalue tb => VError etype evalue tb
  end.

(** Modelled from the spec: the [Value] promise of circuits/core/values.py,
    which is not among the sources. Its observable contract: it stores
    [value], an [errors] flag, a [promise] flag, and [inform(done)]. *)
Record ValueObj := mkValue {
  v_value : value;
  v_errors : bool;
  v_promise : bool;
  v_informed : bool
}.

Definition Value_new : ValueObj := mkValue VNone false false false.

(** Modelled from the spec: the event classes of circuits/core/events.py,
    which is not among the sources. The events the manager itself creates
    carry the event they are about. *)
Inductive EventKind :=
| KPlain
| KDone (source : nat)
| KSuccess (source : nat)
| KFailure (source : nat)
| KComplete (source : nat)
| KError (h : option Handler)
| KStarted
| KStopped
| KSignal
| KGenerateEvents.

(** An event object. [e_tracking] holds the attributes [cause] and
    [effects], which the code sets together (in [_fire] and [_dispatcher])
    and deletes together (in [_eventDone]): [None] when they are absent. *)
Record Event := mkEvent {
  e_kind : EventKind;
  e_name : string;
  e_channels : list Channel;
  e_success : bool;
  e_failure : bool;
  e_complete : bool;
  e_alert_done : bool;
  e_success_channels : option (list Channel);
  e_complete_channels : option (list Channel);
  waitingHandlers : Z;
  e_tracking : option (nat * Z);
  e_handler : option Handler;
  e_value : ValueObj;
  e_args : list value;
  time_left : Z
}.

(** [getattr(event, "cause", None)] and [event.effects] *)
Definition cause (ev : Event) : option nat := fst <$> e_tracking ev.
Definition effects (ev : Event) : option Z := snd <$> e_tracking ev.

(** What a producer chooses when it creates an event: the name, the class
    attributes and the payload. *)
Record EventSpec := mkSpec {
  s_name : string;
  s_channels : list Channel;
  s_success : bool;
  s_failure : bool;
  s_complete : bool;
  s_alert_done : bool;
  s_success_channels : option (list Channel);
  s_complete_channels : option (list Channel);
  s_args : list value
}.

(** A freshly created event: no [cause], no waiting handlers. *)
Definition new_event (sp : EventSpec) : Event :=
  mkEvent KPlain (s_name sp) (s_channels sp) (s_success sp) (s_failure sp)
          (s_complete sp) (s_alert_done sp) (s_success_channels sp)
          (s_complete_channels sp) 0 None None Value_new (s_args sp) (-1).

(** An event of one of the manager's own classes. *)
Definition core_event (k : EventKind) (nm : string) (args : list value) : Event :=
  mkEvent k nm [] false false false false None None 0 None None Value_new
          args (-1).

Definition default_event : Event := core_event KPlain "" [].

Definition set_channels (c : list Channel) (ev : Event) : Event :=
  mkEvent (e_kind ev) (e_name ev) c (e_success ev) (e_failure ev)
          (e_complete ev) (e_alert_done ev) (e_success_channels ev)
          (e_complete_channels ev) (waitingHandlers ev) (e_tracking ev)
          (e_handler ev) (e_value ev) (e_args ev) (time_left ev).

Definition set_waiting (w : Z) (ev : Event) : Event :=
  mkEvent (e_kind ev) (e_name ev) (e_channels ev) (e_success ev) (e_failure ev)
          (e_complete ev) (e_alert_done ev) (e_success_channels ev)
          (e_complete_channels ev) w (e_tracking ev)
          (e_handler ev) (e_value ev) (e_args ev) (time_left ev).

Definition set_tracking (t : option (nat * Z)) (ev : Event) : Event :=
  mkEvent (e_kind ev) (e_name ev) (e_channels ev) (e_success ev) (e_failure ev)
          (e_complete ev) (e_alert_done ev) (e_success_channels ev)
          (e_complete_channels ev) (waitingHandlers ev) t
          (e_handler ev) (e_value ev) (e_args ev) (time_left ev).

Definition set_handler (h : option Handler) (ev : Event) : Event :=
  mkEvent (e_kind ev) (e_name ev) (e_channels ev) (e_success ev) (e_failure ev)
          (e_complete ev) (e_alert_done ev) (e_success_channels ev)
          (e_complete_channels ev) (waitingHandlers ev) (e_tracking ev)
          h (e_value ev) (e_args ev) (time_left ev).

Definition set_value (v : ValueObj) (ev : Event) : Event :=
  mkEvent (e_kind ev) (e_name ev) (e_channels ev) (e_success ev) (e_failure ev)
          (e_complete ev) (e_alert_done ev) (e_success_channels ev)
          (e_complete_channels ev) (waitingHandlers ev) (e_tracking ev)
          (e_handler ev) v (e_args ev) (time_left ev).

Definition set_time_left (t : Z) (ev : Event) : Event :=
  mkEvent (e_kind ev) (e_name ev) (e_channels ev) (e_success ev) (e_failure ev)
          (e_complete ev) (e_alert_done ev) (e_success_channels ev)
          (e_complete_channels ev) (waitingHandlers ev) (e_tracking ev)
          (e_handler ev) (e_value ev) (e_args ev) t.

(** [event.value.value = v], [event.value.errors = True],
    [event.value.promise = True], [event.value.inform(True)] *)
Definition value_set (v : value) (ev : Event) : Event :=
  set_value (mkValue v (v_errors (e_value ev)) (v_promise (e_value ev))
                     (v_informed (e_value ev))) ev.

Definition errors_set (ev : Event) : Event :=
  set_value (mkValue (v_value (e_value ev)) true (v_promise (e_value ev))
                     (v_informed (e_value ev))) ev.

Definition promise_set (ev : Event) : Event :=
  set_value (mkValue (v_value (e_value ev)) (v_errors (e_value ev)) true
                     (v_informed (e_value ev))) ev.

Definition inform (ev : Event) : Event :=
  set_value (mkValue (v_value (e_value ev)) (v_errors (e_value ev))
                     (v_promise (e_value ev)) true) ev.

(** Code that runs inside the manager: a handler body and a generator body.
    A body fires freshly created events through [self.fire] (the first
    argument of [PFire] and [GFire] is the [channel] attribute of the firing
    component) and then returns, raises or yields. A handler that is a
    generator function returns a new generator object. *)
Inductive Gen :=
| GStop                                   (* the body ends: [StopIteration] *)
| GRaise (e : exn)
| GFire (self_channel : option string) (sp : EventSpec)
        (chs : list Channel) (k : Gen)
| GYield (y : Yielded) (k : Gen)
with Yielded :=
| YValue (v : value)
| YGenerator (g : Gen)                   (* a nested, new generator *)
| YCallValue (v : value).               (* [yield CallValue(v)] *)

Inductive Program :=
| PReturn (v : value)
| PReturnGen (g : Gen)
| PRaise (e : exn)
| PFire (self_channel : option string) (sp : EventSpec)
        (chs : list Channel) (k : Program).

Inductive Outcome :=
| OReturn (v : value)
| OGen (g : Gen)
| ORaise (e : exn).

(** What [task.next()] and [parent.send(v)] produce. *)
Inductive Resumed :=
| RStop
| RRaise (e : exn)
| RYield (v : value)
| RYieldGen (g : nat)
| RYieldCall (v : value).

(** The entries of [_tasks]: the tuples [(event, task)] and
    [(event, task, parent)]; [unregisterTask] is also called with a
    three-element tuple whose parent is [None]. *)
Inductive Task :=
| Task2 (event task : nat)
| Task3 (event task : nat) (parent : option nat).

#[global] Instance Task_eq_dec : EqDecision Task.
Proof. solve_decision. Defined.

(** ** The state of the root manager *)

(** How a call of a handler ended, and the record of one call made by the
    dispatcher. *)
Inductive CallResult :=
| CValue (v : value)
| CGenerator
| CRaised (e : exn).

Record Call := mkCall {
  c_event : nat;
  c_handler : Handler;
  c_result : CallResult
}.

(** [events] and [gens] are the stores of event and generator objects;
    [_tasks] and [_ticks] are Python sets, kept as duplicate-free lists whose
    order stands for the iteration order; [calls] records the handler
    invocations of the dispatcher, oldest first (it is not a field of the
    Python object). *)
Record State := mkState {
  tree : Manager;
  _cache : Cache;
  _queue : list (nat * list Channel);
  _tasks : list Task;
  _ticks : list nat;
  events : list Event;
  gens : list Gen;
  _running : bool;
  _executing_thread : option nat;
  _currently_handling : option nat;
  _generate_event : option nat;
  calls : list Call
}.

(** What the handlers and the tick functions do when called. *)
Record Env := mkEnv {
  code : State → Handler → nat → Program;
  tick_code : State → nat → Program
}.

Definition set_cache (c : Cache) (s : State) : State :=
  mkState (tree s) c (_queue s) (_tasks s) (_ticks s) (events s) (gens s)
          (_running s) (_executing_thread s) (_currently_handling s)
          (_generate_event s) (calls s).

Definition set_queue (q : list (nat * list Channel)) (s : State) : State :=
  mkState (tree s) (_cache s) q (_tasks s) (_ticks s) (events s) (gens s)
          (_running s) (_executing_thread s) (_currently_handling s)
          (_generate_event s) (calls s).

Definition set_tasks (t : list Task) (s : State) : State :=
  mkState (tree s) (_cache s) (_queue s) t (_ticks s) (events s) (gens s)
          (_running s) (_executing_thread s) (_currently_handling s)
          (_generate_event s) (calls s).

Definition set_events (e : list Event) (s : State) : State :=
  mkState (tree s) (_cache s) (_queue s) (_tasks s) (_ticks s) e (gens s)
          (_running s) (_executing_thread s) (_currently_handling s)
          (_generate_event s) (calls s).

Definition set_gens (g : list Gen) (s : State) : State :=
  mkState (tree s) (_cache s) (_queue s) (_tasks s) (_ticks s) (events s) g
          (_running s) (_executing_thread s) (_currently_handling s)
          (_generate_event s) (calls s).

Definition set_running (b : bool) (s : State) : State :=
  mkState (tree s) (_cache s) (_queue s) (_tasks s) (_ticks s) (events s)
          (gens s) b (_executing_thread s) (_currently_handling s)
          (_generate_event s) (calls s).

Definition set_executing_thread (t : option nat) (s : State) : State :=
  mkState (tree s) (_cache s) (_queue s) (_tasks s) (_ticks s) (events s)
          (gens s) (_running s) t (_currently_handling s)
          (_generate_event s) (calls s).

Definition set_currently_handling (e : option nat) (s : State) : State :=
  mkState (tree s) (_cache s) (_queue s) (_tasks s) (_ticks s) (events s)
          (gens s) (_running s) (_executing_thread s) e
          (_generate_event s) (calls s).

Definition set_generate_event (e : option nat) (s : State) : State :=
  mkState (tree s) (_cache s) (_queue s) (_tasks s) (_ticks s) (events s)
          (gens s) (_running s) (_executing_thread s) (_currently_handling s)
          e (calls s).

Definition set_calls (c : list Call) (s : State) : State :=
  mkState (tree s) (_cache s) (_queue s) (_tasks s) (_ticks s) (events s)
          (gens s) (_running s) (_executing_thread s) (_currently_handling s)
          (_generate_event s) c.

(** Reading and updating an event object of the store. *)
Definition ev (s : State) (e : nat) : Event :=
  default default_event (events s !! e).

Definition upd_event (f : Event → Event) (e : nat) (s : State) : State :=
  set_events (alter f e (events s)) s.

(** Creating an object: it gets the next free index. *)
Definition alloc_event (x : Event) (s : State) : State * nat :=
  (set_events (events s ++ [x]) s, length (events s)).

Definition alloc_gen (g : Gen) (s : State) : State * nat :=
  (set_gens (gens s ++ [g]) s, length (gens s)).

(** ** Firing events *)

Definition is_Signal (x : Event) : bool :=
  match e_kind x with KSignal => true | _ => false end.

Definition is_GenerateEvents (x : Event) : bool :=
  match e_kind x with KGenerateEvents => true | _ => false end.

(** Modelled from the spec: [GenerateEvents.reduce_time_left] of
    circuits/core/events.py caps the time the token may wait; a negative
    [time_left] is no limit. Times are in milliseconds. *)
Definition reduce_time_left (t : Z) (x : Event) : Event :=
  if (0 <=? t) && ((time_left x <? 0) || (t <? time_left x))
  then set_time_left t x else x.

(** [TIMEOUT = 0.01] seconds *)
Definition TIMEOUT : Z := 10.

(** [event.effects += d] *)
Definition add_effects (d : Z) (x : Event) : Event :=
  set_tracking (match e_tracking x with
                | Some (c, n) => Some (c, n + d)
                | None => None
                end) x.

(** [Manager._fire(event, channel)], called by [thread]. *)
Definition _fire (thread : nat) (s : State) (event : nat)
    (channel : list Channel) : State :=
  if bool_decide (_executing_thread s = Some thread)
     && negb (is_Signal (ev s event))
  then
    let s :=
      match _currently_handling s with
      | Some cur =>
          match cause (ev s cur) with
          | Some _ =>
              let s := upd_event (set_tracking (Some (cur, 1))) event s in
              upd_event (add_effects 1) cur s
          | None => s
          end
      | None => s
      end in
    set_queue (_queue s ++ [(event, channel)]) s
  else
    match _generate_event s with
    | Some g =>
        let s := set_queue (_queue s ++ [(event, channel)]) s in
        upd_event (reduce_time_left 0) g s
    | None => set_queue (_queue s ++ [(event, channel)]) s
    end.

(** [Manager.fireEvent(event, *channels)] called on a manager whose
    [channel] attribute is [self_channel]. *)
Definition fireEvent (thread : nat) (self_channel : option string) (s : State)
    (event : nat) (channels : list Channel) : State :=
  let channels :=
    match channels with
    | [] =>
        match e_channels (ev s event) with
        | [] => [ChanName (default "*" self_channel)]
        | cs => cs
        end
    | _ => channels
    end in
  let s := upd_event (set_channels channels) event s in
  let s := upd_event (set_value Value_new) event s in
  _fire thread s event channels.

(** [self.fire(X(...), *channels)] for an event object created on the spot. *)
Definition fire_new (thread : nat) (self_channel : option string) (x : Event)
    (channels : list Channel) (s : State) : State :=
  let '(s, e) := alloc_event x s in
  fireEvent thread self_channel s e channels.

(** Running a handler body: its [fire] calls take effect in turn. *)
Fixpoint run_program (thread : nat) (s : State) (p : Program)
  : State * Outcome :=
  match p with
  | PReturn v => (s, OReturn v)
  | PReturnGen g => (s, OGen g)
  | PRaise e => (s, ORaise e)
  | PFire self_channel sp chs k =>
      run_program thread (fire_new thread self_channel (new_event sp) chs s) k
  end.

(** [registerTask] and [unregisterTask]: [set.add] and a guarded
    [set.remove]. *)
Definition registerTask (g : Task) (s : State) : State :=
  if bool_decide (g ∈ _tasks s) then s else set_tasks (_tasks s ++ [g]) s.

Definition unregisterTask (g : Task) (s : State) : State :=
  set_tasks (List.filter (λ t, negb (bool_decide (t = g))) (_tasks s)) s.

(** ** Completion: [_eventDone] *)

Definition root_channel (s : State) : option string := m_channel (tree s).

Definition derived_name (x : Event) (suffix : string) : string :=
  String.append (e_name x) suffix.

(** The [while True] loop of [_eventDone]. Every round that does not leave
    the loop deletes the [cause] of an event, so [fuel] is only a bound:
    see [eventDone_chain_fuel]. *)
Fixpoint eventDone_chain (fuel : nat) (thread : nat) (s : State) (event : nat)
  : State :=
  match fuel with
  | O => s
  | S fuel =>
      match e_tracking (ev s event) with
      | None => s
      | Some (cause, _) =>
          let s := upd_event (add_effects (-1)) event s in
          if bool_decide (0 < default 0 (effects (ev s event))) then s
          else
            let s :=
              if e_complete (ev s event) then
                fire_new thread (root_channel s)
                  (core_event (KComplete event)
                     (derived_name (ev s event) "_complete")
                     [v_value (e_value (ev s event))])
                  (default (e_channels (ev s event))
                           (e_complete_channels (ev s event))) s
              else s in
            let s := upd_event (set_tracking None) event s in
            eventDone_chain fuel thread s cause
      end
  end.

(** The number of loop rounds still possible: an event with a [cause] is
    counted once, and twice more when it is [complete]. *)
Definition chain_measure (s : State) : nat :=
  list_sum (List.map (λ x, match e_tracking x with
                           | Some _ => if e_complete x then 3%nat else 1%nat
                           | None => 0%nat
                           end) (events s)).

(** [Manager._eventDone(event, error=None)] *)
Definition _eventDone (thread : nat) (s : State) (event : nat)
    (error : option value) : State :=
  if negb (waitingHandlers (ev s event) =? 0) then s
  else
    let s :=
      if e_alert_done (ev s event) then
        fire_new thread (root_channel s)
          (core_event (KDone event) (derived_name (ev s event) "_done")
                      [v_value (e_value (ev s event))])
          (e_channels (ev s event)) s
      else s in
    let s :=
      if bool_decide (error = None) && e_success (ev s event) then
        fire_new thread (root_channel s)
          (core_event (KSuccess event) (derived_name (ev s event) "_success")
                      [v_value (e_value (ev s event))])
          (default (e_channels (ev s event))
                   (e_success_channels (ev s event))) s
      else s in
    eventDone_chain (S (chain_measure s)) thread s event.

(** ** The dispatcher *)

(** The end of one round of the handler loop, from
    [isinstance(value, GeneratorType)] on; the boolean tells whether the
    loop is left ([value and handler.filter]). A generator object is true. *)
Definition after_call (s : State) (event : nat) (handler : Handler)
    (value : value + Gen) : State * bool :=
  match value with
  | inr g =>
      let '(s, task) := alloc_gen g s in
      let s := upd_event (λ x, set_waiting (waitingHandlers x + 1) x) event s in
      let s := upd_event promise_set event s in
      let s := registerTask (Task2 event task) s in
      (s, h_filter handler)
  | inl v =>
      let s := if is_not_None v then upd_event (value_set v) event s else s in
      (s, truthy v && h_filter handler)
  end.

Definition call_result (out : Outcome) : CallResult :=
  match out with
  | OReturn v => CValue v
  | OGen _ => CGenerator
  | ORaise e => CRaised e
  end.

(** One round of the handler loop of [_dispatcher]: the call inside
    [try], the [except] clauses, and the rest of the loop body. *)
Definition dispatch_one (env : Env) (thread : nat) (s : State) (event : nat)
    (handler : Handler) (error : option value)
  : result (State * option value * bool) :=
  let s := upd_event (set_handler (Some handler)) event s in
  let '(s, out) := run_program thread s (code env s handler event) in
  let s := set_calls (calls s ++ [mkCall event handler (call_result out)]) s in
  match out with
  | ORaise e =>
      if is_fatal e then Raised e (s, error, true)
      else
        let error := exc_info e in
        let s := upd_event errors_set event s in
        let s :=
          if e_failure (ev s event) then
            fire_new thread (root_channel s)
              (core_event (KFailure event)
                 (derived_name (ev s event) "_failure") [error])
              (e_channels (ev s event)) s
          else s in
        let s :=
          fire_new thread (root_channel s)
            (core_event (KError (Some handler)) "error" [error]) [] s in
        let '(s, brk) := after_call s event handler (inl error) in
        Ok (s, Some error, brk)
  | OReturn v =>
      let '(s, brk) := after_call s event handler (inl v) in
      Ok (s, error, brk)
  | OGen g =>
      let '(s, brk) := after_call s event handler (inr g) in
      Ok (s, error, brk)
  end.

Fixpoint dispatch_loop (env : Env) (thread : nat) (s : State) (event : nat)
    (handlers : list Handler) (error : option value)
  : result (State * option value) :=
  match handlers with
  | [] => Ok (s, error)
  | handler :: rest =>
      match dispatch_one env thread s event handler error with
      | Raised e (s, error, _) => Raised e (s, error)
      | Ok (s, error, brk) =>
          if brk then Ok (s, error)
          else dispatch_loop env thread s event rest error
      end
  end.

(** The handler list of [_dispatcher]: the cached list, or the sorted
    concatenation of [getHandlers] over the channels, which is then cached. *)
Definition lookup_handlers (s : State) (event : nat) (channels : list Channel)
  : State * list Handler :=
  let key := (e_name (ev s event), List.map chan_key channels) in
  match _cache s !! key with
  | Some handlers => (s, handlers)
  | None =>
      let handlers :=
        sorted_desc (resolve (tree s) (e_name (ev s event)) channels) in
      (set_cache (<[key := handlers]> (_cache s)) s, handlers)
  end.

(** [Manager._dispatcher(event, channels)] *)
Definition _dispatcher (env : Env) (thread : nat) (s : State) (event : nat)
    (channels : list Channel) : result State :=
  let s := set_currently_handling (Some event) s in
  let s :=
    if e_complete (ev s event) then
      upd_event (λ x, set_tracking (Some (default event (cause x), 1)) x)
                event s
    else s in
  let '(s, handlers) := lookup_handlers s event channels in
  match dispatch_loop env thread s event handlers None with
  | Raised e (s, _) => Raised e s
  | Ok (s, error) =>
      let s := set_currently_handling None s in
      Ok (_eventDone thread s event error)
  end.

(** [Manager._flush] *)
Fixpoint flush_loop (env : Env) (thread : nat) (s : State)
    (q : list (nat * list Channel)) : result State :=
  match q with
  | [] => Ok s
  | (event, channels) :: q =>
      match _dispatcher env thread s event channels with
      | Raised e s => Raised e s
      | Ok s => flush_loop env thread s q
      end
  end.

Definition _flush (env : Env) (thread : nat) (s : State) : result State :=
  let set_executing := bool_decide (_executing_thread s = None) in
  let s := if set_executing then set_executing_thread (Some thread) s else s in
  let q := _queue s in
  let s := set_queue [] s in
  match flush_loop env thread s q with
  | Raised e s => Raised e s
  | Ok s => Ok (if set_executing then set_executing_thread None s else s)
  end.

(** ** The task runner *)

Inductive GenOut :=
| GOStop
| GORaise (e : exn)
| GOYield (y : Yielded).

(** Running a generator body up to its next [yield], its end or an
    exception; the second component is what is left of the body. *)
Fixpoint gen_run (thread : nat) (s : State) (body : Gen)
  : State * Gen * GenOut :=
  match body with
  | GStop => (s, GStop, GOStop)
  | GRaise e => (s, GStop, GORaise e)
  | GFire self_channel sp chs k =>
      gen_run thread (fire_new thread self_channel (new_event sp) chs s) k
  | GYield y k => (s, k, GOYield y)
  end.

(** [task.next()], and [parent.send(v)] as well: the bodies do not look at
    the value sent in. A yielded generator is a new object. *)
Definition gen_next (thread : nat) (s : State) (g : nat) : State * Resumed :=
  match gens s !! g with
  | None => (s, RStop)
  | Some body =>
      let '(s, rest, out) := gen_run thread s body in
      let s := set_gens (<[g := rest]> (gens s)) s in
      match out with
      | GOStop => (s, RStop)
      | GORaise e => (s, RRaise e)
      | GOYield (YValue v) => (s, RYield v)
      | GOYield (YCallValue v) => (s, RYieldCall v)
      | GOYield (YGenerator b) =>
          let '(s, g') := alloc_gen b s in (s, RYieldGen g')
      end
  end.

(** The [except StopIteration] clause of [processTask]. *)
Definition task_stopped (thread : nat) (s : State) (event task : nat)
    (parent : option nat) : State :=
  let s := upd_event (λ x, set_waiting (waitingHandlers x - 1) x) event s in
  let s :=
    match parent with
    | Some _ => unregisterTask (Task3 event task parent) s
    | None => unregisterTask (Task2 event task) s
    end in
  match parent with
  | Some p => registerTask (Task2 event p) s
  | None =>
      if waitingHandlers (ev s event) =? 0 then
        let s := upd_event inform event s in
        _eventDone thread s event None
      else s
  end.

(** The bare [except] clause of [processTask]; [value] is the local
    variable at the time of the exception. *)
Definition task_failed (thread : nat) (s : State) (event task : nat)
    (value : value) (e : exn) : State :=
  let s := unregisterTask (Task2 event task) s in
  let error := exc_info e in
  let s := upd_event (value_set value) event s in
  let s := upd_event errors_set event s in
  let s := upd_event inform event s in
  let s :=
    if e_failure (ev s event) then
      fire_new thread (root_channel s)
        (core_event (KFailure event) (derived_name (ev s event) "_failure")
                    [error])
        (e_channels (ev s event)) s
    else s in
  fire_new thread (root_channel s)
    (core_event (KError (e_handler (ev s event))) "error" [error]) [] s.

(** [None.send] *)
Definition AttributeError : exn :=
  OtherError "AttributeError" "'NoneType' object has no attribute 'send'" [].

(** [Manager.processTask(event, task, parent=None)]. A recursive call works
    on a generator that was created during this call; [fuel] bounds the
    depth (see [gens_size]). *)
Fixpoint processTask (fuel : nat) (thread : nat) (s : State)
    (event task : nat) (parent : option nat) : State :=
  match fuel with
  | O => s
  | S fuel =>
      let '(s, r) := gen_next thread s task in
      match r with
      | RYieldCall v =>
          let s := unregisterTask (Task3 event task parent) s in
          match parent with
          | None => task_failed thread s event task (VCallValue v) AttributeError
          | Some p =>
              let '(s, r') := gen_next thread s p in
              match r' with
              | RYieldGen g =>
                  let s := registerTask (Task3 event g (Some p)) s in
                  processTask fuel thread s event g (Some p)
              | RYield v' =>
                  let s := upd_event (λ x, set_waiting (waitingHandlers x - 1) x)
                                     event s in
                  let s := if is_not_None v'
                           then upd_event (value_set v') event s else s in
                  registerTask (Task2 event p) s
              | RYieldCall v' =>
                  let s := upd_event (λ x, set_waiting (waitingHandlers x - 1) x)
                                     event s in
                  let s := upd_event (value_set (VCallValue v')) event s in
                  registerTask (Task2 event p) s
              | RStop => task_stopped thread s event task parent
              | RRaise e => task_failed thread s event task (VCallValue v) e
              end
          end
      | RYieldGen g =>
          let s := upd_event (λ x, set_waiting (waitingHandlers x + 1) x)
                             event s in
          let s := registerTask (Task3 event g (Some task)) s in
          let s := unregisterTask (Task2 event task) s in
          processTask fuel thread s event g (Some task)
      | RYield v =>
          if is_not_None v then upd_event (value_set v) event s else s
      | RStop => task_stopped thread s event task parent
      | RRaise e => task_failed thread s event task VNone e
      end
  end.

(** The size of a generator body and of the generator store: every
    [next] and [send] makes it smaller. *)
Fixpoint gen_size (g : Gen) : nat :=
  match g with
  | GStop => 0
  | GRaise _ => 1
  | GFire _ _ _ k => S (gen_size k)
  | GYield y k =>
      S (match y with YGenerator b => S (gen_size b) | _ => 0%nat end
         + gen_size k)
  end.

Definition gens_size (s : State) : nat :=
  list_sum (List.map (λ g, S (gen_size g)) (gens s)).

(** ** The tick loop *)

(** The tick functions: [f()] for every [f] of the snapshot of [_ticks]. *)
Fixpoint run_ticks (env : Env) (thread : nat) (s : State) (fs : list nat)
  : result State :=
  match fs with
  | [] => Ok s
  | f :: fs =>
      let '(s, out) := run_program thread s (tick_code env s f) in
      match out with
      | ORaise e =>
          if is_fatal e then Raised e s
          else
            run_ticks env thread
              (fire_new thread (root_channel s)
                 (core_event (KError None) "error" [exc_info e]) [] s) fs
      | _ => run_ticks env thread s fs
      end
  end.

(** [processTask] for every task tuple of the snapshot of [_tasks]. *)
Fixpoint run_tasks (thread : nat) (s : State) (ts : list Task) : State :=
  match ts with
  | [] => s
  | Task2 event task :: ts =>
      run_tasks thread
        (processTask (S (gens_size s)) thread s event task None) ts
  | Task3 event task parent :: ts =>
      run_tasks thread
        (processTask (S (gens_size s)) thread s event task parent) ts
  end.

(** [Manager.tick(timeout=-1)]. The registration of the fall-back generator
    component (circuits/core/helpers.py, not among the sources) is left
    out. *)
Definition tick (env : Env) (thread : nat) (timeout : Z) (s : State)
  : result State :=
  let s := set_executing_thread (Some thread) s in
  match run_ticks env thread s (_ticks s) with
  | Raised e s => Raised e s
  | Ok s =>
      let s := run_tasks thread s (_tasks s) in
      let s :=
        if _running s then
          let token :=
            set_time_left timeout (core_event KGenerateEvents "generate_events" []) in
          let token :=
            if bool_decide (0 < length (_ticks s))%nat
            then reduce_time_left TIMEOUT token else token in
          let token :=
            if bool_decide (0 < length (_tasks s))%nat
               || bool_decide (0 < length (_queue s))%nat
            then reduce_time_left 0 token else token in
          let '(s, g) := alloc_event token s in
          let s := set_generate_event (Some g) s in
          fireEvent thread (root_channel s) s g [ChanName "*"]
        else s in
      match (if bool_decide (0 < length (_queue s))%nat
             then _flush env thread s else Ok s) with
      | Raised e s => Raised e s
      | Ok s => Ok (set_executing_thread None s)
      end
  end.

(** ** Stopping *)

(** The Python objects [stop] meets in the queue: an entry is the tuple
    [(event, channels)]. *)
#[warnings="-register-all"] Inductive PyObject :=
| ObjEvent (e : nat)
| ObjChannels (cs : list Channel)
| ObjTuple (items : list PyObject).

Definition queue_entry (x : nat * list Channel) : PyObject :=
  ObjTuple [ObjEvent x.1; ObjChannels x.2].

(** [isinstance(o, GenerateEvents)] *)
Definition isinstance_GenerateEvents (s : State) (o : PyObject) : bool :=
  match o with
  | ObjEvent e => is_GenerateEvents (ev s e)
  | _ => false
  end.

(** The loop of [stop] that rebuilds the queue:
    [for evt in q: if not isinstance(evt, GenerateEvents): self._queue.append(evt)] *)
Definition clean_queue (s : State) (q : list (nat * list Channel)) : State :=
  foldl (λ s evt,
           if negb (isinstance_GenerateEvents s (queue_entry evt))
           then set_queue (_queue s ++ [evt]) s else s) s q.

Fixpoint ticks (env : Env) (thread : nat) (n : nat) (s : State) : result State :=
  match n with
  | O => Ok s
  | S n =>
      match tick env thread (-1) s with
      | Raised e s => Raised e s
      | Ok s => ticks env thread n s
      end
  end.

(** [Manager.stop()], called by [thread]. *)
Definition stop (env : Env) (thread : nat) (s : State) : result State :=
  if negb (_running s) then Ok s
  else
    let s := set_running false s in
    let q := _queue s in
    let s := set_queue [] s in
    let s := clean_queue s q in
    let s := fire_new thread (root_channel s) (core_event KStopped "stopped" [])
                      [] s in
    ticks env thread 3 s.

(** ** Framing *)

(** An event up to its bookkeeping attributes [cause], [effects] and
    [time_left]: firing an event changes nothing else on the events that
    exist already. *)
Definition untracked (x : Event) : Event :=
  set_time_left 0 (set_tracking None x).

Definition ev_stable (s s' : State) : Prop :=
  (untracked <$> events s) `prefix_of` (untracked <$> events s').

(** The channels [fireEvent] settles on. *)
Definition fire_channels (self_channel : option string) (x : Event)
    (channels : list Channel) : list Channel :=
  match channels with
  | [] =>
      match e_channels x with
      | [] => [ChanName (default "*" self_channel)]
      | cs => cs
      end
  | _ => channels
  end.

(** The channel [fireEvent] falls back to for an event without channels,
    fired by the root manager: [(getattr(self, "channel", "*"),)]. *)
Definition default_channels (s : State) : list Channel :=
  [ChanName (default "*" (root_channel s))].

(** The entries a piece of code appended to the queue, with the class of
    the event of each entry. *)
Definition queued_since (s s' : State) : list (EventKind * list Channel) :=
  List.map (λ q, (e_kind (ev s' q.1), q.2))
           (drop (length (_queue s)) (_queue s')).

(** ** Observing a dispatch *)

(** The calls a dispatch adds to the record, in order. *)
Definition invoked (env : Env) (thread : nat) (s : State) (event : nat)
    (channels : list Channel) : list Call :=
  drop (length (calls s))
       (calls (result_state (_dispatcher env thread s event channels))).

(** The record of the call of [handler] made in state [s]. *)
Definition call_of (env : Env) (thread : nat) (s : State) (event : nat)
    (handler : Handler) : Call :=
  let s0 := upd_event (set_handler (Some handler)) event s in
  mkCall event handler
         (call_result (run_program thread s0 (code env s0 handler event)).2).

(** The handler list the dispatcher walks through. *)
Definition dispatch_order (s : State) (event : nat) (channels : list Channel)
  : list Handler :=
  (lookup_handlers s event channels).2.

(** [value and handler.filter], or a fatal exception: the call after which
    the handler loop is left. *)
Definition ends_loop (c : Call) : bool :=
  match c_result c with
  | CValue v => truthy v && h_filter (c_handler c)
  | CGenerator => h_filter (c_handler c)
  | CRaised e => is_fatal e || h_filter (c_handler c)
  end.






(** ** Completion tracking *)

#[global] Instance EventKind_eq_dec : EqDecision EventKind.
Proof. solve_decision. Defined.

(** What completion tracking looks at in an event: [cause] and [effects],
    the [complete] flag, the class, and [waitingHandlers]. *)
Record Row := mkRow {
  r_tracking : option (nat * Z);
  r_complete : bool;
  r_kind : EventKind;
  r_waiting : Z
}.

Definition row (x : Event) : Row :=
  mkRow (e_tracking x) (e_complete x) (e_kind x) (waitingHandlers x).

Definition rows (s : State) : list Row := row <$> events s.

Definition row_default : Row := row default_event.

Definition rw (T : list Row) (i : nat) : Row := default row_default (T !! i).


Definition r_set_tracking (t : option (nat * Z)) (r : Row) : Row :=
  mkRow t (r_complete r) (r_kind r) (r_waiting r).

Definition r_add_effects (d : Z) (r : Row) : Row :=
  r_set_tracking (match r_tracking r with
                  | Some (c, n) => Some (c, n + d)
                  | None => None
                  end) r.






(** The row of the [Complete] event about [x]. *)
Definition complete_row (x : nat) : Row := mkRow None false (KComplete x) 0.

(** Whether [_fire] records the event handled as the cause of the event
    [x] that [thread] fires: the event handled, when it has a [cause]. *)
Definition fire_tracks (thread : nat) (s : State) (x : Event) : option nat :=
  if bool_decide (_executing_thread s = Some thread) && negb (is_Signal x)
  then
    match _currently_handling s with
    | Some cur =>
        match cause (ev s cur) with
        | Some _ => Some cur
        | None => None
        end
    | None => None
    end
  else None.


(** The weight of an event in [chain_measure]. *)
Definition weight (r : Row) : nat :=
  match r_tracking r with
  | Some _ => if r_complete r then 3%nat else 1%nat
  | None => 0%nat
  end.

(** The end of a round of the loop of [_eventDone] that goes on: the
    [Complete] event is fired, the [cause] and [effects] are deleted. *)
Definition chain_round (thread : nat) (s : State) (event : nat) : State :=
  let s :=
    if e_complete (ev s event) then
      fire_new thread (root_channel s)
        (core_event (KComplete event)
           (derived_name (ev s event) "_complete")
           [v_value (e_value (ev s event))])
        (default (e_channels (ev s event))
                 (e_complete_channels (ev s event))) s
    else s in
  upd_event (set_tracking None) event s.


(** The channels an event of the manager's own classes is fired on. *)
Definition or_default (s : State) (chs : list Channel) : list Channel :=
  match chs with
  | [] => default_channels s
  | _ => chs
  end.

(** What [_eventDone] fires before it walks the causation chain. *)
Definition done_entries (s : State) (e : nat) (error : option value)
  : list (EventKind * list Channel) :=
  (if e_alert_done (ev s e)
   then [(KDone e, or_default s (e_channels (ev s e)))] else [])
  ++ (if bool_decide (error = None) && e_success (ev s e)
      then [(KSuccess e,
             or_default s (default (e_channels (ev s e))
                                   (e_success_channels (ev s e))))]
      else []).


(** ** Suspended handlers *)

(** A generator body that fires events and yields plain values until it
    ends: it does not raise and yields no generator and no [CallValue]. *)
Fixpoint flat_gen (g : Gen) : Prop :=
  match g with
  | GStop => True
  | GRaise _ => False
  | GFire _ _ _ k => flat_gen k
  | GYield (YValue _) k => flat_gen k
  | GYield _ _ => False
  end.

Fixpoint flat_program (p : Program) : Prop :=
  match p with
  | PReturnGen g => flat_gen g
  | PFire _ _ _ k => flat_program k
  | _ => True
  end.

(** The generators that the handlers return are flat. *)
Definition flat_handlers (env : Env) : Prop :=
  ∀ s h e, flat_program (code env s h e).

Definition waits (s : State) : list Z := waitingHandlers <$> events s.

Definition task_event (t : Task) : nat :=
  match t with Task2 e _ | Task3 e _ _ => e end.

(** The number of task tuples in [_tasks] that refer to the event [e]. *)
Definition live (l : list Task) (e : nat) : nat :=
  length (filter (λ t, task_event t = e) l).

Definition live_tasks (s : State) (e : nat) : nat := live (_tasks s) e.

Definition flat_task (s : State) (t : Task) : Prop :=
  match t with
  | Task2 e g =>
      (e < length (events s))%nat
      ∧ ∃ body, gens s !! g = Some body ∧ flat_gen body
  | Task3 _ _ _ => False
  end.

(** The bookkeeping of [waitingHandlers], for tasks with flat bodies; [q]
    is the rest of the snapshot of the queue that [_flush] walks through. *)
Record waiting_inv (q : list (nat * list Channel)) (s : State) : Prop :=
  mkWaitingInv {
  wi_count : ∀ e, waitingHandlers (ev s e) = Z.of_nat (live_tasks s e);
  wi_nodup : NoDup (_tasks s);
  wi_tasks : ∀ t, t ∈ _tasks s → flat_task s t;
  wi_queue : ∀ x, x ∈ q ++ _queue s → (x.1 < length (events s))%nat
}.

(** A step that leaves the tasks, the generators and [waitingHandlers]
    alone: it may create events without waiting handlers and append them
    to the queue. *)
Definition grows (s s' : State) : Prop :=
  _tasks s' = _tasks s ∧ gens s' = gens s
  ∧ (∃ k, waits s' = waits s ++ replicate k 0)
  ∧ ∃ qs, _queue s' = _queue s ++ qs
          ∧ ∀ x, x ∈ qs → (x.1 < length (events s'))%nat.



(** What the program around the manager does with it between two events:
    some thread fires an event, or the manager's thread calls [flush] or
    [tick]. *)
Inductive Op :=
| OpFire (from : nat) (self_channel : option string) (sp : EventSpec)
         (chs : list Channel)
| OpFlush
| OpTick (timeout : Z).

Definition run_op (env : Env) (thread : nat) (s : State) (o : Op)
  : result State :=
  match o with
  | OpFire from sc sp chs => Ok (fire_new from sc (new_event sp) chs s)
  | OpFlush => _flush env thread s
  | OpTick timeout => tick env thread timeout s
  end.



(** ** What [addHandler] registers *)

(** Whether [addHandler] puts [method] where [getHandlers] looks when it is
    asked for the event [name] on [channel]: an unnamed handler is in
    [_globals] or in the ["*"] bucket, a named one in the buckets of its
    names. *)
Definition registered_for (method : Handler) (name : string)
    (channel : Channel) : bool :=
  (bool_decide (h_names method = [])
   || bool_decide (name ∈ h_names method)
   || bool_decide ("*" ∈ h_names method))
  && channel_matches channel method.

(** The bucket of [name] once [method] has been removed from it; [None]
    when nothing is left and the bucket is deleted. *)
Definition bucket_without (method : Handler) (self : Manager) (name : string)
  : option (gset Handler) :=
  let b := default ∅ (_handlers self !! name) ∖ {[method]} in
  if decide (b = ∅) then None else Some b.

(** ** Steps of the manager's own code *)

(** The registry, the cache and the attributes that steer [fire], [_flush]
    and [tick]. *)
Definition control (s : State) :=
  (tree s, _cache s, _ticks s, _running s, _executing_thread s,
   _currently_handling s, _generate_event s).

(** A step that only creates events and appends entries for them to the
    queue; the events that exist keep their class. *)
Definition appends (s s' : State) : Prop :=
  (length (events s) ≤ length (events s'))%nat
  ∧ (∀ e, (e < length (events s))%nat → e_kind (ev s' e) = e_kind (ev s e))
  ∧ ∃ qs, _queue s' = _queue s ++ qs
      ∧ ∀ x, x ∈ qs → (length (events s) ≤ x.1 < length (events s'))%nat.

(** The code a dispatch or a task runs between the bookkeeping of
    [_dispatcher], [_flush] and [tick]. *)
Definition extends (s s' : State) : Prop :=
  control s' = control s ∧ appends s s'.

(** The cache holds, for string channels, what [_dispatcher] would
    compute from the registry. *)
Definition cache_coherent (s : State) : Prop :=
  ∀ name (cs : list string) l,
    _cache s !! (name, KName <$> cs) = Some l →
    l = sorted_desc (resolve (tree s) name (ChanName <$> cs)).

(** ** Changing the registry between events *)

Definition set_tree (m : Manager) (s : State) : State :=
  mkState m (_cache s) (_queue s) (_tasks s) (_ticks s) (events s) (gens s)
          (_running s) (_executing_thread s) (_currently_handling s)
          (_generate_event s) (calls s).

(** What the program around the manager does with it: one of the
    operations of [Op], or a call of [addHandler] or [removeHandler] on
    the root manager; both work on the registry and on [self.root._cache]. *)
Inductive Action :=
| ActOp (o : Op)
| ActAddHandler (f : Handler)
| ActRemoveHandler (f : Handler) (event : option string).

Definition run_action (env : Env) (thread : nat) (s : State) (a : Action)
  : result State :=
  match a with
  | ActOp o => run_op env thread s o
  | ActAddHandler f =>
      let '(m, c) := addHandler (tree s) (_cache s) f in
      Ok (set_cache c (set_tree m s))
  | ActRemoveHandler f event =>
      match removeHandler (tree s) (_cache s) f event with
      | Ok (m, c) => Ok (set_cache c (set_tree m s))
      | Raised e (m, c) => Raised e (set_cache c (set_tree m s))
      end
  end.

Fixpoint run_actions (env : Env) (thread : nat) (s : State)
    (acts : list Action) : result State :=
  match acts with
  | [] => Ok s
  | a :: acts =>
      match run_action env thread s a with
      | Raised e s => Raised e s
      | Ok s => run_actions env thread s acts
      end
  end.

(** A step outside a dispatch gives no event a [cause]: nothing is being
    handled before or after it, and an event without a [cause] has none
    afterwards. *)
Definition no_new_cause (s s' : State) : Prop :=
  _currently_handling s = None →
  _currently_handling s' = None
  ∧ ∀ e, e_tracking (ev s e) = None → e_tracking (ev s' e) = None.

(** ** Signals *)



(** ** The value of an event *)

(** What a call of a handler leaves in [event.value.value], if anything: a
    returned value other than [None], or the error triple of a captured
    exception. *)
Definition call_value (c : Call) : option value :=
  match c_result c with
  | CValue v => if is_not_None v then Some v else None
  | CGenerator => None
  | CRaised e => if is_fatal e then None else Some (exc_info e)
  end.

(** ** What a dispatch puts into the queue *)

(** Whether a call ended with an exception. *)
Definition call_raised (c : Call) : bool :=
  match c_result c with CRaised _ => true | _ => false end.

(** The classes of the events that the handler loop creates for [event]:
    what the handlers fire, [Failure] and [Error]. *)
Definition round_kind (event : nat) (k : EventKind) : Prop :=
  k = KPlain ∨ k = KFailure event ∨ ∃ h, k = KError (Some h).

(** The attributes of an event that [_eventDone] reads. *)
Definition flags (x : Event) :=
  (e_alert_done x, e_success x, e_channels x, e_success_channels x).

(** A step of the handler loop for [event]. *)
Definition round_step (event : nat) (s s' : State) : Prop :=
  extends s s'
  ∧ (∀ e, (length (events s) ≤ e < length (events s'))%nat →
          round_kind event (e_kind (ev s' e)))
  ∧ (∀ e, (e < length (events s))%nat → flags (ev s' e) = flags (ev s e)).

(** ** Example objects *)

Definition ex_manager : Manager := mkManager 0 None ∅ ∅ ∅ [].

(** An unnamed handler on channel ["*"], one on channel ["app"], and two
    handlers named for the event ["foo"]. *)
Definition ex_global : Handler :=
  mkHandler 1 None "on_any" [] (Some "*") 0 false false.

Definition ex_unnamed : Handler :=
  mkHandler 2 None "on_app" [] (Some "app") 0 false false.

Definition ex_foo : Handler :=
  mkHandler 3 None "on_foo" ["foo"] None 0 false false.

Definition ex_foo2 : Handler :=
  mkHandler 4 None "on_foo2" ["foo"] None 0 false false.

(** A manager on which [ex_foo2] is registered already. *)
Definition ex_manager_foo2 : Manager := (addHandler ex_manager ∅ ex_foo2).1.

(** A root manager with one handler for ["hello"] of its own and a child
    component on channel ["app"] with another one. *)
Definition ex_hello_root : Handler :=
  mkHandler 5 None "log_hello" ["hello"] None 0 false false.

Definition ex_hello_app : Handler :=
  mkHandler 6 None "hello" ["hello"] None 0 false false.

Definition ex_app : Manager :=
  (addHandler (mkManager 1 (Some "app") ∅ ∅ ∅ []) ∅ ex_hello_app).1.

Definition ex_root : Manager :=
  (addHandler (mkManager 0 None ∅ ∅ ∅ [ex_app]) ∅ ex_hello_root).1.

(** Handlers and events of the scenarios: two handlers for ["ping"], a
    filter of priority 10 that returns [True] and one of priority 1; two
    handlers for ["op"], of which the first raises; a filter for ["check"]
    that raises, followed by another handler. *)
Definition ex_ping_filter : Handler :=
  mkHandler 10 None "ping_filter" ["ping"] None 10 true false.

Definition ex_ping_low : Handler :=
  mkHandler 11 None "ping_low" ["ping"] None 1 false false.

Definition ex_op_a : Handler :=
  mkHandler 12 None "op_a" ["op"] None 5 false false.

Definition ex_op_b : Handler :=
  mkHandler 13 None "op_b" ["op"] None 0 false false.

Definition ex_check_filter : Handler :=
  mkHandler 14 None "check_filter" ["check"] None 3 true false.

Definition ex_check_low : Handler :=
  mkHandler 15 None "check_low" ["check"] None 0 false false.

Definition ex_on_generate : Handler :=
  mkHandler 16 None "on_generate" ["generate_events"] None 0 false false.

Definition ex_boom : exn := OtherError "ValueError" "boom" [].

Definition ex_env : Env :=
  mkEnv (λ _ h _,
           match h_func h with
           | 10%nat => PReturn (VBool true)
           | 11%nat => PReturn (VStr "unreached")
           | 12%nat => PRaise ex_boom
           | 13%nat => PReturn (VStr "ok")
           | 14%nat => PRaise ex_boom
           | _ => PReturn VNone
           end)
        (λ _ _, PReturn VNone).

Definition ex_registry : Manager :=
  foldl (λ m h, (addHandler m ∅ h).1) ex_manager
        [ex_foo; ex_foo2; ex_ping_filter; ex_ping_low; ex_op_a; ex_op_b;
         ex_check_filter; ex_check_low; ex_on_generate].

Definition ex_spec (n : string) (failure : bool) : EventSpec :=
  mkSpec n [] false failure false false None None [].

(** The state after [fire(X())] on the idle manager: the event is object 0. *)
Definition ex_fired (n : string) (failure : bool) : State :=
  fire_new 0 None (new_event (ex_spec n failure)) []
    (mkState ex_registry ∅ [] [] [] [] [] false None None None []).

(** A running manager right after [tick] has fired its [GenerateEvents]
    token (object 0) and before the queue is flushed. *)
Definition ex_running : State :=
  fire_new 0 None
    (set_time_left 0 (core_event KGenerateEvents "generate_events" []))
    [ChanName "*"]
    (mkState ex_registry ∅ [] [] [] [] [] true (Some 0%nat) None None []).

(** A completion tree: the handler of ["root"] fires ["child1"] and
    ["child2"], the handler of both fires ["grandchild"]. *)
Definition ex_on_root : Handler :=
  mkHandler 20 None "on_root" ["root"] None 0 false false.

Definition ex_on_child : Handler :=
  mkHandler 21 None "on_child" ["child1"; "child2"] None 0 false false.

Definition ex_on_grandchild : Handler :=
  mkHandler 22 None "on_grandchild" ["grandchild"] None 0 false false.

Definition ex_tree_env : Env :=
  mkEnv (λ _ h _,
           match h_func h with
           | 20%nat =>
               PFire None (ex_spec "child1" false) []
                 (PFire None (ex_spec "child2" false) [] (PReturn VNone))
           | 21%nat => PFire None (ex_spec "grandchild" false) [] (PReturn VNone)
           | _ => PReturn VNone
           end)
        (λ _ _, PReturn VNone).

Definition ex_tree_registry : Manager :=
  foldl (λ m h, (addHandler m ∅ h).1) ex_manager
        [ex_on_root; ex_on_child; ex_on_grandchild].

(** The state after [fire(Root())], where [Root.complete = True], on the
    idle manager. *)
Definition ex_tree_fired : State :=
  fire_new 0 None
    (new_event (mkSpec "root" [] false false true false None None [])) []
    (mkState ex_tree_registry ∅ [] [] [] [] [] false None None None []).




(** A handler of ["work"] that is a generator function: its body yields
    a value, fires ["ping"] when it is resumed, and ends. *)
Definition ex_on_work : Handler :=
  mkHandler 24 None "on_work" ["work"] None 0 false false.

Definition ex_work_env : Env :=
  mkEnv (λ _ h _,
           match h_func h with
           | 24%nat =>
               PReturnGen
                 (GYield (YValue (VInt 7))
                    (GFire None (ex_spec "ping" false) [] GStop))
           | _ => PReturn VNone
           end)
        (λ _ _, PReturn VNone).

(** The state after [fire(Work())]. *)
Definition ex_work_fired : State :=
  fire_new 0 None (new_event (ex_spec "work" false)) []
    (mkState (addHandler ex_manager ∅ ex_on_work).1 ∅ [] [] [] [] [] false
             None None None []).


(** A handler of ["both"] on channel ["*"], and the state after
    [fire(Both(), "a", "b")]. *)
Definition ex_on_both : Handler :=
  mkHandler 30 None "on_both" ["both"] (Some "*") 0 false false.

Definition ex_both_fired : State :=
  fire_new 0 None (new_event (ex_spec "both" false))
    [ChanName "a"; ChanName "b"]
    (mkState (addHandler ex_manager ∅ ex_on_both).1 ∅ [] [] [] [] [] false
             None None None []).

(** A handler for the events ["a"] and ["b"], and a manager on which it
    is left in the bucket of ["a"] only. *)
Definition ex_ab : Handler :=
  mkHandler 31 None "on_ab" ["a"; "b"] None 0 false false.

Definition ex_manager_ab : Manager :=
  (result_state
     (removeHandler (addHandler ex_manager ∅ ex_ab).1 ∅ ex_ab (Some "b"))).1.

Definition ex_cache_ab : Cache :=
  {[ ("a", [KName "*"]) := [bind_method ex_manager ex_ab] ]}.

(** An event ["mixed"] with [success = True] and two handlers: the first
    raises, the second is a generator function whose body is empty. *)
Definition ex_mixed_raise : Handler :=
  mkHandler 40 None "mixed_raise" ["mixed"] None 1 false false.

Definition ex_mixed_gen : Handler :=
  mkHandler 41 None "mixed_gen" ["mixed"] None 0 false false.

Definition ex_mixed_env : Env :=
  mkEnv (λ _ h _,
           match h_func h with
           | 40%nat => PRaise ex_boom
           | 41%nat => PReturnGen GStop
           | _ => PReturn VNone
           end)
        (λ _ _, PReturn VNone).

(** The state after [fire(Mixed())] and one [flush]: both handlers have
    been called and the generator waits as a task. *)
Definition ex_mixed_flushed : State :=
  result_state
    (_flush ex_mixed_env 0
       (fire_new 0 None
          (new_event (mkSpec "mixed" [] true false false false None None []))
          []
          (mkState (foldl (λ m h, (addHandler m ∅ h).1) ex_manager
                          [ex_mixed_raise; ex_mixed_gen])
                   ∅ [] [] [] [] [] false None None None []))).

(** A handler of ["ask"] that returns, instead of yielding it, a generator
    that ends the way the generator of [callEvent] does, and the state
    after [fire(Ask())] and one [flush]. *)
Definition ex_on_ask : Handler :=
  mkHandler 42 None "on_ask" ["ask"] None 0 false false.

Definition ex_ask_env : Env :=
  mkEnv (λ _ h _,
           match h_func h with
           | 42%nat => PReturnGen (GYield (YCallValue (VStr "answer")) GStop)
           | _ => PReturn VNone
           end)
        (λ _ _, PReturn VNone).

Definition ex_ask_flushed : State :=
  result_state
    (_flush ex_ask_env 0
       (fire_new 0 None (new_event (ex_spec "ask" false)) []
          (mkState (addHandler ex_manager ∅ ex_on_ask).1
                   ∅ [] [] [] [] [] false None None None []))).

(** A handler of ["halt"] that raises [KeyboardInterrupt], and the state
    after [fire(Halt())] and [fire(Ping())]. *)
Definition ex_on_halt : Handler :=
  mkHandler 43 None "on_halt" ["halt"] None 0 false false.



(** The manager of [ex_fired] is driven on: the queue is flushed, a
    handler is added and one removed, and ["foo"] is fired and flushed
    again. *)
Definition ex_actions : list Action :=
  [ActOp OpFlush; ActAddHandler ex_on_halt; ActRemoveHandler ex_foo2 None;
   ActOp (OpFire 0 None (ex_spec "foo" false) []); ActOp OpFlush].

(** The manager of [ex_work_fired] after a flush and one tick's worth of
    tasks: the generator of [ex_on_work] is suspended at its [yield]. *)
Definition ex_work_suspended : State :=
  let s := result_state (_flush ex_work_env 0 ex_work_fired) in
  run_tasks 0 s (_tasks s).



(** The state after [fire(Root())], where [Root.success = True], on the
    manager of [ex_tree_fired]. *)
Definition ex_root_success : State :=
  fire_new 0 None
    (new_event (mkSpec "root" [] true false false false None None [])) []
    (mkState ex_tree_registry ∅ [] [] [] [] [] false None None None []).

(** * Properties *)

(** ** The handler registry *)

Section registry_facts.
Context (method : Handler).

Lemma foldl_bucket_add self ns :
  foldl (bucket_add method) self ns =
  set_handlers self (add_names method (_handlers self) ns).
Proof.
  revert self. induction ns as [|n ns IH]; intros self; simpl.
  - by destruct self.
  - rewrite IH. by destruct self.
Qed.

Lemma add_names_lookup H ns k :
  NoDup ns →
  add_names method H ns !! k =
  if decide (k ∈ ns) then Some (default ∅ (H !! k) ∪ {[method]}) else H !! k.
Proof.
  revert H. induction ns as [|n ns IH]; intros H Hnd; simpl.
  - done.
  - apply NoDup_cons in Hnd as [Hn Hnd]. rewrite IH by done.
    destruct (decide (k = n)) as [->|Hne].
    + rewrite lookup_insert_eq.
      destruct (decide (n ∈ ns)); [done|].
      destruct (decide (n ∈ n :: ns)) as [_|Hn']; [done|].
      exfalso. apply Hn'. left.
    + rewrite lookup_insert_ne by done.
      destruct (decide (k ∈ ns)) as [Hk|Hk];
        destruct (decide (k ∈ n :: ns)) as [Hk'|Hk']; try done.
      * exfalso. apply Hk'. by right.
      * exfalso. apply elem_of_cons in Hk' as [?|?]; done.
Qed.
End registry_facts.

Section roundtrip.
Context (method : Handler) (H0 : gmap string (gset Handler)).
Hypothesis no_empty : ∀ n b, H0 !! n = Some b → b ≠ ∅.

Lemma add_names_drop n ns H' :
  NoDup (n :: ns) →
  (∀ k, k ≠ n → H' !! k = add_names method H0 (n :: ns) !! k) →
  H' !! n = H0 !! n →
  H' = add_names method H0 ns.
Proof.
  intros Hnd Hother Hn. apply map_eq. intros k.
  pose proof (NoDup_cons_1_1 _ _ Hnd) as Hnotin.
  pose proof (NoDup_cons_1_2 _ _ Hnd) as Hnd'.
  destruct (decide (k = n)) as [->|Hne].
  - rewrite Hn, add_names_lookup by done.
    by destruct (decide (n ∈ ns)).
  - rewrite Hother by done. rewrite !add_names_lookup by done.
    destruct (decide (k ∈ n :: ns)) as [Hk|Hk];
      destruct (decide (k ∈ ns)) as [Hk'|Hk']; try done.
    + apply elem_of_cons in Hk as [?|?]; done.
    + exfalso. apply Hk. by right.
Qed.

Lemma remove_loop_add_names ns :
  NoDup ns →
  (∀ n b, n ∈ ns → H0 !! n = Some b → method ∉ b) →
  ∀ self, _handlers self = add_names method H0 ns →
  remove_loop method self ns =
  Ok (set_attrs (set_handlers self H0)
        (if bool_decide (Exists (λ n, H0 !! n = None) ns)
         then delete (h_name method) (attrs self) else attrs self)).
Proof.
  induction ns as [|n ns IH]; intros Hnd Hfresh self Hself;
    cbn [remove_loop].
  - rewrite bool_decide_eq_false_2 by (by intros ?%Exists_nil).
    simpl in Hself. rewrite <- Hself. by destruct self.
  - pose proof (NoDup_cons_1_1 _ _ Hnd) as Hnotin.
    pose proof (NoDup_cons_1_2 _ _ Hnd) as Hnd'.
    unfold remove_from_bucket.
    rewrite Hself, add_names_lookup by done.
    rewrite decide_True by left.
    rewrite decide_True by (apply elem_of_union_r; by apply elem_of_singleton).
    assert (Hb : (default ∅ (H0 !! n) ∪ {[method]}) ∖ {[method]}
                 = default ∅ (H0 !! n)).
    { destruct (H0 !! n) as [b|] eqn:Hn; simpl.
      - pose proof (Hfresh n b ltac:(left) Hn) as Hm.
        apply set_eq. intros x.
        rewrite elem_of_difference, elem_of_union, elem_of_singleton.
        split; [by intros [[?|?] ?] | intros Hx; split; [by left|]].
        by intros ->.
      - apply set_eq. intros x.
        rewrite elem_of_difference, elem_of_union, elem_of_singleton.
        split; [by intros [[?%not_elem_of_empty|?] ?] | by intros ?%not_elem_of_empty]. }
    rewrite Hb.
    assert (Hfresh' : ∀ n b, n ∈ ns → H0 !! n = Some b → method ∉ b).
    { intros n' b' Hin. apply Hfresh. by right. }
    destruct (H0 !! n) as [b|] eqn:Hn; unfold default, from_option, id.
    + rewrite decide_False by eauto.
      rewrite (IH Hnd' Hfresh').
      * f_equal. destruct self; unfold set_attrs, set_handlers; simpl.
        f_equal.
        rewrite (bool_decide_ext _ (Exists (λ n, H0 !! n = None) (n :: ns)));
          [done|].
        rewrite Exists_cons.
        split; [by right | intros [?|?]; [congruence | done]].
      * simpl. apply (add_names_drop n ns _ Hnd).
        -- intros k Hk. by rewrite lookup_insert_ne.
        -- by rewrite lookup_insert_eq.
    + rewrite decide_True by done.
      rewrite (IH Hnd' Hfresh').
      * f_equal. destruct self; unfold set_attrs, set_handlers; simpl.
        rewrite (bool_decide_eq_true_2 (Exists _ (n :: ns)))
          by (apply Exists_cons; by left).
        f_equal. case_bool_decide; [by rewrite delete_delete_eq | done].
      * simpl. apply (add_names_drop n ns _ Hnd).
        -- intros k Hk. by rewrite lookup_delete_ne.
        -- by rewrite lookup_delete_eq.
Qed.
End roundtrip.

Lemma bind_method_set_attrs self a f :
  bind_method (set_attrs self a) f = bind_method self f.
Proof. done. Qed.

Lemma bind_method_set_handlers self H f :
  bind_method (set_handlers self H) f = bind_method self f.
Proof. done. Qed.

Lemma bind_method_idem self f :
  bind_method self (bind_method self f) = bind_method self f.
Proof. unfold bind_method. by destruct (isfunction f) eqn:E; [|rewrite E]. Qed.

(** C6, amended: for a named handler that is not yet in its buckets, on a
    manager without empty buckets, [addHandler] followed by [removeHandler]
    does not raise and gives back [_globals] and [_handlers], bucket keys
    included, and an empty cache. The attribute [addHandler] stored under the
    handler's [__name__] is deleted again when one of the handler's buckets
    did not exist before, and stays bound to the handler otherwise. *)
Theorem addHandler_removeHandler_named (self : Manager) (cache : Cache)
    (f : Handler) :
  h_names f ≠ [] →
  NoDup (h_names f) →
  (∀ n b, _handlers self !! n = Some b → b ≠ ∅) →
  (∀ n b, n ∈ h_names f → _handlers self !! n = Some b →
          bind_method self f ∉ b) →
  removeHandler (addHandler self cache f).1 (addHandler self cache f).2 f None
  = Ok (set_attrs self
          (if bool_decide (Exists (λ n, _handlers self !! n = None) (h_names f))
           then delete (h_name f) (attrs self)
           else <[h_name f := bind_method self f]> (attrs self)), ∅).
Proof.
  intros Hnames Hnd Hne Hfresh.
  assert (Hn : h_names (bind_method self f) = h_names f).
  { unfold bind_method. by destruct (isfunction f). }
  assert (Hnm : h_name (bind_method self f) = h_name f).
  { unfold bind_method. by destruct (isfunction f). }
  unfold addHandler, removeHandler. cbn [fst snd].
  rewrite Hn, Hnm.
  destruct (h_names f) as [|n ns] eqn:Hf; [done|].
  rewrite foldl_bucket_add.
  rewrite bind_method_set_handlers, bind_method_set_attrs, Hn.
  rewrite (remove_loop_add_names (bind_method self f) (_handlers self) Hne
             (n :: ns) Hnd Hfresh) by done.
  rewrite Hnm. f_equal. f_equal.
  destruct self; unfold set_attrs, set_handlers; cbn.
  f_equal. case_bool_decide; [|done].
  by rewrite delete_insert_eq.
Qed.

(** C6, the claim as stated fails: an unnamed handler on channel ["*"]
    stays in [_globals], an unnamed handler on another channel stays in the
    ["*"] bucket, and the attribute of a named handler stays when its bucket
    does not become empty. *)
Lemma addHandler_removeHandler_not_inverse :
  (∃ m, removeHandler (addHandler ex_manager ∅ ex_global).1 ∅ ex_global None
        = Ok (m, ∅) ∧ _globals m ≠ _globals ex_manager)
  ∧ (∃ m, removeHandler (addHandler ex_manager ∅ ex_unnamed).1 ∅ ex_unnamed None
          = Ok (m, ∅) ∧ _handlers m ≠ _handlers ex_manager)
  ∧ (∃ m, removeHandler (addHandler ex_manager_foo2 ∅ ex_foo).1 ∅ ex_foo None
          = Ok (m, ∅) ∧ attrs m ≠ attrs ex_manager_foo2).
Proof.
  split; [|split].
  - eexists. split; [reflexivity|]. simpl.
    intros Heq. apply (not_elem_of_empty (C := gset Handler)
                         (bind_method ex_manager ex_global)).
    rewrite <- Heq. set_solver.
  - eexists. split; [reflexivity|]. simpl.
    intros Heq. apply (f_equal (λ H, H !! "*")) in Heq.
    by rewrite lookup_insert_eq in Heq.
  - eexists. split; [reflexivity|].
    intros Heq. apply (f_equal (λ a, a !! "on_foo")) in Heq.
    vm_compute in Heq. done.
Qed.

(** C6, amended, at an example: [ex_foo] on the empty manager. *)
Lemma addHandler_removeHandler_named_witness :
  removeHandler (addHandler ex_manager ∅ ex_foo).1
                (addHandler ex_manager ∅ ex_foo).2 ex_foo None
  = Ok (ex_manager, ∅).
Proof.
  rewrite (addHandler_removeHandler_named ex_manager ∅ ex_foo).
  - reflexivity.
  - done.
  - apply NoDup_singleton.
  - intros n b H. simpl in H. by rewrite lookup_empty in H.
  - intros n b _ H. simpl in H. by rewrite lookup_empty in H.
Defined.

(** C9, amended: [removeHandler(f, event)] for a handler that is not in
    the bucket of [event] (the bucket is missing, or does not hold the
    handler) raises [KeyError]; the registry is unchanged and the cache is
    not cleared. *)
Theorem removeHandler_unregistered_raises (self : Manager) (cache : Cache)
    (f : Handler) (n : string) :
  (_handlers self !! n = None
   ∨ ∃ b, _handlers self !! n = Some b ∧ bind_method self f ∉ b) →
  removeHandler self cache f (Some n) = Raised KeyError (self, cache).
Proof.
  intros Hreg. unfold removeHandler. cbn [remove_loop].
  unfold remove_from_bucket.
  destruct Hreg as [-> | (b & -> & Hb)]; [done|].
  by rewrite decide_False.
Qed.

(** C9, the claim as stated fails: removing [ex_foo] from the bucket
    ["foo"] raises on the empty manager, where the bucket is missing, and on
    a manager whose bucket holds another handler only. *)
Lemma removeHandler_unregistered_not_silent :
  (_handlers ex_manager !! "foo" = None
   ∧ raised (removeHandler ex_manager ∅ ex_foo (Some "foo")) = Some KeyError)
  ∧ ((bind_method ex_manager_foo2 ex_foo
        ∉ default ∅ (_handlers ex_manager_foo2 !! "foo"))
     ∧ raised (removeHandler ex_manager_foo2 ∅ ex_foo (Some "foo"))
       = Some KeyError).
Proof.
  split; split.
  - done.
  - reflexivity.
  - simpl. rewrite lookup_insert_eq. simpl.
    rewrite elem_of_union, elem_of_singleton.
    intros [?%not_elem_of_empty | ?]; [done | discriminate].
  - reflexivity.
Qed.

(** C9, amended, at an example: the bucket ["foo"] is missing. *)
Lemma removeHandler_unregistered_raises_witness :
  removeHandler ex_manager ∅ ex_foo (Some "foo")
  = Raised KeyError (ex_manager, ∅).
Proof.
  apply (removeHandler_unregistered_raises ex_manager ∅ ex_foo "foo").
  left. reflexivity.
Defined.

(** ** Handler resolution *)

(** Induction over a manager tree, with the property known for all
    components. *)
Lemma Manager_tree_ind (P : Manager → Prop) :
  (∀ i c g h a cs, Forall P cs → P (mkManager i c g h a cs)) →
  ∀ m, P m.
Proof.
  intros step. fix IH 1. intros [i c g h a cs]. apply step.
  induction cs as [|m cs IHcs]; constructor; [apply IH | apply IHcs].
Qed.

Lemma elem_of_own_handlers self name channel h :
  h ∈ own_handlers self name channel ↔
  (channel_matches channel h = true
   ∧ (h ∈ default ∅ (_handlers self !! "*")
      ∨ h ∈ default ∅ (_handlers self !! name)))
  ∨ h ∈ _globals self.
Proof.
  unfold own_handlers.
  rewrite elem_of_union, elem_of_list_to_set, list_elem_of_In, filter_In,
    <- list_elem_of_In, elem_of_app, elem_of_elements.
  destruct (_handlers self !! name) as [b|]; simpl.
  - rewrite elem_of_elements. tauto.
  - rewrite elem_of_nil. split.
    + intros [[[?|[]] ?]|?]; auto.
    + intros [[? [?|?%not_elem_of_empty]]|?]; [auto | done | auto].
Qed.

Lemma getHandlers_name self name c :
  getHandlers self name (ChanName c) =
  own_handlers self name (ChanName c)
  ∪ ⋃ (List.map (λ m, getHandlers m name (ChanName c)) (components self)).
Proof. by destruct self. Qed.

Lemma managers_unfold self :
  managers self = self :: List.flat_map managers (components self).
Proof. by destruct self. Qed.

(** For a channel that is not an instance, [getHandlers] collects the
    handlers of the whole tree below [self]. *)
Lemma elem_of_getHandlers_name self name c h :
  h ∈ getHandlers self name (ChanName c) ↔
  ∃ m, m ∈ managers self ∧ h ∈ own_handlers m name (ChanName c).
Proof.
  induction self as [i ch g hs a cs IH] using Manager_tree_ind.
  rewrite getHandlers_name, managers_unfold, elem_of_union, elem_of_union_list.
  cbn [components]. split.
  - intros [Hown | (X & HX & Hh)].
    + eexists. split; [left | done].
    + apply list_elem_of_In, in_map_iff in HX as (m & <- & Hm).
      rewrite Forall_forall in IH. apply list_elem_of_In in Hm.
      apply (IH m Hm) in Hh as (m' & Hm' & Hh).
      exists m'. split; [|done]. right.
      apply list_elem_of_In, in_flat_map. exists m.
      split; by apply list_elem_of_In.
  - intros (m & Hm & Hh). apply elem_of_cons in Hm as [-> | Hm]; [by left|].
    right. apply list_elem_of_In, in_flat_map in Hm as (m' & Hm' & Hm).
    exists (getHandlers m' name (ChanName c)). split.
    + apply list_elem_of_In, in_map_iff. by exists m'.
    + rewrite Forall_forall in IH. apply list_elem_of_In in Hm'.
      apply (IH m' Hm'). exists m. split; [by apply list_elem_of_In | done].
Qed.

(** C8, amended: for the wildcard and for a plain string, [getHandlers]
    unites the manager's own matching handlers and its globals with the
    results of its components for the same pair, and so collects the whole
    tree; for a manager instance it returns the handlers of the ["*"] bucket
    and of the bucket of the event's name and the globals of the target
    alone (of [self] when [self] is the target), whatever their channel, and
    visits no component. *)
Theorem getHandlers_by_channel (self : Manager) (name : string) :
  (∀ c : string,
     getHandlers self name (ChanName c) =
     own_handlers self name (ChanName c)
     ∪ ⋃ (List.map (λ m, getHandlers m name (ChanName c)) (components self))
     ∧ ∀ h, h ∈ getHandlers self name (ChanName c) ↔
            ∃ m, m ∈ managers self ∧ h ∈ own_handlers m name (ChanName c))
  ∧ (∀ target : Manager,
       let m := if bool_decide (m_id target ≠ m_id self) then target else self in
       getHandlers self name (ChanManager target) =
       own_handlers m name (ChanManager target)
       ∧ ∀ h, h ∈ getHandlers self name (ChanManager target) ↔
              h ∈ default ∅ (_handlers m !! "*")
              ∨ h ∈ default ∅ (_handlers m !! name)
              ∨ h ∈ _globals m).
Proof.
  split.
  - intros c. split; [apply getHandlers_name|].
    intros h. apply elem_of_getHandlers_name.
  - intros target m.
    assert (Heq : getHandlers self name (ChanManager target) =
                  own_handlers m name (ChanManager target)).
    { subst m. destruct self. simpl. by case_bool_decide. }
    split; [done|]. intros h.
    rewrite Heq, elem_of_own_handlers. simpl. tauto.
Qed.

(** C8, the claim as stated fails: asked for the handlers of ["hello"] with
    the component [ex_app] as the channel, [ex_root] leaves out its own
    matching handler. *)
Lemma getHandlers_instance_no_union :
  bind_method ex_root ex_hello_root
    ∈ own_handlers ex_root "hello" (ChanManager ex_app)
  ∧ (bind_method ex_root ex_hello_root
     ∉ getHandlers ex_root "hello" (ChanManager ex_app))
  ∧ (getHandlers ex_root "hello" (ChanManager ex_app) ≠
     own_handlers ex_root "hello" (ChanManager ex_app)
     ∪ ⋃ (List.map (λ m, getHandlers m "hello" (ChanManager ex_app))
                   (components ex_root))).
Proof.
  assert (Hin : bind_method ex_root ex_hello_root
                ∈ own_handlers ex_root "hello" (ChanManager ex_app)).
  { apply elem_of_own_handlers. left. split; [done|]. right.
    simpl. rewrite lookup_insert_eq. simpl. set_solver. }
  assert (Hout : bind_method ex_root ex_hello_root
                 ∉ getHandlers ex_root "hello" (ChanManager ex_app)).
  { change (getHandlers ex_root "hello" (ChanManager ex_app))
      with (own_handlers ex_app "hello" (ChanManager ex_app)).
    rewrite elem_of_own_handlers. simpl.
    rewrite lookup_insert_eq, lookup_insert_ne by done. rewrite lookup_empty.
    simpl. rewrite elem_of_union, elem_of_singleton.
    intros [[_ [?%not_elem_of_empty|[?%not_elem_of_empty|?]]]
           |?%not_elem_of_empty]; try done. }
  split; [done|]. split; [done|].
  intros Heq. apply Hout. rewrite Heq. apply elem_of_union. by left.
Qed.

(** ** The call record *)

Lemma calls__fire thread s event channel :
  calls (_fire thread s event channel) = calls s.
Proof. unfold _fire. by repeat case_match. Qed.

Lemma calls_fire_new thread sc x chs s :
  calls (fire_new thread sc x chs s) = calls s.
Proof. unfold fire_new, fireEvent, alloc_event. by rewrite calls__fire. Qed.

Lemma calls_run_program thread p s :
  calls (run_program thread s p).1 = calls s.
Proof.
  revert s. induction p as [| | |sc sp chs k IH]; intros s; simpl; try done.
  by rewrite IH, calls_fire_new.
Qed.

Lemma calls_registerTask g s : calls (registerTask g s) = calls s.
Proof. unfold registerTask. by case_match. Qed.

Lemma calls_after_call s event handler v :
  calls (after_call s event handler v).1 = calls s.
Proof.
  unfold after_call. destruct v as [v|g]; simpl.
  - by destruct (is_not_None v).
  - by rewrite calls_registerTask.
Qed.

Lemma calls_eventDone_chain fuel thread s event :
  calls (eventDone_chain fuel thread s event) = calls s.
Proof.
  revert s event. induction fuel as [|fuel IH]; intros s event; simpl; [done|].
  destruct (e_tracking (ev s event)) as [[c n]|]; [|done].
  case_bool_decide; [done|]. rewrite IH. simpl.
  case_match; [by rewrite calls_fire_new | done].
Qed.

Lemma calls__eventDone thread s event error :
  calls (_eventDone thread s event error) = calls s.
Proof.
  unfold _eventDone. case_match; [done|].
  rewrite calls_eventDone_chain.
  repeat case_match; by rewrite ?calls_fire_new.
Qed.

Lemma calls_lookup_handlers s event channels :
  calls (lookup_handlers s event channels).1 = calls s.
Proof. unfold lookup_handlers. by case_match. Qed.

(** One round of the handler loop adds one call to the record; the loop
    goes on exactly when [ends_loop] is false for it. *)
Lemma dispatch_one_calls env thread s event handler error :
  let c := call_of env thread s event handler in
  match dispatch_one env thread s event handler error with
  | Raised e (s', _, _) =>
      calls s' = calls s ++ [c] ∧ ends_loop c = true
      ∧ c_result c = CRaised e ∧ is_fatal e = true
  | Ok (s', _, brk) =>
      calls s' = calls s ++ [c] ∧ brk = ends_loop c
      ∧ ∀ e, c_result c = CRaised e → is_fatal e = false
  end.
Proof.
  unfold dispatch_one, call_of.
  set (s0 := upd_event (set_handler (Some handler)) event s).
  destruct (run_program thread s0 (code env s0 handler event))
    as [s1 out] eqn:Hrun.
  assert (Hc : calls s1 = calls s).
  { change s1 with (s1, out).1. by rewrite <- Hrun, calls_run_program. }
  cbn [snd].
  destruct out as [v|g|e]; cbn [call_result].
  - destruct (after_call _ event handler (inl v)) as [s2 brk] eqn:Ha.
    assert (calls s2 = calls s ++ [mkCall event handler (CValue v)]) as ->.
    { change s2 with (s2, brk).1. rewrite <- Ha, calls_after_call.
      simpl. by rewrite Hc. }
    split; [done|]. split; [|done].
    unfold after_call in Ha. by inversion Ha.
  - destruct (after_call _ event handler (inr g)) as [s2 brk] eqn:Ha.
    assert (calls s2 = calls s ++ [mkCall event handler CGenerator]) as ->.
    { change s2 with (s2, brk).1. rewrite <- Ha, calls_after_call.
      simpl. by rewrite Hc. }
    split; [done|]. split; [|done].
    unfold after_call in Ha. simpl in Ha.
    by inversion Ha.
  - destruct (is_fatal e) eqn:Hfatal.
    + simpl. rewrite Hc. unfold ends_loop. simpl. by rewrite Hfatal.
    + destruct (after_call _ event handler (inl (exc_info e)))
        as [s2 brk] eqn:Ha.
      assert (calls s2 = calls s ++ [mkCall event handler (CRaised e)]) as ->.
      { change s2 with (s2, brk).1. rewrite <- Ha, calls_after_call.
        rewrite calls_fire_new. case_match; rewrite ?calls_fire_new; simpl;
          by rewrite Hc. }
      split; [done|]. split; [|by intros ? [= <-]].
      unfold after_call in Ha. inversion Ha.
      unfold ends_loop. simpl. rewrite Hfatal. by destruct e.
Qed.

(** The calls of the handler loop follow the handler list, and only the
    last one can be a call that ends the loop; the loop stops early only
    after such a call. *)
Lemma dispatch_loop_trace env thread event hs :
  ∀ s error,
  ∃ tr,
    calls (result_state (dispatch_loop env thread s event hs error)).1
    = calls s ++ tr
    ∧ List.map c_handler tr = take (length tr) hs
    ∧ Forall (λ c, c_event c = event) tr
    ∧ (∀ i c, tr !! i = Some c → ends_loop c = true → length tr = S i)
    ∧ ((length tr < length hs)%nat →
       ∃ c, last tr = Some c ∧ ends_loop c = true)
    ∧ (∀ e, raised (dispatch_loop env thread s event hs error) = Some e →
            is_fatal e = true)
    ∧ (Forall (λ c, ∀ e, c_result c = CRaised e → is_fatal e = false) tr →
       raised (dispatch_loop env thread s event hs error) = None).
Proof.
  induction hs as [|h hs IH]; intros s error.
  - exists []. simpl. rewrite app_nil_r.
    repeat split; try done. lia.
  - cbn [dispatch_loop].
    pose proof (dispatch_one_calls env thread s event h error) as Hone.
    set (c := call_of env thread s event h) in Hone.
    assert (Hev : c_event c = event) by done.
    assert (Hh : c_handler c = h) by done.
    clearbody c. cbv zeta in Hone.
    destruct (dispatch_one env thread s event h error)
      as [[[s' error'] brk] | e [[s' error'] brk]].
    + destruct Hone as (Hcalls & Hbrk & Hnf). destruct brk.
      * exists [c]. simpl. rewrite Hh.
        repeat split; try done.
        -- by constructor.
        -- intros [|i] c' Hi _; [done | by destruct i].
        -- intros _. by exists c.
      * destruct (IH s' error') as (tr & Htr & Hmap & Hall & Hlast & Hshort & Hr & Hok).
        exists (c :: tr). rewrite Htr, Hcalls, <- app_assoc. simpl.
        rewrite Hmap, Hh.
        repeat split; try done.
        -- by constructor.
        -- intros [|i] c' Hi He; simpl in Hi.
           ++ injection Hi as <-. congruence.
           ++ f_equal. by eapply Hlast.
        -- intros Hlt. destruct Hshort as (c' & Hc' & He); [lia|].
           exists c'. split; [|done].
           destruct tr; [done | done].
        -- intros Hall'. apply Hok. by inversion Hall'.
    + destruct Hone as (Hcalls & Hend & Hres & Hfatal).
      exists [c]. simpl. rewrite Hh.
      repeat split; try done.
      -- by constructor.
      -- intros [|i] c' Hi _; [done | by destruct i].
      -- intros _. by exists c.
      -- by intros ? [= <-].
      -- intros Hall. inversion Hall as [|?? Hc' _]; subst.
         specialize (Hc' e Hres). congruence.
Qed.

(** ** Events that exist are kept *)

Lemma untracked_alter (f : Event → Event) i (l : list Event) :
  (∀ x, untracked (f x) = untracked x) →
  untracked <$> alter f i l = untracked <$> l.
Proof.
  intros Hf. revert i.
  induction l as [|x l IH]; intros [|i]; csimpl; rewrite ?Hf, ?IH; done.
Qed.

Lemma ev_alloc x s : ev (alloc_event x s).1 (length (events s)) = x.
Proof. unfold ev, alloc_event. simpl. by rewrite list_lookup_middle. Qed.

Lemma untracked_add_effects d x : untracked (add_effects d x) = untracked x.
Proof. by destruct x. Qed.

Lemma untracked_set_tracking t x : untracked (set_tracking t x) = untracked x.
Proof. by destruct x. Qed.

Lemma untracked_reduce_time_left t x :
  untracked (reduce_time_left t x) = untracked x.
Proof. unfold reduce_time_left. case_match; by destruct x. Qed.

Lemma untracked__fire thread s event channel :
  untracked <$> events (_fire thread s event channel)
  = untracked <$> events s.
Proof.
  unfold _fire.
  destruct (bool_decide (_executing_thread s = Some thread)
            && negb (is_Signal (ev s event))).
  - destruct (_currently_handling s) as [cur|]; [|done].
    destruct (cause (ev s cur)); [|done]. simpl.
    rewrite untracked_alter by apply untracked_add_effects.
    by rewrite untracked_alter by apply untracked_set_tracking.
  - destruct (_generate_event s) as [g|]; [|done]. simpl.
    by rewrite untracked_alter by apply untracked_reduce_time_left.
Qed.

Lemma queue__fire thread s event channel :
  _queue (_fire thread s event channel) = _queue s ++ [(event, channel)].
Proof. unfold _fire. by repeat case_match. Qed.

Lemma alter_snoc {A} (f : A → A) (l : list A) x :
  alter f (length l) (l ++ [x]) = l ++ [f x].
Proof.
  replace (length l) with (length l + 0)%nat by lia.
  by rewrite alter_app_r.
Qed.

Lemma untracked_fire_new thread sc x chs s :
  untracked <$> events (fire_new thread sc x chs s)
  = (untracked <$> events s)
    ++ [untracked (set_value Value_new
                     (set_channels (fire_channels sc x chs) x))].
Proof.
  unfold fire_new, fireEvent. cbn [alloc_event].
  rewrite untracked__fire.
  pose proof (ev_alloc x s) as Hx. unfold alloc_event in Hx. simpl in Hx.
  rewrite Hx. unfold upd_event. simpl.
  rewrite !alter_snoc, fmap_app. simpl. do 3 f_equal.
Qed.

Lemma queue_fire_new thread sc x chs s :
  _queue (fire_new thread sc x chs s)
  = _queue s ++ [(length (events s), fire_channels sc x chs)].
Proof.
  unfold fire_new, fireEvent. cbn [alloc_event].
  rewrite queue__fire. simpl.
  pose proof (ev_alloc x s) as Hx. unfold alloc_event in Hx. simpl in Hx.
  by rewrite Hx.
Qed.

#[global] Instance ev_stable_refl : Reflexive ev_stable.
Proof. intros s. by unfold ev_stable. Qed.

#[global] Instance ev_stable_trans : Transitive ev_stable.
Proof. intros s1 s2 s3. unfold ev_stable. apply transitivity. Qed.

Lemma ev_stable_fire_new thread sc x chs s :
  ev_stable s (fire_new thread sc x chs s).
Proof. unfold ev_stable. rewrite untracked_fire_new. by apply prefix_app_r. Qed.

Lemma ev_stable_events s s' :
  untracked <$> events s' = untracked <$> events s → ev_stable s s'.
Proof. unfold ev_stable. by intros ->. Qed.

Lemma ev_stable_length s s' :
  ev_stable s s' → (length (events s) ≤ length (events s'))%nat.
Proof.
  intros H%prefix_length. by rewrite !length_fmap in H.
Qed.

Lemma ev_stable_lookup s s' e :
  ev_stable s s' → (e < length (events s))%nat →
  untracked (ev s' e) = untracked (ev s e).
Proof.
  intros [k Hk] He. unfold ev.
  destruct (lookup_lt_is_Some_2 (events s) e He) as [x Hx].
  assert (Hs' : (untracked <$> events s') !! e = Some (untracked x)).
  { rewrite Hk, lookup_app_l by (by rewrite length_fmap).
    by rewrite list_lookup_fmap, Hx. }
  rewrite list_lookup_fmap in Hs'. rewrite Hx.
  destruct (events s' !! e) as [y|]; simpl in *; congruence.
Qed.

Lemma ev_stable_run_program thread p s :
  ev_stable s (run_program thread s p).1.
Proof.
  revert s. induction p as [| | |sc sp chs k IH]; intros s; simpl; try done.
  etrans; [apply ev_stable_fire_new | apply IH].
Qed.

Lemma ev_stable_upd_tracking f e s :
  (∀ x, untracked (f x) = untracked x) → ev_stable s (upd_event f e s).
Proof.
  intros Hf. apply ev_stable_events. simpl. by apply untracked_alter.
Qed.

Lemma ev_stable_eventDone_chain fuel thread s event :
  ev_stable s (eventDone_chain fuel thread s event).
Proof.
  revert s event. induction fuel as [|fuel IH]; intros s event; simpl; [done|].
  destruct (e_tracking (ev s event)) as [[c n]|]; [|done].
  set (s1 := upd_event (add_effects (-1)) event s).
  assert (H1 : ev_stable s s1)
    by apply ev_stable_upd_tracking, untracked_add_effects.
  case_bool_decide; [done|].
  etrans; [|apply IH]. etrans; [apply H1|].
  etrans; [|apply ev_stable_upd_tracking, untracked_set_tracking].
  case_match; [apply ev_stable_fire_new | done].
Qed.

Lemma ev_stable__eventDone thread s event error :
  ev_stable s (_eventDone thread s event error).
Proof.
  unfold _eventDone. case_match; [done|].
  etrans; [|apply ev_stable_eventDone_chain].
  etrans; [|case_match; [apply ev_stable_fire_new | reflexivity]].
  case_match; [apply ev_stable_fire_new | reflexivity].
Qed.

(** ** The order of the handlers *)




Lemma insert_desc_perm h l : insert_desc h l ≡ₚ h :: l.
Proof.
  induction l as [|h' l IH]; simpl; [done|].
  case_match; [|done]. rewrite IH. apply Permutation_swap.
Qed.


Lemma sorted_desc_perm l : sorted_desc l ≡ₚ l.
Proof.
  induction l as [|h l IH]; simpl; [done|].
  by rewrite insert_desc_perm, IH.
Qed.




(** ** The calls of a dispatch *)

Lemma fld_upd_event {A} (fld : Event → A) f e s e' :
  (∀ x, fld (f x) = fld x) → fld (ev (upd_event f e s) e') = fld (ev s e').
Proof.
  intros Hf. unfold ev, upd_event. simpl.
  destruct (decide (e = e')) as [->|Hne].
  - rewrite list_lookup_alter_eq. by destruct (events s !! e'); simpl.
  - by rewrite list_lookup_alter_ne.
Qed.

Lemma ev_upd_event_ne f e s e' : e ≠ e' → ev (upd_event f e s) e' = ev s e'.
Proof.
  intros Hne. unfold ev, upd_event. simpl. by rewrite list_lookup_alter_ne.
Qed.

Lemma ev_upd_event_eq f e s :
  (e < length (events s))%nat → ev (upd_event f e s) e = f (ev s e).
Proof.
  intros He. unfold ev, upd_event. simpl. rewrite list_lookup_alter_eq.
  destruct (lookup_lt_is_Some_2 _ _ He) as [x ->]. done.
Qed.

(** The handler list does not depend on what [_dispatcher] does before it
    looks the list up. *)
Lemma dispatch_order_setup s event channels f :
  (∀ x, e_name (f x) = e_name x) →
  (lookup_handlers
     (upd_event f event (set_currently_handling (Some event) s))
     event channels).2
  = dispatch_order s event channels.
Proof.
  intros Hf. unfold dispatch_order, lookup_handlers.
  rewrite (fld_upd_event e_name) by done. simpl.
  change (ev (set_currently_handling (Some event) s) event) with (ev s event).
  by case_match.
Qed.

Lemma dispatcher_trace env thread s event channels :
  let r := _dispatcher env thread s event channels in
  let tr := invoked env thread s event channels in
  calls (result_state r) = calls s ++ tr
  ∧ List.map c_handler tr
    = take (length tr) (dispatch_order s event channels)
  ∧ Forall (λ c, c_event c = event) tr
  ∧ (∀ i c, tr !! i = Some c → ends_loop c = true → length tr = S i)
  ∧ ((length tr < length (dispatch_order s event channels))%nat →
     ∃ c, last tr = Some c ∧ ends_loop c = true)
  ∧ (∀ e, raised r = Some e → is_fatal e = true)
  ∧ (Forall (λ c, ∀ e, c_result c = CRaised e → is_fatal e = false) tr →
     raised r = None).
Proof.
  intros r tr. subst r tr. unfold invoked, _dispatcher.
  set (s1 := if e_complete (ev (set_currently_handling (Some event) s) event)
             then _ else _).
  assert (Hhs : (lookup_handlers s1 event channels).2
                = dispatch_order s event channels).
  { subst s1. case_match.
    - by apply dispatch_order_setup.
    - unfold dispatch_order, lookup_handlers. simpl.
      change (ev (set_currently_handling (Some event) s) event)
        with (ev s event). by case_match. }
  assert (Hc1 : calls (lookup_handlers s1 event channels).1 = calls s).
  { rewrite calls_lookup_handlers. subst s1. by case_match. }
  destruct (lookup_handlers s1 event channels) as [s2 hs]. simpl in *.
  subst hs.
  destruct (dispatch_loop_trace env thread event
              (dispatch_order s event channels) s2 None)
    as (tr & Htr & Hmap & Hall & Hlast & Hshort & Hr & Hok).
  rewrite Hc1 in Htr.
  destruct (dispatch_loop env thread s2 event
              (dispatch_order s event channels) None)
    as [[s3 error]|e [s3 error]]; simpl in *.
  - rewrite calls__eventDone. simpl. rewrite Htr, drop_app_length.
    repeat split; try done.
  - rewrite Htr, drop_app_length. repeat split; try done.
Qed.

(** ** The value of the event after a call *)

Lemma length_upd_event f e s :
  length (events (upd_event f e s)) = length (events s).
Proof. unfold upd_event. simpl. apply length_alter. Qed.

Lemma events_registerTask g s : events (registerTask g s) = events s.
Proof. unfold registerTask. by case_match. Qed.

Lemma ev_registerTask g s e : ev (registerTask g s) e = ev s e.
Proof. unfold ev. by rewrite events_registerTask. Qed.

Lemma ev_set_calls c s e : ev (set_calls c s) e = ev s e.
Proof. done. Qed.

Lemma e_value_untracked x y :
  untracked x = untracked y → e_value x = e_value y.
Proof. intros H. by apply (f_equal e_value) in H. Qed.

Lemma dispatch_one_value env thread s event handler error :
  (event < length (events s))%nat →
  let c := call_of env thread s event handler in
  match dispatch_one env thread s event handler error with
  | Raised e (s', _, _) => (event < length (events s'))%nat
  | Ok (s', error', _) =>
      (event < length (events s'))%nat
      ∧ (∀ e, c_result c = CRaised e →
           v_value (e_value (ev s' event)) = exc_info e
           ∧ v_errors (e_value (ev s' event)) = true
           ∧ error' = Some (exc_info e))
      ∧ (∀ v, c_result c = CValue v → is_not_None v = true →
           v_value (e_value (ev s' event)) = v)
  end.
Proof.
  intros Hev. unfold dispatch_one, call_of.
  set (s0 := upd_event (set_handler (Some handler)) event s).
  assert (H0 : (event < length (events s0))%nat)
    by (subst s0; by rewrite length_upd_event).
  pose proof (ev_stable_run_program thread (code env s0 handler event) s0)
    as Hst.
  destruct (run_program thread s0 (code env s0 handler event))
    as [s1 out] eqn:Hrun. cbn [fst snd] in *.
  assert (H1 : (event < length (events s1))%nat).
  { apply ev_stable_length in Hst. lia. }
  destruct out as [v|g|e]; cbn [call_result].
  - cbn [after_call]. destruct (is_not_None v) eqn:Hv; simpl.
    + rewrite length_alter. split; [done|]. split; [done|].
      intros v' [= <-] _. by rewrite ev_upd_event_eq.
    + split; [done|]. split; [done|]. intros v' [= <-]. congruence.
  - cbn [after_call alloc_gen]. simpl.
    rewrite events_registerTask. simpl. rewrite !length_alter.
    split; [done|]. split; done.
  - destruct (is_fatal e) eqn:Hfatal; [done|].
    set (s1c := set_calls _ s1).
    set (s2 := upd_event errors_set event s1c).
    set (s3 := if e_failure (ev s2 event) then _ else s2).
    set (s4 := fire_new thread (root_channel s3) _ [] s3).
    assert (H23 : ev_stable s2 s3).
    { subst s3. case_match; [apply ev_stable_fire_new | done]. }
    assert (H24 : ev_stable s2 s4).
    { etrans; [exact H23 | apply ev_stable_fire_new]. }
    assert (H2 : (event < length (events s2))%nat)
      by (subst s2; by rewrite length_upd_event).
    assert (H4 : (event < length (events s4))%nat).
    { apply ev_stable_length in H24. lia. }
    assert (Hnn : is_not_None (exc_info e) = true) by (by destruct e).
    cbn [after_call]. rewrite Hnn. cbn [fst snd].
    rewrite length_upd_event.
    split; [done|]. split; [|done].
    intros e' [= <-]. rewrite ev_upd_event_eq by done.
    split; [done|]. split; [|done]. simpl.
    rewrite (e_value_untracked _ _ (ev_stable_lookup s2 s4 event H24 H2)).
    subst s2. by rewrite ev_upd_event_eq.
Qed.

(** After the handler loop the event carries what the last call left: the
    captured triple when that call raised, its value when that is not
    [None]. *)
Lemma dispatch_loop_last env thread event hs :
  ∀ s error,
  (event < length (events s))%nat →
  let r := dispatch_loop env thread s event hs error in
  let tr := drop (length (calls s)) (calls (result_state r).1) in
  (event < length (events (result_state r).1))%nat
  ∧ ∀ c, last tr = Some c → raised r = None →
      (∀ e, c_result c = CRaised e →
         v_value (e_value (ev (result_state r).1 event)) = exc_info e
         ∧ v_errors (e_value (ev (result_state r).1 event)) = true
         ∧ (result_state r).2 = Some (exc_info e))
      ∧ (∀ v, c_result c = CValue v → is_not_None v = true →
           v_value (e_value (ev (result_state r).1 event)) = v).
Proof.
  induction hs as [|h hs IH]; intros s error Hev; cbn zeta.
  - simpl. rewrite drop_all. split; [done|]. by intros c [=].
  - cbn [dispatch_loop].
    pose proof (dispatch_one_calls env thread s event h error) as Hone.
    pose proof (dispatch_one_value env thread s event h error Hev) as Hval.
    set (c0 := call_of env thread s event h) in *. clearbody c0.
    cbv zeta in Hone, Hval.
    destruct (dispatch_one env thread s event h error)
      as [[[s' error'] brk] | e [[s' error'] brk]].
    + destruct Hone as (Hcalls & Hbrk & _).
      destruct Hval as (Hev' & Hraise & Hvalue).
      destruct brk.
      * simpl. rewrite Hcalls, drop_app_length. split; [done|].
        intros c [= <-] _. split; [apply Hraise | apply Hvalue].
      * destruct (dispatch_loop_trace env thread event hs s' error')
          as (tr' & Htr' & _ & _ & _ & Hshort & _).
        destruct (IH s' error' Hev') as [Hlen IHlast].
        cbv zeta in IHlast. rewrite Htr', drop_app_length in IHlast.
        split; [done|].
        rewrite Htr', Hcalls, <- app_assoc, drop_app_length. simpl.
        intros c Hc Hr. destruct tr' as [|c1 tr'].
        -- injection Hc as <-.
           assert (hs = []) as ->.
           { destruct hs; [done|]. destruct Hshort as (? & [=] & _).
             simpl. lia. }
           simpl. split; [apply Hraise | apply Hvalue].
        -- by apply IHlast.
    + simpl. split; [done|]. by intros c _ [=].
Qed.

Lemma events_lookup_handlers s event channels :
  events (lookup_handlers s event channels).1 = events s.
Proof. unfold lookup_handlers. by case_match. Qed.

Lemma dispatcher_last env thread s event channels s' c :
  (event < length (events s))%nat →
  _dispatcher env thread s event channels = Ok s' →
  last (invoked env thread s event channels) = Some c →
  (∀ e, c_result c = CRaised e →
     v_value (e_value (ev s' event)) = exc_info e
     ∧ v_errors (e_value (ev s' event)) = true)
  ∧ (∀ v, c_result c = CValue v → is_not_None v = true →
       v_value (e_value (ev s' event)) = v).
Proof.
  intros Hev. unfold invoked, _dispatcher.
  set (s1 := if e_complete (ev (set_currently_handling (Some event) s) event)
             then _ else _).
  assert (Hl1 : (event < length (events s1))%nat).
  { subst s1. case_match; [by rewrite length_upd_event | done]. }
  assert (Hc1 : calls (lookup_handlers s1 event channels).1 = calls s).
  { rewrite calls_lookup_handlers. subst s1. by case_match. }
  pose proof (events_lookup_handlers s1 event channels) as He2.
  destruct (lookup_handlers s1 event channels) as [s2 hs]. simpl in *.
  assert (Hl2 : (event < length (events s2))%nat) by (by rewrite He2).
  destruct (dispatch_loop_last env thread event hs s2 None Hl2)
    as [Hl3 Hlast]. cbv zeta in Hlast. rewrite Hc1 in Hlast.
  destruct (dispatch_loop env thread s2 event hs None)
    as [[s3 error]|e [s3 error]]; [|done]. simpl in *.
  intros [= <-]. rewrite calls__eventDone. simpl. intros Hc.
  destruct (Hlast c Hc eq_refl) as [Hraise Hvalue].
  set (s4 := set_currently_handling None s3).
  assert (Hst : untracked (ev (_eventDone thread s4 event error) event)
                = untracked (ev s3 event)).
  { apply (ev_stable_lookup s4); [apply ev_stable__eventDone | done]. }
  apply e_value_untracked in Hst. rewrite Hst.
  split; [|done]. intros e He. by destruct (Hraise e He) as (? & ? & _).
Qed.

(** ** The filter short-circuit *)

(** C5: when a call of a handler with [filter=True] returns a true value
    (a generator object included), it is the last call of the dispatch: the
    handlers called are the handler list up to this handler, and no later
    handler of the list is called. *)
Theorem filter_short_circuit (env : Env) (thread : nat) (s : State)
    (event : nat) (channels : list Channel) (i : nat) (c : Call) :
  invoked env thread s event channels !! i = Some c →
  h_filter (c_handler c) = true →
  (c_result c = CGenerator ∨ ∃ v, c_result c = CValue v ∧ truthy v = true) →
  length (invoked env thread s event channels) = S i
  ∧ List.map c_handler (invoked env thread s event channels)
    = take (S i) (dispatch_order s event channels).
Proof.
  intros Hi Hf Hres.
  destruct (dispatcher_trace env thread s event channels)
    as (_ & Hmap & _ & Hlast & _).
  assert (Hend : ends_loop c = true).
  { unfold ends_loop. destruct Hres as [-> | (v & -> & Hv)]; [done|].
    by rewrite Hv, Hf. }
  pose proof (Hlast i c Hi Hend) as Hlen.
  split; [done|]. by rewrite Hmap, Hlen.
Qed.

(** C5 at the scenario of the specification: the filter for ["ping"]
    returns [True] and the handler of priority 1 is not called. *)
Lemma filter_short_circuit_witness :
  length (invoked ex_env 0 (ex_fired "ping" false) 0 [ChanName "*"]) = 1%nat
  ∧ List.map c_handler (invoked ex_env 0 (ex_fired "ping" false) 0 [ChanName "*"])
    = take 1 (dispatch_order (ex_fired "ping" false) 0 [ChanName "*"]).
Proof.
  apply (filter_short_circuit ex_env 0 (ex_fired "ping" false) 0
           [ChanName "*"] 0
           (mkCall 0 (bind_method ex_registry ex_ping_filter)
                   (CValue (VBool true)))).
  - vm_compute. reflexivity.
  - reflexivity.
  - right. eexists. split; reflexivity.
Defined.

(** C10: a handler with [filter=True] that raises a non-fatal exception
    ends the handler loop like a filter that returned a true value: its call
    is the last one of the dispatch, the dispatch returns normally, and the
    event's value is the captured triple, which is true. *)
Theorem filter_error_short_circuit (env : Env) (thread : nat) (s : State)
    (event : nat) (channels : list Channel) (i : nat) (c : Call) (e : exn) :
  (event < length (events s))%nat →
  invoked env thread s event channels !! i = Some c →
  h_filter (c_handler c) = true →
  c_result c = CRaised e →
  is_fatal e = false →
  length (invoked env thread s event channels) = S i
  ∧ List.map c_handler (invoked env thread s event channels)
    = take (S i) (dispatch_order s event channels)
  ∧ truthy (exc_info e) = true
  ∧ ∃ s', _dispatcher env thread s event channels = Ok s'
          ∧ v_value (e_value (ev s' event)) = exc_info e
          ∧ v_errors (e_value (ev s' event)) = true.
Proof.
  intros Hev Hi Hf Hres Hfatal.
  destruct (dispatcher_trace env thread s event channels)
    as (_ & Hmap & _ & Hlast & _ & _ & Hok).
  assert (Hend : ends_loop c = true).
  { unfold ends_loop. by rewrite Hres, Hf, orb_true_r. }
  pose proof (Hlast i c Hi Hend) as Hlen.
  split; [done|]. split; [by rewrite Hmap, Hlen|].
  split; [by destruct e|].
  assert (Hraised : raised (_dispatcher env thread s event channels) = None).
  { apply Hok. apply Forall_lookup. intros j c' Hj e' He'.
    destruct (is_fatal e') eqn:Hf'; [|done].
    assert (Hend' : ends_loop c' = true).
    { unfold ends_loop. by rewrite He', Hf'. }
    pose proof (Hlast j c' Hj Hend') as Hlen'.
    assert (j = i) as -> by lia. congruence. }
  destruct (_dispatcher env thread s event channels) as [s'|] eqn:Hd; [|done].
  exists s'. split; [done|].
  assert (Hl : last (invoked env thread s event channels) = Some c).
  { rewrite last_lookup, Hlen. done. }
  by destruct (dispatcher_last env thread s event channels s' c Hev Hd Hl)
    as [Hraise _]; apply Hraise.
Qed.

(** C10 at an example: the filter for ["check"] raises, the handler of
    lower priority is not called. *)
Lemma filter_error_short_circuit_witness :
  length (invoked ex_env 0 (ex_fired "check" false) 0 [ChanName "*"]) = 1%nat
  ∧ List.map c_handler
      (invoked ex_env 0 (ex_fired "check" false) 0 [ChanName "*"])
    = take 1 (dispatch_order (ex_fired "check" false) 0 [ChanName "*"])
  ∧ truthy (exc_info ex_boom) = true
  ∧ ∃ s', _dispatcher ex_env 0 (ex_fired "check" false) 0 [ChanName "*"]
          = Ok s'
          ∧ v_value (e_value (ev s' 0)) = exc_info ex_boom
          ∧ v_errors (e_value (ev s' 0)) = true.
Proof.
  apply (filter_error_short_circuit ex_env 0 (ex_fired "check" false) 0
           [ChanName "*"] 0
           (mkCall 0 (bind_method ex_registry ex_check_filter)
                   (CRaised ex_boom)) ex_boom).
  - vm_compute. lia.
  - vm_compute. reflexivity.
  - reflexivity.
  - reflexivity.
  - reflexivity.
Defined.

(** ** The order of the calls *)







(** ** Handler failures *)

Lemma ev_fire_new_new thread sc x chs s :
  untracked (ev (fire_new thread sc x chs s) (length (events s)))
  = untracked (set_value Value_new (set_channels (fire_channels sc x chs) x)).
Proof.
  pose proof (untracked_fire_new thread sc x chs s) as H.
  apply (f_equal (λ l, l !! length (events s))) in H.
  rewrite list_lookup_fmap in H.
  rewrite <- (length_fmap untracked (events s)) in H at 2.
  rewrite list_lookup_middle in H by done.
  unfold ev. destruct (events (fire_new thread sc x chs s) !! _); simpl in *;
    congruence.
Qed.

Lemma length_fire_new thread sc x chs s :
  length (events (fire_new thread sc x chs s)) = S (length (events s)).
Proof.
  pose proof (untracked_fire_new thread sc x chs s) as H.
  apply (f_equal length) in H.
  rewrite length_app, !length_fmap in H. simpl in H. lia.
Qed.

Lemma e_kind_untracked x y : untracked x = untracked y → e_kind x = e_kind y.
Proof. intros H. by apply (f_equal e_kind) in H. Qed.



Lemma queue_run_program_prefix thread p s :
  _queue s `prefix_of` _queue (run_program thread s p).1.
Proof.
  revert s. induction p as [| | |sc sp chs k IH]; intros s; simpl; try done.
  etrans; [|apply IH]. rewrite queue_fire_new. by apply prefix_app_r.
Qed.

Lemma tree__fire thread s event channel :
  tree (_fire thread s event channel) = tree s.
Proof. unfold _fire. by repeat case_match. Qed.

Lemma tree_fire_new thread sc x chs s :
  tree (fire_new thread sc x chs s) = tree s.
Proof. unfold fire_new, fireEvent, alloc_event. by rewrite tree__fire. Qed.





(** ** Stopping *)

(** The loop of [stop] tests the queue entry, a tuple, and not the event in
    it: every entry is appended again. *)
Lemma clean_queue_keeps_all s q :
  clean_queue s q = set_queue (_queue s ++ q) s.
Proof.
  revert s. induction q as [|evt q IH]; intros s; simpl.
  - rewrite app_nil_r. by destruct s.
  - rewrite IH. simpl. by rewrite <- app_assoc.
Qed.

(** C7, the code at the failing input: the pending [GenerateEvents] token
    of a running manager is still in the queue after the cleaning loop of
    [stop], and the ticks of [stop] dispatch it: its handler is called. *)
Theorem stop_keeps_GenerateEvents :
  _running ex_running = true
  ∧ _queue ex_running = [(0%nat, [ChanName "*"])]
  ∧ is_GenerateEvents (ev ex_running 0) = true
  ∧ _queue (clean_queue (set_queue [] (set_running false ex_running))
                        (_queue ex_running))
    = [(0%nat, [ChanName "*"])]
  ∧ raised (stop ex_env 0 ex_running) = None
  ∧ _running (result_state (stop ex_env 0 ex_running)) = false
  ∧ List.map (λ c, (c_event c, h_name (c_handler c)))
             (calls (result_state (stop ex_env 0 ex_running)))
    = [(0%nat, "on_generate")].
Proof.
  split; [reflexivity|]. split; [reflexivity|]. split; [reflexivity|].
  split; [by rewrite clean_queue_keeps_all|].
  split; [vm_compute; reflexivity|].
  split; vm_compute; reflexivity.
Qed.

(** ** Completion tracking: rows *)

Lemma rw_app_l T r i : (i < length T)%nat → rw (T ++ [r]) i = rw T i.
Proof. intros Hi. unfold rw. by rewrite lookup_app_l. Qed.

Lemma rw_app_new T r : rw (T ++ [r]) (length T) = r.
Proof. unfold rw. by rewrite list_lookup_middle. Qed.

Lemma rw_ge T i : (length T ≤ i)%nat → rw T i = row_default.
Proof. intros Hi. unfold rw. by rewrite lookup_ge_None_2. Qed.

Lemma rw_alter_ne f i j T : i ≠ j → rw (alter f i T) j = rw T j.
Proof. intros Hne. unfold rw. by rewrite list_lookup_alter_ne. Qed.

Lemma rw_alter_eq f i T :
  (i < length T)%nat → rw (alter f i T) i = f (rw T i).
Proof.
  intros Hi. unfold rw. rewrite list_lookup_alter_eq.
  by destruct (lookup_lt_is_Some_2 _ _ Hi) as [x ->].
Qed.












(** ** Completion tracking: the invariant is kept *)



Lemma rw_app_ne T r e : e ≠ length T → rw (T ++ [r]) e = rw T e.
Proof.
  intros Hne. destruct (decide (e < length T)%nat); [by rewrite rw_app_l|].
  rewrite !rw_ge; [done | lia | rewrite length_app; simpl; lia].
Qed.













(** ** Completion tracking: from states to rows *)

Lemma rows_upd_event_same f e s :
  (∀ x, row (f x) = row x) → rows (upd_event f e s) = rows s.
Proof.
  intros Hf. unfold rows, upd_event. simpl.
  revert e. induction (events s) as [|x l IH]; intros [|e]; csimpl;
    rewrite ?Hf, ?IH; done.
Qed.

Lemma rows_upd_event f f' e s :
  (∀ x, row (f x) = f' (row x)) →
  rows (upd_event f e s) = alter f' e (rows s).
Proof.
  intros Hf. unfold rows, upd_event. simpl.
  apply list_fmap_alter, Forall_forall. intros x _. apply Hf.
Qed.

Lemma length_rows s : length (rows s) = length (events s).
Proof. apply length_fmap. Qed.

Lemma rw_rows s e : rw (rows s) e = row (ev s e).
Proof.
  unfold rw, rows, ev. rewrite list_lookup_fmap.
  by destruct (events s !! e).
Qed.

Lemma row_add_effects d x : row (add_effects d x) = r_add_effects d (row x).
Proof. by destruct x. Qed.

Lemma row_set_tracking t x : row (set_tracking t x) = r_set_tracking t (row x).
Proof. by destruct x. Qed.

Lemma row_reduce_time_left t x : row (reduce_time_left t x) = row x.
Proof. unfold reduce_time_left. case_match; by destruct x. Qed.

Lemma ev_snoc_lt s x e :
  (e < length (events s))%nat → ev (set_events (events s ++ [x]) s) e = ev s e.
Proof. intros He. unfold ev. simpl. by rewrite lookup_app_l. Qed.

Lemma ev_snoc_new s x :
  ev (set_events (events s ++ [x]) s) (length (events s)) = x.
Proof. unfold ev. simpl. by rewrite list_lookup_middle. Qed.

Lemma ev_ge s e : (length (events s) ≤ e)%nat → ev s e = default_event.
Proof. intros He. unfold ev. by rewrite lookup_ge_None_2. Qed.

Lemma rows_fire_new thread sc x chs s :
  e_tracking x = None →
  rows (fire_new thread sc x chs s) =
  match fire_tracks thread s x with
  | Some c =>
      alter (r_add_effects 1) c
            (rows s ++ [r_set_tracking (Some (c, 1)) (row x)])
  | None => rows s ++ [row x]
  end.
Proof.
  intros Hx. unfold fire_new, fireEvent. cbn [alloc_event].
  set (cs := match chs with [] => _ | _ => chs end).
  set (s1 := upd_event _ _ (upd_event _ _ _)).
  set (x' := set_value Value_new (set_channels cs x)).
  assert (He1 : events s1 = events s ++ [x']).
  { subst s1 x'. unfold upd_event. simpl. by rewrite !alter_snoc. }
  assert (Hr1 : rows s1 = rows s ++ [row x]).
  { unfold rows. rewrite He1, fmap_app. simpl. by subst x'. }
  assert (Hnew : ev s1 (length (events s)) = x').
  { unfold ev. by rewrite He1, list_lookup_middle. }
  assert (Hcause : ∀ c, cause (ev s1 c) = cause (ev s c)).
  { intros c. unfold ev. rewrite He1.
    destruct (decide (c < length (events s))%nat) as [Hc|Hc].
    - by rewrite lookup_app_l.
    - rewrite (lookup_ge_None_2 (events s)) by lia.
      destruct (decide (c = length (events s))) as [->|Hc'].
      + rewrite list_lookup_middle by done. simpl. subst x'. unfold cause.
        simpl. by rewrite Hx.
      + rewrite lookup_ge_None_2; [done|]. rewrite length_app. simpl. lia. }
  unfold _fire, fire_tracks. rewrite Hnew.
  change (_executing_thread s1) with (_executing_thread s).
  change (_currently_handling s1) with (_currently_handling s).
  change (_generate_event s1) with (_generate_event s).
  change (is_Signal x') with (is_Signal x).
  destruct (bool_decide (_executing_thread s = Some thread)
            && negb (is_Signal x)).
  - destruct (_currently_handling s) as [c|]; [|done].
    rewrite Hcause. destruct (cause (ev s c)); [|done].
    change (rows (set_queue ?q ?t)) with (rows t).
    rewrite (rows_upd_event _ (r_add_effects 1)) by apply row_add_effects.
    rewrite (rows_upd_event _ (r_set_tracking (Some (c, 1))))
      by apply row_set_tracking.
    rewrite Hr1. f_equal.
    rewrite <- (length_rows s). by rewrite alter_snoc.
  - destruct (_generate_event s) as [g|]; [|done].
    rewrite rows_upd_event_same by apply row_reduce_time_left. done.
Qed.






(** ** The loop of [_eventDone] ends *)

Lemma eventDone_chain_S fuel thread s x :
  eventDone_chain (S fuel) thread s x =
  match e_tracking (ev s x) with
  | None => s
  | Some (c, _) =>
      let s1 := upd_event (add_effects (-1)) x s in
      if bool_decide (0 < default 0 (effects (ev s1 x))) then s1
      else eventDone_chain fuel thread (chain_round thread s1 x) c
  end.
Proof. reflexivity. Qed.

Lemma chain_measure_rows s : chain_measure s = list_sum (weight <$> rows s).
Proof.
  unfold chain_measure, rows. rewrite <- list_fmap_compose. done.
Qed.

Lemma sum_weight_alter f i (T : list Row) :
  (i < length T)%nat →
  (list_sum (weight <$> alter f i T) + weight (rw T i)
   = list_sum (weight <$> T) + weight (f (rw T i)))%nat.
Proof.
  revert i. induction T as [|r T IH]; intros [|i] Hi; csimpl in *; try lia.
  - unfold rw. simpl. lia.
  - specialize (IH i ltac:(lia)). unfold rw in *. csimpl. lia.
Qed.

Lemma sum_weight_alter_same f i (T : list Row) :
  (∀ r, weight (f r) = weight r) →
  list_sum (weight <$> alter f i T) = list_sum (weight <$> T).
Proof.
  intros Hf. revert i. induction T as [|r T IH]; intros [|i]; csimpl; try done.
  - by rewrite Hf.
  - by rewrite IH.
Qed.

Lemma weight_add_effects d r : weight (r_add_effects d r) = weight r.
Proof. unfold weight. simpl. by destruct (r_tracking r) as [[??]|]. Qed.

Lemma weight_untrack r : weight (r_set_tracking None r) = 0%nat.
Proof. done. Qed.

Lemma sum_weight_snoc (T : list Row) r :
  list_sum (weight <$> (T ++ [r])) = (list_sum (weight <$> T) + weight r)%nat.
Proof. rewrite fmap_app, list_sum_app. simpl. lia. Qed.

Lemma tracked_valid s x t : e_tracking (ev s x) = Some t → (x < length (events s))%nat.
Proof.
  intros Ht. destruct (decide (x < length (events s))%nat); [done|].
  rewrite ev_ge in Ht by lia. done.
Qed.

Lemma fire_tracks_None thread s x :
  _currently_handling s = None → fire_tracks thread s x = None.
Proof. intros Hc. unfold fire_tracks. rewrite Hc. by case_match. Qed.

(** The rows after a round of the loop, in terms of the rows before. *)
Lemma rows_chain_round thread s x :
  ∃ T2, rows (chain_round thread s x) = alter (r_set_tracking None) x T2
    ∧ if r_complete (rw (rows s) x)
      then ∃ ft,
          T2 = match ft with
               | Some c =>
                   alter (r_add_effects 1) c
                     (rows s ++ [r_set_tracking (Some (c, 1)) (complete_row x)])
               | None => rows s ++ [complete_row x]
               end
          ∧ (_currently_handling s = None → ft = None)
      else T2 = rows s.
Proof.
  unfold chain_round. rewrite rw_rows. cbn [row r_complete].
  destruct (e_complete (ev s x)).
  - eexists. split.
    + apply (rows_upd_event _ (r_set_tracking None)), row_set_tracking.
    + eexists. split; [by apply rows_fire_new|]. apply fire_tracks_None.
  - eexists. split; [|done].
    apply (rows_upd_event _ (r_set_tracking None)), row_set_tracking.
Qed.

(** A round that goes on lowers the measure. *)
Lemma chain_round_measure thread s x t :
  e_tracking (ev s x) = Some t →
  (chain_measure (chain_round thread s x) < chain_measure s)%nat.
Proof.
  intros Ht. rewrite !chain_measure_rows.
  assert (Hx : (x < length (rows s))%nat).
  { rewrite length_rows. by eapply tracked_valid. }
  assert (Hw : weight (rw (rows s) x)
               = if r_complete (rw (rows s) x) then 3%nat else 1%nat).
  { unfold weight. rewrite rw_rows. simpl. by rewrite Ht. }
  destruct (rows_chain_round thread s x) as (T2 & -> & HT2).
  destruct (r_complete (rw (rows s) x)).
  - destruct HT2 as (ft & -> & _). destruct ft as [c|].
    + set (T1 := rows s ++ _).
      assert (Hx1 : (x < length T1)%nat).
      { subst T1. rewrite length_app. simpl. lia. }
      pose proof (sum_weight_alter (r_set_tracking None) x
                    (alter (r_add_effects 1) c T1)) as Hs.
      rewrite length_alter in Hs. specialize (Hs Hx1).
      rewrite (sum_weight_alter_same (r_add_effects 1))
        in Hs by apply weight_add_effects.
      assert (Hwx : weight (rw (alter (r_add_effects 1) c T1) x) = 3%nat).
      { destruct (decide (c = x)) as [->|Hne].
        - rewrite rw_alter_eq, weight_add_effects by done.
          subst T1. by rewrite rw_app_l.
        - rewrite rw_alter_ne by done. subst T1. by rewrite rw_app_l. }
      rewrite Hwx in Hs. subst T1. rewrite sum_weight_snoc in Hs.
      rewrite weight_untrack in Hs.
      change (weight (r_set_tracking _ (complete_row x))) with 1%nat in Hs.
      lia.
    + pose proof (sum_weight_alter (r_set_tracking None) x
                    (rows s ++ [complete_row x])) as Hs.
      rewrite length_app, rw_app_l, sum_weight_snoc, Hw in Hs by done.
      rewrite weight_untrack in Hs.
      change (weight (complete_row x)) with 0%nat in Hs. simpl in Hs. lia.
  - subst T2.
    pose proof (sum_weight_alter (r_set_tracking None) x (rows s) Hx) as Hs.
    rewrite Hw, weight_untrack in Hs. lia.
Qed.

Lemma chain_measure_add_effects d x s :
  chain_measure (upd_event (add_effects d) x s) = chain_measure s.
Proof.
  rewrite !chain_measure_rows.
  rewrite (rows_upd_event _ (r_add_effects d)) by apply row_add_effects.
  apply sum_weight_alter_same, weight_add_effects.
Qed.

Lemma tracking_add_effects d x s c n :
  e_tracking (ev s x) = Some (c, n) →
  e_tracking (ev (upd_event (add_effects d) x s) x) = Some (c, n + d).
Proof.
  intros Ht. rewrite ev_upd_event_eq by by eapply tracked_valid.
  unfold add_effects. simpl. by rewrite Ht.
Qed.

(** The fuel [_eventDone] gives its loop is enough: with more, the loop
    gives the same state. *)
Lemma eventDone_chain_fuel fuel thread s x :
  (chain_measure s < fuel)%nat →
  eventDone_chain fuel thread s x
  = eventDone_chain (S (chain_measure s)) thread s x.
Proof.
  remember (chain_measure s) as m eqn:Hm.
  assert (Hle : (chain_measure s ≤ m)%nat) by lia. clear Hm.
  revert fuel s x Hle. induction m as [|m IH]; intros fuel s x Hle Hf.
  - destruct fuel as [|fuel]; [lia|]. rewrite !eventDone_chain_S.
    destruct (e_tracking (ev s x)) as [[c n]|] eqn:Ht; [|done].
    cbv zeta. case_bool_decide; [done|].
    pose proof (chain_round_measure thread _ x _
                  (tracking_add_effects (-1) _ _ _ _ Ht)) as Hlt.
    rewrite chain_measure_add_effects in Hlt. lia.
  - destruct fuel as [|fuel]; [lia|]. rewrite !eventDone_chain_S.
    destruct (e_tracking (ev s x)) as [[c n]|] eqn:Ht; [|done].
    cbv zeta. case_bool_decide; [done|].
    pose proof (chain_round_measure thread _ x _
                  (tracking_add_effects (-1) _ _ _ _ Ht)) as Hlt.
    rewrite chain_measure_add_effects in Hlt.
    rewrite (IH fuel) by lia. symmetry. apply IH; lia.
Qed.

(** ** The invariant along a dispatch *)











Lemma r_untrack_add_effects d r :
  r_set_tracking None (r_add_effects d r) = r_set_tracking None r.
Proof. done. Qed.










(** ** Completion: what the invariant gives *)





Lemma Ok_result_state {A} (r : result A) :
  raised r = None → r = Ok (result_state r).
Proof. by destruct r. Qed.

(** ** What [_eventDone] does *)

Lemma fld_stable {A} (fld : Event → A) s s' e :
  (∀ x, fld (untracked x) = fld x) →
  ev_stable s s' → (e < length (events s))%nat →
  fld (ev s' e) = fld (ev s e).
Proof.
  intros Hf Hst He. rewrite <- (Hf (ev s' e)), <- (Hf (ev s e)).
  by rewrite (ev_stable_lookup s s' e Hst He).
Qed.

Lemma fire_new_entry thread sc x chs s :
  e_kind (ev (fire_new thread sc x chs s) (length (events s))) = e_kind x.
Proof.
  rewrite (e_kind_untracked _ _ (ev_fire_new_new thread sc x chs s)). done.
Qed.

Lemma queue_chain_round thread s x :
  ∃ cs, _queue (chain_round thread s x) = _queue s ++ cs
    ∧ (length (events s) ≤ length (events (chain_round thread s x)))%nat
    ∧ ∀ q, q ∈ cs →
           (q.1 < length (events (chain_round thread s x)))%nat
           ∧ ∃ c, e_kind (ev (chain_round thread s x) q.1) = KComplete c.
Proof.
  unfold chain_round. destruct (e_complete (ev s x)); cbv zeta.
  - eexists. split; [|split].
    + change (_queue (upd_event ?f ?i ?t)) with (_queue t).
      apply queue_fire_new.
    + rewrite length_upd_event, length_fire_new. lia.
    + intros q Hq. apply list_elem_of_singleton in Hq. subst q. cbn [fst].
      rewrite length_upd_event, length_fire_new. split; [lia|].
      exists x. rewrite (fld_upd_event e_kind) by done.
      by rewrite fire_new_entry.
  - exists []. split; [by rewrite app_nil_r|].
    split; [by rewrite length_upd_event|]. by intros q Hq%elem_of_nil.
Qed.

Lemma queue_eventDone_chain thread fuel :
  ∀ s x,
    ∃ cs, _queue (eventDone_chain fuel thread s x) = _queue s ++ cs
      ∧ ∀ q, q ∈ cs →
             ∃ c, e_kind (ev (eventDone_chain fuel thread s x) q.1)
                  = KComplete c.
Proof.
  induction fuel as [|fuel IH]; intros s x.
  { exists []. split; [by rewrite app_nil_r|]. by intros q Hq%elem_of_nil. }
  rewrite eventDone_chain_S.
  destruct (e_tracking (ev s x)) as [[c n]|].
  - cbv zeta. case_bool_decide.
    + exists []. split; [by rewrite app_nil_r|]. by intros q Hq%elem_of_nil.
    + set (s1 := upd_event (add_effects (-1)) x s).
      destruct (queue_chain_round thread s1 x) as (cs1 & Hq1 & Hlen1 & Hk1).
      destruct (IH (chain_round thread s1 x) c) as (cs2 & Hq2 & Hk2).
      exists (cs1 ++ cs2). split.
      * rewrite Hq2, Hq1. by rewrite <- app_assoc.
      * intros q [Hq|Hq]%elem_of_app; [|by apply Hk2].
        destruct (Hk1 q Hq) as (Hlt & c' & Hc'). exists c'.
        rewrite <- Hc'. apply (fld_stable e_kind); [done| |done].
        apply ev_stable_eventDone_chain.
  - exists []. split; [by rewrite app_nil_r|]. by intros q Hq%elem_of_nil.
Qed.


Lemma fire_channels_core s k nm args chs :
  fire_channels (root_channel s) (core_event k nm args) chs = or_default s chs.
Proof. by destruct chs. Qed.

Lemma cond_fire_entries (b : bool) thread sc x chs s s' :
  ev_stable (if b then fire_new thread sc x chs s else s) s' →
  ∃ D, _queue (if b then fire_new thread sc x chs s else s) = _queue s ++ D
    ∧ List.map (λ q, (e_kind (ev s' q.1), q.2)) D
      = if b then [(e_kind x, fire_channels sc x chs)] else [].
Proof.
  destruct b; intros Hst.
  - eexists. split; [apply queue_fire_new|]. cbn [List.map fst snd].
    do 2 f_equal.
    rewrite (fld_stable e_kind _ s' _ ltac:(done) Hst)
      by (rewrite length_fire_new; lia).
    apply fire_new_entry.
  - exists []. by rewrite app_nil_r.
Qed.

Lemma _eventDone_entries thread s e err :
  waitingHandlers (ev s e) = 0 → (e < length (events s))%nat →
  ∃ completes,
    queued_since s (_eventDone thread s e err)
    = done_entries s e err ++ completes
    ∧ Forall (λ q, ∃ c, q.1 = KComplete c) completes.
Proof.
  intros Hw He. unfold queued_since, _eventDone. rewrite Hw.
  change (negb (0 =? 0)) with false. cbv iota.
  set (s1 := if e_alert_done (ev s e) then _ else s).
  set (s2 := if _ && e_success (ev s1 e) then _ else s1).
  set (s' := eventDone_chain _ thread s2 e).
  assert (Hst1 : ev_stable s s1).
  { subst s1. destruct (e_alert_done (ev s e)); [|done].
    apply ev_stable_fire_new. }
  assert (Hst2 : ev_stable s1 s2).
  { subst s2. destruct (_ && e_success (ev s1 e)); [|done].
    apply ev_stable_fire_new. }
  assert (Hst3 : ev_stable s2 s') by apply ev_stable_eventDone_chain.
  pose proof (ev_stable_length _ _ Hst1) as Hl1.
  pose proof (ev_stable_length _ _ Hst2) as Hl2.
  assert (Htree : root_channel s1 = root_channel s).
  { subst s1. destruct (e_alert_done (ev s e)); [|done].
    unfold root_channel. by rewrite tree_fire_new. }
  destruct (queue_eventDone_chain thread (S (chain_measure s2)) s2 e)
    as (cs & Hq3 & Hk3). fold s' in Hq3, Hk3.
  exists (List.map (λ q, (e_kind (ev s' q.1), q.2)) cs). split.
  - rewrite Hq3. unfold done_entries.
    destruct (cond_fire_entries (e_alert_done (ev s e)) thread
                (root_channel s)
                (core_event (KDone e) (derived_name (ev s e) "_done")
                            [v_value (e_value (ev s e))])
                (e_channels (ev s e)) s s') as (D & Hq1 & HD).
    { by etrans. }
    destruct (cond_fire_entries
                (bool_decide (err = None) && e_success (ev s1 e)) thread
                (root_channel s1)
                (core_event (KSuccess e) (derived_name (ev s1 e) "_success")
                            [v_value (e_value (ev s1 e))])
                (default (e_channels (ev s1 e))
                         (e_success_channels (ev s1 e))) s1 s')
      as (Sq & Hq2 & HS); [done|].
    fold s1 in Hq1. fold s2 in Hq2.
    rewrite !fire_channels_core in *. cbn [e_kind core_event] in *.
    rewrite (fld_stable e_success s s1 e) in HS by done.
    rewrite (fld_stable e_channels s s1 e) in HS by done.
    rewrite (fld_stable e_success_channels s s1 e) in HS by done.
    unfold or_default, default_channels in HS. rewrite Htree in HS.
    fold (default_channels s) in HS.
    rewrite Hq2, Hq1. rewrite <- !(assoc_L (++)).
    rewrite drop_app_length. by rewrite !map_app, HD, HS.
  - apply Forall_forall. intros q Hq. apply list_elem_of_In in Hq.
    apply in_map_iff in Hq as (q0 & <- & Hq0). apply list_elem_of_In in Hq0.
    apply (Hk3 q0 Hq0).
Qed.

Lemma tracking_fire_new_None thread sc x chs s i :
  _currently_handling s = None → e_tracking x = None →
  e_tracking (ev (fire_new thread sc x chs s) i) = e_tracking (ev s i).
Proof.
  intros Hcur Hx.
  change (r_tracking (row (ev (fire_new thread sc x chs s) i))
          = r_tracking (row (ev s i))).
  rewrite <- !rw_rows, rows_fire_new, fire_tracks_None by done.
  destruct (decide (i = length (rows s))) as [->|Hne].
  - rewrite rw_app_new, rw_ge by done. simpl. by rewrite Hx.
  - by rewrite rw_app_ne.
Qed.





(** ** Suspended handlers: steps that leave the tasks alone *)

Lemma length_waits s : length (waits s) = length (events s).
Proof. apply length_fmap. Qed.

Lemma waiting_waits s e : waitingHandlers (ev s e) = default 0 (waits s !! e).
Proof.
  unfold ev, waits. rewrite list_lookup_fmap. by destruct (events s !! e).
Qed.

Lemma waits_rows s : waits s = r_waiting <$> rows s.
Proof. unfold waits, rows. by rewrite <- list_fmap_compose. Qed.

Lemma fmap_alter_same {A B} (g : A → B) (f : A → A) i (l : list A) :
  (∀ x, g (f x) = g x) → g <$> alter f i l = g <$> l.
Proof.
  intros Hf. revert i. induction l as [|x l IH]; intros [|i]; csimpl;
    rewrite ?Hf, ?IH; done.
Qed.

#[global] Instance grows_refl : Reflexive grows.
Proof.
  intros s. split; [done|]. split; [done|]. split.
  - exists 0%nat. by rewrite app_nil_r.
  - exists []. split; [by rewrite app_nil_r|]. by intros x Hx%elem_of_nil.
Qed.

Lemma grows_length s s' :
  grows s s' → (length (events s) ≤ length (events s'))%nat.
Proof.
  intros (_ & _ & [k Hk] & _). rewrite <- !length_waits, Hk, length_app. lia.
Qed.

#[global] Instance grows_trans : Transitive grows.
Proof.
  intros s1 s2 s3 H12 H23. pose proof (grows_length _ _ H23) as Hlen.
  destruct H12 as (Ht1 & Hg1 & [k1 Hk1] & qs1 & Hq1 & Hv1).
  destruct H23 as (Ht2 & Hg2 & [k2 Hk2] & qs2 & Hq2 & Hv2).
  split; [congruence|]. split; [congruence|]. split.
  - exists (k1 + k2)%nat.
    by rewrite Hk2, Hk1, replicate_add, (assoc_L (++)).
  - exists (qs1 ++ qs2). split; [by rewrite Hq2, Hq1, (assoc_L (++))|].
    intros x [Hx|Hx]%elem_of_app; [|by apply Hv2].
    specialize (Hv1 x Hx). lia.
Qed.

Lemma grows_frame s s' :
  _tasks s' = _tasks s → gens s' = gens s → events s' = events s →
  _queue s' = _queue s → grows s s'.
Proof.
  intros Ht Hg He Hq. split; [done|]. split; [done|]. split.
  - exists 0%nat. unfold waits. by rewrite He, app_nil_r.
  - exists []. split; [by rewrite Hq, app_nil_r|]. by intros x Hx%elem_of_nil.
Qed.

Lemma grows_upd_event f e s :
  (∀ x, waitingHandlers (f x) = waitingHandlers x) →
  grows s (upd_event f e s).
Proof.
  intros Hf. split; [done|]. split; [done|]. split.
  - exists 0%nat. unfold waits, upd_event. simpl.
    by rewrite fmap_alter_same, app_nil_r.
  - exists []. split; [by rewrite app_nil_r|]. by intros x Hx%elem_of_nil.
Qed.

Lemma tasks__fire thread s event channel :
  _tasks (_fire thread s event channel) = _tasks s
  ∧ gens (_fire thread s event channel) = gens s.
Proof. unfold _fire. by repeat case_match. Qed.

Lemma tasks_fire_new thread sc x chs s :
  _tasks (fire_new thread sc x chs s) = _tasks s
  ∧ gens (fire_new thread sc x chs s) = gens s.
Proof.
  unfold fire_new, fireEvent, alloc_event. exact (tasks__fire _ _ _ _).
Qed.

Lemma grows_fire_new thread sc x chs s :
  e_tracking x = None → waitingHandlers x = 0 →
  grows s (fire_new thread sc x chs s).
Proof.
  intros Ht Hw. destruct (tasks_fire_new thread sc x chs s) as [Hts Hgs].
  split; [done|]. split; [done|]. split.
  - exists 1%nat. rewrite !waits_rows, rows_fire_new by done.
    destruct (fire_tracks thread s x).
    + rewrite fmap_alter_same by done. rewrite fmap_app. simpl.
      by rewrite Hw.
    + rewrite fmap_app. simpl. by rewrite Hw.
  - eexists. split; [apply queue_fire_new|].
    intros q Hq%list_elem_of_singleton. subst q. simpl.
    rewrite length_fire_new. lia.
Qed.

Lemma grows_run_program thread p s :
  grows s (run_program thread s p).1.
Proof.
  revert s. induction p as [| | |sc sp chs k IH]; intros s; simpl; try done.
  etrans; [|apply IH]. by apply grows_fire_new.
Qed.

Lemma grows_chain_round thread s x :
  grows s (chain_round thread s x).
Proof.
  unfold chain_round. etrans; [|by apply grows_upd_event].
  destruct (e_complete (ev s x)); [|done]. by apply grows_fire_new.
Qed.

Lemma grows_eventDone_chain thread fuel :
  ∀ s x, grows s (eventDone_chain fuel thread s x).
Proof.
  induction fuel as [|fuel IH]; intros s x; [done|].
  rewrite eventDone_chain_S. destruct (e_tracking (ev s x)) as [[c n]|]; [|done].
  cbv zeta.
  assert (H1 : grows s (upd_event (add_effects (-1)) x s))
    by by apply grows_upd_event.
  case_bool_decide; [done|].
  etrans; [exact H1|]. etrans; [apply grows_chain_round|apply IH].
Qed.

Lemma grows__eventDone thread s e err :
  grows s (_eventDone thread s e err).
Proof.
  unfold _eventDone. case_match; [done|].
  set (s1 := if e_alert_done (ev s e) then _ else s).
  assert (H1 : grows s s1).
  { subst s1. destruct (e_alert_done (ev s e)); [|done].
    by apply grows_fire_new. }
  set (s2 := if _ && e_success (ev s1 e) then _ else s1).
  assert (H2 : grows s1 s2).
  { subst s2. destruct (_ && e_success (ev s1 e)); [|done].
    by apply grows_fire_new. }
  etrans; [exact H1|]. etrans; [exact H2|]. apply grows_eventDone_chain.
Qed.

Lemma grows_waiting s s' e :
  grows s s' → waitingHandlers (ev s' e) = waitingHandlers (ev s e).
Proof.
  intros (_ & _ & [k Hk] & _). rewrite !waiting_waits, Hk.
  destruct (decide (e < length (waits s))%nat) as [Hlt|Hge].
  - by rewrite lookup_app_l.
  - rewrite lookup_app_r, (lookup_ge_None_2 (waits s)) by lia. simpl.
    destruct (replicate k 0 !! (e - length (waits s))%nat) as [z|] eqn:Hz;
      [|done].
    apply lookup_replicate in Hz as [-> _]. done.
Qed.

(** Such a step keeps the bookkeeping of [waitingHandlers]. *)
Lemma waiting_inv_grows q s s' :
  grows s s' → waiting_inv q s → waiting_inv q s'.
Proof.
  intros Hg Hinv. pose proof (grows_length _ _ Hg) as Hlen.
  pose proof (λ e, grows_waiting s s' e Hg) as Hw.
  destruct Hg as (Ht & Hgn & _ & qs & Hq & Hv).
  destruct Hinv as [Hc Hnd Hts Hqv]. split.
  - intros e. rewrite Hw. unfold live_tasks. rewrite Ht. apply Hc.
  - by rewrite Ht.
  - intros t Hin. rewrite Ht in Hin. specialize (Hts t Hin).
    destruct t as [e g|]; [|done]. destruct Hts as (He & body & Hb & Hf).
    split; [lia|]. exists body. by rewrite Hgn.
  - intros x Hx. rewrite Hq, (assoc_L (++)) in Hx.
    apply elem_of_app in Hx as [Hx|Hx]; [|by apply Hv].
    specialize (Hqv x Hx). lia.
Qed.

(** ** Suspended handlers: the dispatcher *)

Lemma run_program_flat thread p s g :
  flat_program p → (run_program thread s p).2 = OGen g → flat_gen g.
Proof.
  revert s. induction p as [| | |sc sp chs k IH]; intros s Hp; simpl;
    try done.
  - by intros [= <-].
  - by apply IH.
Qed.

Lemma live_snoc l t e :
  live (l ++ [t]) e
  = (live l e + if decide (task_event t = e) then 1 else 0)%nat.
Proof.
  unfold live. rewrite filter_app, length_app. f_equal.
  rewrite filter_cons, filter_nil. by case_decide.
Qed.

(** A handler returns a generator: [waitingHandlers] goes up by one and
    the task is registered. *)
Lemma waiting_inv_suspend q s event h g :
  (event < length (events s))%nat → flat_gen g → waiting_inv q s →
  waiting_inv q (after_call s event h (inr g)).1
  ∧ length (events (after_call s event h (inr g)).1) = length (events s).
Proof.
  intros Hev Hflat [Hc Hnd Hts Hqv]. unfold after_call, alloc_gen.
  set (task := length (gens s)).
  set (sC := upd_event promise_set event
               (upd_event (λ x, set_waiting (waitingHandlers x + 1) x) event
                  (set_gens (gens s ++ [g]) s))).
  assert (Hnew : Task2 event task ∉ _tasks s).
  { intros Hin. destruct (Hts _ Hin) as (_ & body & Hb & _).
    apply lookup_lt_Some in Hb. subst task. lia. }
  unfold registerTask. change (_tasks sC) with (_tasks s).
  rewrite bool_decide_eq_false_2 by done. cbn [fst].
  set (sD := set_tasks (_tasks s ++ [Task2 event task]) sC).
  assert (Hlen : length (events sD) = length (events s)).
  { change (events sD) with (events sC). subst sC.
    by rewrite !length_upd_event. }
  split; [|done]. split.
  - intros e. change (ev sD e) with (ev sC e).
    unfold live_tasks. change (_tasks sD) with (_tasks s ++ [Task2 event task]).
    rewrite live_snoc. cbn [task_event]. subst sC.
    destruct (decide (event = e)) as [<-|Hne].
    + rewrite !ev_upd_event_eq by (rewrite ?length_upd_event; done).
      change (waitingHandlers (ev s event) + 1
              = Z.of_nat (live (_tasks s) event + 1)).
      rewrite (Hc event). unfold live_tasks. lia.
    + rewrite !ev_upd_event_ne by done.
      change (waitingHandlers (ev s e) = Z.of_nat (live (_tasks s) e + 0)).
      rewrite (Hc e). unfold live_tasks. lia.
  - change (NoDup (_tasks s ++ [Task2 event task])).
    apply NoDup_app. split; [done|]. split.
    + intros t Hin Ht%list_elem_of_singleton. by subst t.
    + apply NoDup_singleton.
  - intros t Hin. change (t ∈ _tasks s ++ [Task2 event task]) in Hin.
    apply elem_of_app in Hin as [Hin|Hin%list_elem_of_singleton].
    + specialize (Hts t Hin). destruct t as [e g'|]; [|done].
      destruct Hts as (He & body & Hb & Hf).
      split; [by rewrite Hlen|]. exists body. split; [|done].
      change (gens sD) with (gens s ++ [g]).
      by apply lookup_app_l_Some.
    + subst t. split; [by rewrite Hlen|]. exists g. split; [|done].
      change (gens sD) with (gens s ++ [g]).
      by apply list_lookup_middle.
  - intros x Hx. change (_queue sD) with (_queue s) in Hx.
    rewrite Hlen. by apply Hqv.
Qed.

Lemma waiting_inv_after_call q s event h v :
  waiting_inv q s →
  waiting_inv q (after_call s event h (inl v)).1
  ∧ (length (events s) ≤ length (events (after_call s event h (inl v)).1))%nat.
Proof.
  intros Hinv. unfold after_call. destruct (is_not_None v); simpl; [|done].
  split; [|by rewrite length_alter].
  eapply waiting_inv_grows; [|done]. by apply grows_upd_event.
Qed.

Lemma waiting_inv_dispatch_one env thread s event h err s' err' brk q :
  flat_handlers env → (event < length (events s))%nat →
  waiting_inv q s →
  dispatch_one env thread s event h err = Ok (s', err', brk) →
  waiting_inv q s' ∧ (length (events s) ≤ length (events s'))%nat.
Proof.
  intros Hflat Hev Hinv. unfold dispatch_one.
  set (s0 := upd_event (set_handler (Some h)) event s).
  assert (Hg0 : grows s s0) by by apply grows_upd_event.
  pose proof (grows_run_program thread (code env s0 h event) s0) as Hg1.
  pose proof (run_program_flat thread (code env s0 h event) s0) as Hfl.
  destruct (run_program thread s0 (code env s0 h event)) as [s1 out].
  simpl in Hg1, Hfl.
  set (s1c := set_calls _ s1).
  assert (Hg1c : grows s s1c).
  { etrans; [exact Hg0|]. etrans; [exact Hg1|]. by apply grows_frame. }
  pose proof (waiting_inv_grows q _ _ Hg1c Hinv) as Hinv1.
  pose proof (grows_length _ _ Hg1c) as Hlen1.
  destruct out as [v|g|e].
  - pose proof (waiting_inv_after_call q s1c event h v Hinv1) as [Hi Hl].
    destruct (after_call s1c event h (inl v)) as [s2 b]. cbn [fst] in Hi, Hl.
    intros [= <- _ _]. split; [done|lia].
  - pose proof (waiting_inv_suspend q s1c event h g ltac:(lia)
                  (Hfl g (Hflat _ _ _) eq_refl) Hinv1) as [Hi Hl].
    destruct (after_call s1c event h (inr g)) as [s2 b]. cbn [fst] in Hi, Hl.
    intros [= <- _ _]. split; [done|lia].
  - destruct (is_fatal e); [done|].
    set (s2 := upd_event errors_set event s1c).
    assert (Hg2 : grows s1c s2) by by apply grows_upd_event.
    set (s3 := if e_failure (ev s2 event) then _ else s2).
    assert (Hg3 : grows s2 s3).
    { subst s3. destruct (e_failure (ev s2 event)); [|done].
      by apply grows_fire_new. }
    set (s4 := fire_new _ _ _ _ s3).
    assert (Hg4 : grows s3 s4) by by apply grows_fire_new.
    assert (Hg : grows s1c s4) by (etrans; [exact Hg2|]; by etrans).
    pose proof (grows_length _ _ Hg) as Hlen4.
    pose proof (waiting_inv_after_call q s4 event h (exc_info e)
                  (waiting_inv_grows q _ _ Hg Hinv1)) as [Hi Hl].
    destruct (after_call s4 event h (inl (exc_info e))) as [s5 b].
    cbn [fst] in Hi, Hl. intros [= <- _ _]. split; [done|lia].
Qed.

Lemma waiting_inv_dispatch_loop env thread event q hs :
  flat_handlers env →
  ∀ s err s' err',
    (event < length (events s))%nat → waiting_inv q s →
    dispatch_loop env thread s event hs err = Ok (s', err') →
    waiting_inv q s' ∧ (length (events s) ≤ length (events s'))%nat.
Proof.
  intros Hflat. induction hs as [|h hs IH]; intros s err s' err' Hev Hinv;
    simpl.
  - by intros [= <- _].
  - destruct (dispatch_one env thread s event h err)
      as [[[s1 err1] brk]|e [[s1 err1] brk]] eqn:Hone; [|done].
    destruct (waiting_inv_dispatch_one _ _ _ _ _ _ _ _ _ _ Hflat Hev Hinv Hone)
      as [Hinv1 Hlen1].
    destruct brk.
    + by intros [= <- _].
    + intros Hloop.
      destruct (IH s1 err1 s' err' ltac:(lia) Hinv1 Hloop) as [Hinv' Hlen'].
      split; [done|lia].
Qed.

Lemma waiting_inv__dispatcher env thread q s e chs s' :
  flat_handlers env → waiting_inv ((e, chs) :: q) s →
  _dispatcher env thread s e chs = Ok s' → waiting_inv q s'.
Proof.
  intros Hflat Hinv. unfold _dispatcher.
  assert (He : (e < length (events s))%nat).
  { apply (wi_queue _ _ Hinv (e, chs)). left. }
  assert (Hinv0 : waiting_inv q s).
  { destruct Hinv as [Hc Hnd Hts Hqv]. split; try done.
    intros x Hx. apply Hqv. by right. }
  set (s0 := set_currently_handling (Some e) s).
  set (s1 := if e_complete (ev s0 e) then _ else s0).
  assert (Hg1 : grows s s1).
  { etrans; [by apply (grows_frame s s0)|]. subst s1.
    destruct (e_complete (ev s0 e)); [|done]. by apply grows_upd_event. }
  assert (Hg2 : grows s1 (lookup_handlers s1 e chs).1).
  { unfold lookup_handlers. case_match; [done|]. by apply grows_frame. }
  pose proof (grows_trans _ _ _ Hg1 Hg2) as Hg. clear Hg1 Hg2.
  destruct (lookup_handlers s1 e chs) as [s2 hs]. cbn [fst] in Hg.
  pose proof (grows_length _ _ Hg) as Hlen.
  destruct (dispatch_loop env thread s2 e hs None)
    as [[s3 err]|ex [s3 err]] eqn:Hloop; [|done].
  destruct (waiting_inv_dispatch_loop env thread e q hs Hflat s2 None s3 err
              ltac:(lia) (waiting_inv_grows q _ _ Hg Hinv0) Hloop)
    as [Hinv3 _].
  intros [= <-]. eapply waiting_inv_grows; [apply grows__eventDone|].
  eapply waiting_inv_grows; [|exact Hinv3]. by apply grows_frame.
Qed.

Lemma waiting_inv_flush_loop env thread q :
  flat_handlers env →
  ∀ s s', waiting_inv q s → flush_loop env thread s q = Ok s' →
          waiting_inv [] s'.
Proof.
  intros Hflat. induction q as [|[e chs] q IH]; intros s s' Hinv; simpl.
  - by intros [= <-].
  - destruct (_dispatcher env thread s e chs) as [s1|ex s1] eqn:Hd; [|done].
    apply IH. by eapply waiting_inv__dispatcher.
Qed.

Lemma waiting_inv__flush env thread s s' :
  flat_handlers env → waiting_inv [] s →
  _flush env thread s = Ok s' → waiting_inv [] s'.
Proof.
  intros Hflat Hinv. unfold _flush.
  set (b := bool_decide (_executing_thread s = None)).
  set (s1 := if b then set_executing_thread (Some thread) s else s).
  assert (H1 : waiting_inv (_queue s1) (set_queue [] s1)).
  { assert (Hs1 : _tasks s1 = _tasks s ∧ gens s1 = gens s
                  ∧ events s1 = events s ∧ _queue s1 = _queue s).
    { subst s1. by destruct b. }
    destruct Hs1 as (Ht & Hgn & He & Hq).
    destruct Hinv as [Hc Hnd Hts Hqv]. split.
    - intros e. unfold live_tasks, ev in *. simpl. rewrite He, Ht. apply Hc.
    - simpl. by rewrite Ht.
    - intros t Hin. simpl in Hin. rewrite Ht in Hin. specialize (Hts t Hin).
      destruct t as [e g|]; [|done]. simpl in *. by rewrite He, Hgn.
    - intros x Hx. simpl in *. rewrite app_nil_r, Hq in Hx. rewrite He.
      by apply Hqv. }
  destruct (flush_loop env thread (set_queue [] s1) (_queue s1))
    as [s2|ex s2] eqn:Hloop; [|done].
  pose proof (waiting_inv_flush_loop env thread _ Hflat _ _ H1 Hloop) as H2.
  intros [= <-]. destruct b; [|done].
  eapply waiting_inv_grows; [|exact H2]. by apply grows_frame.
Qed.

(** ** Suspended handlers: the task runner *)

Lemma gen_run_flat thread body :
  ∀ s, flat_gen body →
       grows s (gen_run thread s body).1.1
       ∧ flat_gen (gen_run thread s body).1.2
       ∧ ((gen_run thread s body).2 = GOStop
          ∨ ∃ v, (gen_run thread s body).2 = GOYield (YValue v)).
Proof.
  induction body as [|e|sc sp chs k IH|y k IH]; intros s Hflat; simpl in *.
  - split; [done|]. split; [done|]. by left.
  - done.
  - destruct (IH (fire_new thread sc (new_event sp) chs s) Hflat)
      as (Hg & Hf & Hout).
    split; [|done]. etrans; [|exact Hg]. by apply grows_fire_new.
  - destruct y as [v| |]; try done.
    split; [done|]. split; [done|]. right. by exists v.
Qed.

Lemma waiting_inv_gen_next q thread s g body :
  gens s !! g = Some body → flat_gen body → waiting_inv q s →
  waiting_inv q (gen_next thread s g).1
  ∧ _tasks (gen_next thread s g).1 = _tasks s
  ∧ ((gen_next thread s g).2 = RStop ∨ ∃ v, (gen_next thread s g).2 = RYield v).
Proof.
  intros Hb Hflat Hinv. unfold gen_next. rewrite Hb.
  destruct (gen_run_flat thread body s Hflat) as (Hg & Hrest & Hout).
  destruct (gen_run thread s body) as [[s1 rest] out]. cbn [fst snd] in *.
  set (s2 := set_gens (<[g:=rest]> (gens s1)) s1).
  assert (Hinv2 : waiting_inv q s2).
  { destruct (waiting_inv_grows q _ _ Hg Hinv) as [Hc Hnd Hts Hqv]. split.
    - done.
    - done.
    - intros t Hin. specialize (Hts t Hin). destruct t as [e g'|]; [|done].
      destruct Hts as (He & body' & Hb' & Hf'). split; [done|].
      change (gens s2) with (<[g:=rest]> (gens s1)).
      destruct (decide (g = g')) as [<-|Hne].
      + exists rest. split; [|done]. apply list_lookup_insert_eq.
        by eapply lookup_lt_Some.
      + exists body'. split; [|done]. by rewrite list_lookup_insert_ne.
    - done. }
  assert (Hts2 : _tasks s2 = _tasks s) by apply Hg.
  destruct Hout as [->|[v ->]].
  - split; [done|]. split; [done|]. by left.
  - split; [done|]. split; [done|]. right. by exists v.
Qed.

Lemma elem_of_unregister (l : list Task) t0 t :
  t ∈ List.filter (λ u, negb (bool_decide (u = t0))) l ↔ t ∈ l ∧ t ≠ t0.
Proof.
  rewrite !list_elem_of_In, filter_In. split; intros [Hin Hne]; split;
    try done.
  - intros ->. by rewrite bool_decide_eq_true_2 in Hne.
  - by rewrite bool_decide_eq_false_2.
Qed.

Lemma unregister_notin (l : list Task) t0 :
  t0 ∉ l → List.filter (λ u, negb (bool_decide (u = t0))) l = l.
Proof.
  induction l as [|u l IH]; intros Hnin; simpl; [done|].
  apply not_elem_of_cons in Hnin as [Hne Hnin].
  rewrite bool_decide_eq_false_2 by done. simpl. by rewrite IH.
Qed.

Lemma NoDup_unregister (l : list Task) t0 :
  NoDup l → NoDup (List.filter (λ u, negb (bool_decide (u = t0))) l).
Proof.
  induction 1 as [|u l Hnin Hnd IH]; simpl; [constructor|].
  destruct (negb (bool_decide (u = t0))); [|done].
  constructor; [|done]. rewrite elem_of_unregister. by intros [? _].
Qed.

Lemma live_cons t l e :
  live (t :: l) e
  = ((if decide (task_event t = e) then 1 else 0) + live l e)%nat.
Proof. unfold live. rewrite filter_cons. by case_decide. Qed.

Lemma live_unregister (l : list Task) t0 e :
  NoDup l → t0 ∈ l →
  (live (List.filter (λ u, negb (bool_decide (u = t0))) l) e
   + (if decide (task_event t0 = e) then 1 else 0) = live l e)%nat.
Proof.
  induction 1 as [|u l Hnin Hnd IH]; intros Hin; [by apply elem_of_nil in Hin|].
  simpl. rewrite live_cons. destruct (decide (u = t0)) as [->|Hne].
  - rewrite bool_decide_eq_true_2 by done. simpl.
    rewrite unregister_notin by done. lia.
  - rewrite bool_decide_eq_false_2 by done. simpl. rewrite live_cons.
    apply elem_of_cons in Hin as [->|Hin]; [done|].
    specialize (IH Hin). lia.
Qed.

(** A task ends: [waitingHandlers] goes down by one and the task is
    unregistered. *)
Lemma waiting_inv_task_stopped q thread s event task :
  Task2 event task ∈ _tasks s → waiting_inv q s →
  waiting_inv q (task_stopped thread s event task None)
  ∧ ∀ t, t ∈ _tasks s → t ≠ Task2 event task →
         t ∈ _tasks (task_stopped thread s event task None).
Proof.
  intros Hin [Hc Hnd Hts Hqv]. unfold task_stopped.
  destruct (Hts _ Hin) as (Hev & _).
  set (sA := upd_event (λ x, set_waiting (waitingHandlers x - 1) x) event s).
  set (sB := unregisterTask (Task2 event task) sA).
  assert (HtB : _tasks sB
                = List.filter (λ u, negb (bool_decide (u = Task2 event task)))
                              (_tasks s)) by done.
  assert (Hlen : length (events sB) = length (events s)).
  { change (events sB) with (events sA). subst sA.
    by rewrite length_upd_event. }
  assert (HinvB : waiting_inv q sB).
  { split.
    - intros e. unfold live_tasks. rewrite HtB.
      pose proof (live_unregister (_tasks s) (Task2 event task) e Hnd Hin)
        as Hlive. cbn [task_event] in Hlive.
      change (ev sB e) with (ev sA e). subst sA.
      destruct (decide (event = e)) as [<-|Hne].
      + rewrite ev_upd_event_eq by done.
        change (waitingHandlers (ev s event) - 1
                = Z.of_nat (live (List.filter
                    (λ u, negb (bool_decide (u = Task2 event task)))
                    (_tasks s)) event)).
        rewrite (Hc event). unfold live_tasks. lia.
      + rewrite ev_upd_event_ne by done. rewrite (Hc e).
        unfold live_tasks. lia.
    - rewrite HtB. by apply NoDup_unregister.
    - intros t Ht. rewrite HtB in Ht. apply elem_of_unregister in Ht as [Ht _].
      specialize (Hts t Ht). destruct t as [e g|]; [|done].
      destruct Hts as (He & Hb). split; [by rewrite Hlen|done].
    - intros x Hx. rewrite Hlen. by apply Hqv. }
  assert (Hg : grows sB (if waitingHandlers (ev sB event) =? 0
                         then _eventDone thread (upd_event inform event sB)
                                         event None
                         else sB)).
  { case_match; [|done]. etrans; [|apply grows__eventDone].
    by apply grows_upd_event. }
  split.
  - by eapply waiting_inv_grows.
  - intros t Ht Hne. destruct Hg as (-> & _). rewrite HtB.
    by apply elem_of_unregister.
Qed.

Lemma waiting_inv_processTask q thread fuel s event task :
  Task2 event task ∈ _tasks s → waiting_inv q s →
  waiting_inv q (processTask (S fuel) thread s event task None)
  ∧ ∀ t, t ∈ _tasks s → t ≠ Task2 event task →
         t ∈ _tasks (processTask (S fuel) thread s event task None).
Proof.
  intros Hin Hinv. cbn [processTask].
  destruct (wi_tasks _ _ Hinv _ Hin) as (Hev & body & Hb & Hflat).
  destruct (waiting_inv_gen_next q thread s task body Hb Hflat Hinv)
    as (Hinv1 & Hts1 & Hr).
  destruct (gen_next thread s task) as [s1 r]. cbn [fst snd] in *.
  destruct Hr as [->|[v ->]].
  - rewrite <- Hts1 in Hin.
    destruct (waiting_inv_task_stopped q thread s1 event task Hin Hinv1)
      as [Hinv2 Hkeep].
    split; [done|]. intros t Ht Hne. apply Hkeep; [|done]. by rewrite Hts1.
  - assert (Hg : grows s1 (if is_not_None v
                           then upd_event (value_set v) event s1 else s1)).
    { case_match; [|done]. by apply grows_upd_event. }
    split; [by eapply waiting_inv_grows|].
    intros t Ht Hne. destruct Hg as (-> & _). by rewrite Hts1.
Qed.

Lemma waiting_inv_run_tasks q thread ts :
  ∀ s, NoDup ts → (∀ t, t ∈ ts → t ∈ _tasks s) → waiting_inv q s →
       waiting_inv q (run_tasks thread s ts).
Proof.
  induction ts as [|t ts IH]; intros s Hnd Hsub Hinv; [done|].
  apply NoDup_cons in Hnd as [Hnin Hnd].
  assert (Hin : t ∈ _tasks s) by (apply Hsub; left).
  pose proof (wi_tasks _ _ Hinv _ Hin) as Hft.
  destruct t as [event task|]; [|done]. cbn [run_tasks].
  destruct (waiting_inv_processTask q thread (gens_size s) s event task
              Hin Hinv) as [Hinv1 Hkeep].
  apply IH; [done| |done].
  intros t Ht. apply Hkeep.
  - apply Hsub. by right.
  - intros ->. done.
Qed.

Lemma grows_run_ticks env thread fs :
  ∀ s s', run_ticks env thread s fs = Ok s' → grows s s'.
Proof.
  induction fs as [|f fs IH]; intros s s'; simpl.
  - by intros [= <-].
  - pose proof (grows_run_program thread (tick_code env s f) s) as Hg.
    destruct (run_program thread s (tick_code env s f)) as [s1 out].
    cbn [fst] in Hg. destruct out as [v|g|e].
    + intros Hr. etrans; [exact Hg|by apply IH].
    + intros Hr. etrans; [exact Hg|by apply IH].
    + destruct (is_fatal e); [done|]. intros Hr.
      etrans; [exact Hg|]. etrans; [|by apply IH]. by apply grows_fire_new.
Qed.

Lemma reduce_time_left_fields t x :
  e_tracking (reduce_time_left t x) = e_tracking x
  ∧ waitingHandlers (reduce_time_left t x) = waitingHandlers x.
Proof. unfold reduce_time_left. by case_match. Qed.

(** The [GenerateEvents] token that [tick] fires. *)
Lemma grows_generate thread timeout s :
  grows s
    (if _running s then
       let token :=
         set_time_left timeout
           (core_event KGenerateEvents "generate_events" []) in
       let token :=
         if bool_decide (0 < length (_ticks s))%nat
         then reduce_time_left TIMEOUT token else token in
       let token :=
         if bool_decide (0 < length (_tasks s))%nat
            || bool_decide (0 < length (_queue s))%nat
         then reduce_time_left 0 token else token in
       let '(s, g) := alloc_event token s in
       let s := set_generate_event (Some g) s in
       fireEvent thread (root_channel s) s g [ChanName "*"]
     else s).
Proof.
  destruct (_running s); [|done]. cbv zeta.
  set (t0 := set_time_left timeout _).
  set (t1 := if bool_decide (0 < length (_ticks s))%nat then _ else t0).
  set (t2 := if _ || _ then reduce_time_left 0 t1 else t1).
  assert (H1 : e_tracking t1 = None ∧ waitingHandlers t1 = 0).
  { subst t1. case_match; [|done].
    by destruct (reduce_time_left_fields TIMEOUT t0) as [-> ->]. }
  assert (H2 : e_tracking t2 = None ∧ waitingHandlers t2 = 0).
  { subst t2. case_match; [|done].
    by destruct (reduce_time_left_fields 0 t1) as [-> ->]. }
  change (grows s (fire_new thread (root_channel s) t2 [ChanName "*"]
                     (set_generate_event (Some (length (events s))) s))).
  etrans; [|apply grows_fire_new; apply H2]. by apply grows_frame.
Qed.

Lemma waiting_inv_tick env thread timeout s s' :
  flat_handlers env → waiting_inv [] s →
  tick env thread timeout s = Ok s' → waiting_inv [] s'.
Proof.
  intros Hflat Hinv. unfold tick.
  set (s0 := set_executing_thread (Some thread) s).
  assert (Hinv0 : waiting_inv [] s0).
  { eapply waiting_inv_grows; [|exact Hinv]. by apply grows_frame. }
  change (_ticks s0) with (_ticks s).
  destruct (run_ticks env thread s0 (_ticks s)) as [s1|ex s1] eqn:Hticks;
    [|done].
  pose proof (waiting_inv_grows [] _ _ (grows_run_ticks _ _ _ _ _ Hticks)
                Hinv0) as Hinv1.
  pose proof (waiting_inv_run_tasks [] thread (_tasks s1) s1
                (wi_nodup _ _ Hinv1) (λ t H, H) Hinv1) as Hinv2.
  set (s2 := run_tasks thread s1 (_tasks s1)) in *.
  pose proof (waiting_inv_grows [] _ _ (grows_generate thread timeout s2)
                Hinv2) as Hinv3.
  set (s3 := if _running s2 then _ else s2) in *.
  case_bool_decide.
  - destruct (_flush env thread s3) as [s4|ex s4] eqn:Hfl; [|done].
    intros [= <-].
    eapply waiting_inv_grows;
      [|exact (waiting_inv__flush env thread s3 s4 Hflat Hinv3 Hfl)].
    by apply grows_frame.
  - intros [= <-]. eapply waiting_inv_grows; [|exact Hinv3].
    by apply grows_frame.
Qed.

Lemma waiting_inv_ticks env thread n :
  flat_handlers env →
  ∀ s s', waiting_inv [] s → ticks env thread n s = Ok s' →
          waiting_inv [] s'.
Proof.
  intros Hflat. induction n as [|n IH]; intros s s' Hinv; simpl.
  - by intros [= <-].
  - destruct (tick env thread (-1) s) as [s1|ex s1] eqn:Ht; [|done].
    apply IH. by eapply waiting_inv_tick.
Qed.


(** A task fails: it is unregistered and [waitingHandlers] stays. *)
Lemma task_failed_waiting thread s event task value e i :
  waitingHandlers (ev (task_failed thread s event task value e) i)
  = waitingHandlers (ev s i)
  ∧ Task2 event task ∉ _tasks (task_failed thread s event task value e).
Proof.
  unfold task_failed.
  set (sA := unregisterTask (Task2 event task) s).
  set (sB := upd_event inform event
               (upd_event errors_set event
                  (upd_event (value_set value) event sA))).
  assert (HB : grows sA sB).
  { subst sB. etrans; [|by apply grows_upd_event].
    etrans; [|by apply grows_upd_event]. by apply grows_upd_event. }
  set (sC := if e_failure (ev sB event) then _ else sB).
  assert (HC : grows sB sC).
  { subst sC. destruct (e_failure (ev sB event)); [|done].
    by apply grows_fire_new. }
  assert (Hg : grows sA (fire_new thread (root_channel sC)
                           (core_event (KError (e_handler (ev sC event)))
                                       "error" [exc_info e]) [] sC)).
  { etrans; [exact HB|]. etrans; [exact HC|]. by apply grows_fire_new. }
  split.
  - by rewrite (grows_waiting _ _ i Hg).
  - destruct Hg as (-> & _). intros Hin.
    apply elem_of_unregister in Hin as [_ Hne]. done.
Qed.





(** ** Completion over a run of the manager *)













(** * Further properties of the code *)

(** ** The wildcard channel *)

Lemma channel_matches_star h : channel_matches (ChanName "*") h = true.
Proof. done. Qed.

Lemma channel_matches_on_star c h :
  handler_channel h = Some "*" → channel_matches c h = true.
Proof.
  intros Hh. destruct c as [c|m]; [|done]. unfold channel_matches.
  rewrite (bool_decide_eq_true_2 (handler_channel h = Some "*")) by done.
  by rewrite orb_true_r.
Qed.

(** X1: an event fired on ["*"] reaches every handler that any other
    string channel reaches: [getHandlers] for ["*"] returns, without
    looking at channels, the ["*"] bucket, the bucket of the event's name
    and the globals of every manager of the tree; and a handler that
    listens on ["*"] is returned for every string channel. *)
Theorem getHandlers_wildcard (self : Manager) (name c : string) :
  getHandlers self name (ChanName c) ⊆ getHandlers self name (ChanName "*")
  ∧ (∀ h, h ∈ getHandlers self name (ChanName "*") ↔
          ∃ m, m ∈ managers self
               ∧ (h ∈ default ∅ (_handlers m !! "*")
                  ∨ h ∈ default ∅ (_handlers m !! name)
                  ∨ h ∈ _globals m))
  ∧ (∀ h m, m ∈ managers self → handler_channel h = Some "*" →
            h ∈ default ∅ (_handlers m !! "*")
            ∨ h ∈ default ∅ (_handlers m !! name) →
            h ∈ getHandlers self name (ChanName c)).
Proof.
  split; [|split].
  - intros h. rewrite !elem_of_getHandlers_name.
    intros (m & Hm & Hh). exists m. split; [done|].
    apply elem_of_own_handlers in Hh as [[_ Hb]|Hg];
      apply elem_of_own_handlers; [left|by right].
    by split.
  - intros h. rewrite elem_of_getHandlers_name. split.
    + intros (m & Hm & Hh). exists m. split; [done|].
      apply elem_of_own_handlers in Hh as [[_ [?|?]]|?]; auto.
    + intros (m & Hm & Hh). exists m. split; [done|].
      apply elem_of_own_handlers. destruct Hh as [?|[?|?]]; auto.
  - intros h m Hm Hstar Hb. apply elem_of_getHandlers_name.
    exists m. split; [done|]. apply elem_of_own_handlers. left.
    split; [by apply channel_matches_on_star|done].
Qed.

(** ** How often a handler is in the list *)

Lemma filter_eq_notin (l : list Handler) h :
  h ∉ l → filter (λ x, x = h) l = [].
Proof.
  induction l as [|x l IH]; intros Hnin; [done|].
  apply not_elem_of_cons in Hnin as [Hne Hnin].
  rewrite filter_cons, decide_False by done. by apply IH.
Qed.

Lemma length_filter_elements (X : gset Handler) h :
  length (filter (λ x, x = h) (elements X))
  = if decide (h ∈ X) then 1%nat else 0%nat.
Proof.
  assert (Hnd : NoDup (elements X)) by apply NoDup_elements.
  assert (Hin : h ∈ X ↔ h ∈ elements X) by by rewrite elem_of_elements.
  destruct (decide (h ∈ X)) as [HX|HX].
  - apply Hin in HX. clear Hin. induction Hnd as [|x l Hx Hnd IH].
    + by apply elem_of_nil in HX.
    + rewrite filter_cons. apply elem_of_cons in HX as [->|HX].
      * rewrite decide_True by done. simpl. by rewrite filter_eq_notin.
      * rewrite decide_False by (intros ->; done). by apply IH.
  - rewrite filter_eq_notin; [done|]. by rewrite <- Hin.
Qed.

Lemma length_filter_resolve root name channels h :
  length (filter (λ x, x = h) (resolve root name channels))
  = length (filter (λ c, h ∈ getHandlers root name c) channels).
Proof.
  unfold resolve. induction channels as [|c cs IH]; [done|]. simpl.
  rewrite filter_app, length_app, IH, length_filter_elements, filter_cons.
  by destruct (decide (h ∈ getHandlers root name c)).
Qed.

Lemma length_filter_c_handler (tr : list Call) h :
  length (filter (λ c, c_handler c = h) tr)
  = length (filter (λ x, x = h) (List.map c_handler tr)).
Proof.
  induction tr as [|c tr IH]; [done|]. simpl. rewrite !filter_cons.
  destruct (decide (c_handler c = h)); simpl; by rewrite IH.
Qed.

(** X2: the dispatcher does not merge what [getHandlers] returns for the
    channels of an event: on a cache miss a handler is in the list as often
    as the event has channels for which [getHandlers] returns it, and when
    no call ends the loop it is called that often. *)
Theorem handler_called_per_channel (env : Env) (thread : nat) (s : State)
    (event : nat) (channels : list Channel) (h : Handler) :
  _cache s !! (e_name (ev s event), List.map chan_key channels) = None →
  let tr := invoked env thread s event channels in
  let matching :=
    filter (λ c, h ∈ getHandlers (tree s) (e_name (ev s event)) c) channels in
  length (filter (λ x, x = h) (dispatch_order s event channels))
  = length matching
  ∧ (Forall (λ c, ends_loop c = false) tr →
     length (filter (λ c, c_handler c = h) tr) = length matching).
Proof.
  intros Hmiss tr matching.
  assert (Hhs : dispatch_order s event channels
                = sorted_desc (resolve (tree s) (e_name (ev s event)) channels)).
  { unfold dispatch_order, lookup_handlers. by rewrite Hmiss. }
  assert (Hcount : length (filter (λ x, x = h)
                             (dispatch_order s event channels))
                   = length matching).
  { rewrite Hhs, (sorted_desc_perm _). apply length_filter_resolve. }
  split; [done|]. intros Hno.
  destruct (dispatcher_trace env thread s event channels)
    as (_ & Hmap & _ & _ & Hshort & _). fold tr in Hmap, Hshort.
  assert (Hlen : length tr = length (dispatch_order s event channels)).
  { destruct (decide (length tr < length (dispatch_order s event channels))%nat)
      as [Hlt|Hge].
    - destruct (Hshort Hlt) as (c & Hlast & Hend).
      rewrite Forall_forall in Hno.
      rewrite (Hno c) in Hend; [done|].
      apply last_Some in Hlast as [l' ->]. apply elem_of_app. right. left.
    - apply (f_equal length) in Hmap.
      rewrite length_map, length_take in Hmap. lia. }
  rewrite length_filter_c_handler, Hmap, Hlen, firstn_all. done.
Qed.

Lemma handler_called_per_channel_witness :
  length (filter (λ c, c_handler c
                       = bind_method (tree ex_both_fired) ex_on_both)
            (invoked ex_env 0 ex_both_fired 0 [ChanName "a"; ChanName "b"]))
  = 2%nat.
Proof.
  refine (eq_trans
    (proj2 (handler_called_per_channel ex_env 0 ex_both_fired 0
              [ChanName "a"; ChanName "b"]
              (bind_method (tree ex_both_fired) ex_on_both) _) _) _).
  - vm_compute. reflexivity.
  - vm_compute. repeat constructor.
  - vm_compute. reflexivity.
Defined.

(** ** Registering a handler *)

Lemma add_names_lookup_gen method H ns k :
  add_names method H ns !! k =
  if decide (k ∈ ns) then Some (default ∅ (H !! k) ∪ {[method]}) else H !! k.
Proof.
  revert H. induction ns as [|n ns IH]; intros H; [done|].
  change (add_names method H (n :: ns))
    with (add_names method (<[n := default ∅ (H !! n) ∪ {[method]}]> H) ns).
  rewrite IH. destruct (decide (k = n)) as [->|Hne].
  - rewrite lookup_insert_eq. rewrite (decide_True (P := n ∈ n :: ns)) by left.
    destruct (decide (n ∈ ns)); [|done]. simpl. f_equal.
    by rewrite <- (assoc_L (∪)), (idemp_L (∪)).
  - rewrite lookup_insert_ne by done.
    destruct (decide (k ∈ ns)) as [Hk|Hk].
    + by rewrite decide_True by by right.
    + rewrite decide_False; [done|]. by intros [?|?]%elem_of_cons.
Qed.

Lemma bind_method_fields self f :
  h_names (bind_method self f) = h_names f
  ∧ h_name (bind_method self f) = h_name f
  ∧ h_channel (bind_method self f) = h_channel f.
Proof. unfold bind_method. by destruct (isfunction f). Qed.

Lemma bind_method_owner self self' f :
  m_id self' = m_id self → m_channel self' = m_channel self →
  bind_method self' f = bind_method self f.
Proof. unfold bind_method, self_owner. by intros -> ->. Qed.

(** The fields of the manager after [addHandler]. *)
Lemma addHandler_fields self cache f :
  let m := bind_method self f in
  let self' := (addHandler self cache f).1 in
  let global := bool_decide (h_names m = [] ∧ h_channel m = Some "*") in
  m_id self' = m_id self ∧ m_channel self' = m_channel self
  ∧ components self' = components self
  ∧ attrs self' = <[h_name m := m]> (attrs self)
  ∧ _globals self' = (if global then _globals self ∪ {[m]} else _globals self)
  ∧ _handlers self'
    = (if global then _handlers self
       else add_names m (_handlers self)
              match h_names m with [] => ["*"] | ns => ns end).
Proof.
  intros m self' global. subst self' global. unfold addHandler. fold m.
  cbn [fst]. destruct (h_names m) as [|n ns] eqn:Hn.
  - destruct (decide (h_channel m = Some "*")) as [Hc|Hc].
    + rewrite bool_decide_eq_true_2 by done. by destruct self.
    + rewrite bool_decide_eq_false_2 by (by intros [_ ?]). by destruct self.
  - rewrite bool_decide_eq_false_2 by (by intros [? _]).
    rewrite foldl_bucket_add. by destruct self.
Qed.

Lemma Manager_eq (a b : Manager) :
  m_id a = m_id b → m_channel a = m_channel b → _globals a = _globals b →
  _handlers a = _handlers b → attrs a = attrs b →
  components a = components b → a = b.
Proof. destruct a, b. simpl. by intros -> -> -> -> -> ->. Qed.

Lemma channel_matches_global c m :
  h_channel m = Some "*" → channel_matches c m = true.
Proof.
  intros Hc. apply channel_matches_on_star. unfold handler_channel.
  by rewrite Hc.
Qed.

Lemma registered_for_true m name channel :
  registered_for m name channel = true ↔
  (h_names m = [] ∨ name ∈ h_names m ∨ "*" ∈ h_names m)
  ∧ channel_matches channel m = true.
Proof.
  unfold registered_for.
  rewrite andb_true_iff, !orb_true_iff, !bool_decide_eq_true. tauto.
Qed.

Lemma elem_of_own_handlers_added self cache f name channel h :
  let m := bind_method self f in
  h ∈ own_handlers (addHandler self cache f).1 name channel ↔
  h ∈ own_handlers self name channel
  ∨ (h = m ∧ registered_for m name channel = true).
Proof.
  intros m.
  destruct (addHandler_fields self cache f)
    as (_ & _ & _ & _ & Hg & Hh). fold m in Hg, Hh.
  rewrite !elem_of_own_handlers, Hg, Hh, registered_for_true.
  case_bool_decide as Hglob.
  - destruct Hglob as [Hn Hc].
    pose proof (channel_matches_global channel m Hc) as Hcm.
    rewrite elem_of_union, elem_of_singleton. naive_solver.
  - set (ns' := match h_names m with [] => ["*"] | ns => ns end).
    assert (Hstar : "*" ∈ ns' ↔ h_names m = [] ∨ "*" ∈ h_names m).
    { subst ns'. destruct (h_names m) as [|n ns].
      - split; [by left|]. intros _. left.
      - split; [by right|]. by intros [?|?]. }
    assert (Hname : name ∈ ns' ↔
                    (h_names m = [] ∧ name = "*") ∨ name ∈ h_names m).
    { subst ns'. destruct (h_names m) as [|n ns].
      - rewrite list_elem_of_singleton. split; [by left|].
        by intros [[_ ?]|?%elem_of_nil].
      - split; [by right|]. by intros [[? _]|?]. }
    rewrite !add_names_lookup_gen.
    destruct (decide ("*" ∈ ns')) as [Hs|Hs];
      destruct (decide (name ∈ ns')) as [Hnm|Hnm]; simpl;
      rewrite ?elem_of_union, ?elem_of_singleton.
    + apply Hstar in Hs. apply Hname in Hnm. naive_solver.
    + apply Hstar in Hs.
      assert (¬ name ∈ h_names m) by (intros ?; apply Hnm, Hname; by right).
      naive_solver.
    + apply Hname in Hnm.
      assert (h_names m ≠ [] ∧ ¬ "*" ∈ h_names m) as [??].
      { split; intros ?; apply Hs, Hstar; auto. }
      naive_solver.
    + assert (h_names m ≠ [] ∧ ¬ "*" ∈ h_names m ∧ ¬ name ∈ h_names m)
        as (? & ? & ?).
      { split; [|split]; intros ?.
        - apply Hs, Hstar; auto.
        - apply Hs, Hstar; auto.
        - apply Hnm, Hname; auto. }
      naive_solver.
Qed.

(** X3: what [addHandler] adds to the answers of [getHandlers]: for a
    string channel, and for the manager itself as the channel, the bound
    handler is returned from now on exactly for the events it is
    registered for (all events when it has no names) on the channels it
    matches, and nothing else changes. *)
Theorem addHandler_getHandlers (self : Manager) (cache : Cache) (f : Handler)
    (name : string) (h : Handler) :
  let m := bind_method self f in
  let self' := (addHandler self cache f).1 in
  (∀ c, h ∈ getHandlers self' name (ChanName c) ↔
        h ∈ getHandlers self name (ChanName c)
        ∨ (h = m ∧ registered_for m name (ChanName c) = true))
  ∧ (∀ target, m_id target = m_id self →
       h ∈ getHandlers self' name (ChanManager target) ↔
       h ∈ getHandlers self name (ChanManager target)
       ∨ (h = m ∧ registered_for m name (ChanManager target) = true)).
Proof.
  intros m self'.
  destruct (addHandler_fields self cache f) as (Hid & _ & Hcs & _).
  fold self' in Hid, Hcs. split.
  - intros c. rewrite !getHandlers_name, Hcs, !elem_of_union.
    subst self'. rewrite elem_of_own_handlers_added. fold m. tauto.
  - intros target Ht.
    assert (H1 : getHandlers self' name (ChanManager target)
                 = own_handlers self' name (ChanManager target)).
    { destruct self'. simpl in *. rewrite bool_decide_eq_false_2; [done|].
      intros Hne. apply Hne. congruence. }
    assert (H2 : getHandlers self name (ChanManager target)
                 = own_handlers self name (ChanManager target)).
    { destruct self. simpl in *. rewrite bool_decide_eq_false_2; [done|].
      intros Hne. by apply Hne. }
    rewrite H1, H2. subst self'. apply elem_of_own_handlers_added.
Qed.

(** X4: registering a handler a second time changes nothing: the buckets
    are sets and a function is bound to the same object again. *)
Theorem addHandler_idempotent (self : Manager) (cache cache' : Cache)
    (f : Handler) :
  addHandler (addHandler self cache f).1 cache' f = addHandler self cache f.
Proof.
  set (self' := (addHandler self cache f).1).
  destruct (addHandler_fields self cache f) as (Hid & Hch & Hcs & Ha & Hg & Hh).
  destruct (addHandler_fields self' cache' f)
    as (Hid' & Hch' & Hcs' & Ha' & Hg' & Hh').
  fold self' in Hid, Hch, Hcs, Ha, Hg, Hh.
  rewrite (bind_method_owner self self' f Hid Hch) in Ha', Hg', Hh'.
  set (m := bind_method self f) in *.
  assert (Heq : (addHandler self' cache' f).1 = self').
  { apply Manager_eq; try congruence.
    - rewrite Hg', Hg. case_bool_decide; [|done].
      by rewrite <- (assoc_L (∪)), (idemp_L (∪)).
    - rewrite Hh', Hh. case_bool_decide; [done|].
      apply map_eq. intros k. rewrite !add_names_lookup_gen.
      destruct (decide (k ∈ _)); [|done]. simpl. f_equal.
      by rewrite <- (assoc_L (∪)), (idemp_L (∪)).
    - rewrite Ha', Ha. by rewrite insert_insert_eq. }
  change (addHandler self' cache' f) with ((addHandler self' cache' f).1, (∅ : Cache)).
  rewrite Heq. done.
Qed.

(** ** Removing a handler *)

Lemma remove_from_bucket_ok m self n :
  m ∈ default ∅ (_handlers self !! n) →
  ∃ self', remove_from_bucket m self n = Ok self'
    ∧ m_id self' = m_id self ∧ m_channel self' = m_channel self
    ∧ _globals self' = _globals self ∧ components self' = components self
    ∧ (∀ k, _handlers self' !! k
            = if decide (k = n) then bucket_without m self n
              else _handlers self !! k)
    ∧ attrs self' = (if decide (bucket_without m self n = None)
                     then delete (h_name m) (attrs self) else attrs self).
Proof.
  intros Hin. unfold remove_from_bucket, bucket_without.
  destruct (_handlers self !! n) as [b|] eqn:Hb; simpl in *;
    [|by apply not_elem_of_empty in Hin].
  rewrite decide_True by done.
  destruct (decide (b ∖ {[m]} = ∅)) as [He|He].
  - eexists. split; [done|]. repeat split; try by destruct self.
    + intros k. destruct (decide (k = n)) as [->|Hne]; simpl.
      * by rewrite lookup_delete_eq.
      * by rewrite lookup_delete_ne.
  - eexists. split; [done|]. repeat split; try by destruct self.
    + intros k. destruct (decide (k = n)) as [->|Hne]; simpl.
      * by rewrite lookup_insert_eq.
      * by rewrite lookup_insert_ne.
Qed.

Lemma remove_from_bucket_raises m self n :
  m ∉ default ∅ (_handlers self !! n) →
  remove_from_bucket m self n = Raised KeyError self.
Proof.
  intros Hnin. unfold remove_from_bucket.
  destruct (_handlers self !! n) as [b|]; [|done]. simpl in Hnin.
  by rewrite decide_False.
Qed.

Lemma bucket_without_frame m self self' n :
  _handlers self' !! n = _handlers self !! n →
  bucket_without m self' n = bucket_without m self n.
Proof. unfold bucket_without. by intros ->. Qed.

(** The loop of [removeHandler] over names that all hold the handler. *)
Lemma remove_loop_ok m ns :
  ∀ self, NoDup ns →
    (∀ n, n ∈ ns → m ∈ default ∅ (_handlers self !! n)) →
    ∃ self', remove_loop m self ns = Ok self'
      ∧ m_id self' = m_id self ∧ m_channel self' = m_channel self
      ∧ _globals self' = _globals self ∧ components self' = components self
      ∧ (∀ k, _handlers self' !! k
              = if decide (k ∈ ns) then bucket_without m self k
                else _handlers self !! k)
      ∧ attrs self'
        = (if bool_decide (Exists (λ n, bucket_without m self n = None) ns)
           then delete (h_name m) (attrs self) else attrs self).
Proof.
  induction ns as [|n ns IH]; intros self Hnd Hin.
  - exists self. split; [done|]. do 4 (split; [done|]). split; [done|].
    rewrite bool_decide_eq_false_2; [done|]. by intros ?%Exists_nil.
  - apply NoDup_cons in Hnd as [Hn Hnd].
    destruct (remove_from_bucket_ok m self n (Hin n ltac:(left)))
      as (self1 & H1 & Hid1 & Hch1 & Hg1 & Hcs1 & Hh1 & Ha1).
    assert (Hin1 : ∀ k, k ∈ ns → m ∈ default ∅ (_handlers self1 !! k)).
    { intros k Hk. rewrite Hh1, decide_False by (intros ->; done).
      apply Hin. by right. }
    destruct (IH self1 Hnd Hin1)
      as (self' & H' & Hid' & Hch' & Hg' & Hcs' & Hh' & Ha').
    exists self'. cbn [remove_loop]. rewrite H1.
    split; [done|]. split; [congruence|]. split; [congruence|].
    split; [congruence|]. split; [congruence|]. split.
    + intros k. rewrite Hh'. destruct (decide (k = n)) as [->|Hne].
      * rewrite decide_False by done. rewrite decide_True by left.
        by rewrite Hh1, decide_True.
      * destruct (decide (k ∈ ns)) as [Hk|Hk].
        -- rewrite decide_True by by right. apply bucket_without_frame.
           by rewrite Hh1, decide_False.
        -- rewrite decide_False by (by intros [?|?]%elem_of_cons).
           by rewrite Hh1, decide_False.
    + rewrite Ha', Ha1. clear Ha'.
      assert (Hex : Exists (λ k, bucket_without m self1 k = None) ns
                    ↔ Exists (λ k, bucket_without m self k = None) ns).
      { rewrite !Exists_exists. split; intros (k & Hk & Hb); exists k;
          (split; [done|]).
        - rewrite <- Hb. symmetry. apply bucket_without_frame.
          rewrite Hh1, decide_False; [done|]. by intros ->.
        - rewrite <- Hb. apply bucket_without_frame.
          rewrite Hh1, decide_False; [done|]. by intros ->. }
      rewrite (bool_decide_ext _ _ Hex).
      destruct (decide (bucket_without m self n = None)) as [Hb|Hb].
      * assert (Hhd : Exists (λ k, bucket_without m self k = None) (n :: ns)).
        { apply Exists_cons_hd. exact Hb. }
        rewrite (bool_decide_eq_true_2 _ Hhd).
        case_bool_decide; [by rewrite delete_delete_eq|done].
      * assert (Htl : Exists (λ k, bucket_without m self k = None) (n :: ns)
                      ↔ Exists (λ k, bucket_without m self k = None) ns).
        { rewrite Exists_cons. tauto. }
        by rewrite (bool_decide_ext _ _ Htl).
Qed.

Lemma remove_loop_app m l1 l2 self :
  remove_loop m self (l1 ++ l2)
  = match remove_loop m self l1 with
    | Ok self1 => remove_loop m self1 l2
    | Raised e self1 => Raised e self1
    end.
Proof.
  revert self. induction l1 as [|n l1 IH]; intros self; [done|].
  simpl. destruct (remove_from_bucket m self n); [apply IH|done].
Qed.

(** The loop stops at the first name whose bucket does not hold the
    handler; what it has removed by then stays removed. *)
Lemma remove_loop_raises m pre n post self :
  NoDup (pre ++ n :: post) →
  (∀ k, k ∈ pre → m ∈ default ∅ (_handlers self !! k)) →
  m ∉ default ∅ (_handlers self !! n) →
  ∃ self', remove_loop m self (pre ++ n :: post) = Raised KeyError self'
    ∧ remove_loop m self pre = Ok self'
    ∧ (∀ k, _handlers self' !! k
            = if decide (k ∈ pre) then bucket_without m self k
              else _handlers self !! k).
Proof.
  intros Hnd Hpre Hn. apply NoDup_app in Hnd as (Hndpre & Hdisj & _).
  destruct (remove_loop_ok m pre self Hndpre Hpre)
    as (self' & H' & _ & _ & _ & _ & Hh' & _).
  exists self'. split; [|done]. rewrite remove_loop_app, H'. cbn [remove_loop].
  rewrite remove_from_bucket_raises; [done|].
  rewrite Hh', decide_False; [done|]. intros Hin. apply (Hdisj n Hin). left.
Qed.




(** X6: [removeHandler] is not atomic. When the bucket of one of the
    handler's names does not hold the handler, the call raises [KeyError]
    after it has removed the handler from the buckets of the names before
    that one, and it leaves the cache as it was: the cache is cleared only
    at the end of a call that returns. *)
Theorem removeHandler_not_atomic (self : Manager) (cache : Cache)
    (f : Handler) (pre post : list string) (n : string) :
  let m := bind_method self f in
  h_names m = pre ++ n :: post →
  NoDup (h_names m) →
  (∀ k, k ∈ pre → m ∈ default ∅ (_handlers self !! k)) →
  m ∉ default ∅ (_handlers self !! n) →
  ∃ self',
    removeHandler self cache f None = Raised KeyError (self', cache)
    ∧ (∀ k, k ∈ pre → m ∉ default ∅ (_handlers self' !! k))
    ∧ (∀ k, k ∉ pre → _handlers self' !! k = _handlers self !! k).
Proof.
  intros m Hnames Hnd Hpre Hn. rewrite Hnames in Hnd.
  destruct (remove_loop_raises m pre n post self Hnd Hpre Hn)
    as (self' & Hloop & _ & Hh).
  exists self'. unfold removeHandler. fold m. rewrite Hnames, Hloop.
  split; [done|]. split.
  - intros k Hk. rewrite Hh, decide_True by done. unfold bucket_without.
    case_decide as Hb; simpl; [apply not_elem_of_empty|].
    rewrite elem_of_difference, elem_of_singleton. by intros [_ ?].
  - intros k Hk. by rewrite Hh, decide_False.
Qed.

Lemma removeHandler_not_atomic_witness :
  ∃ self',
    removeHandler ex_manager_ab ex_cache_ab ex_ab None
    = Raised KeyError (self', ex_cache_ab)
    ∧ (∀ k, k ∈ ["a"] →
            bind_method ex_manager_ab ex_ab
            ∉ default ∅ (_handlers self' !! k))
    ∧ (∀ k, k ∉ ["a"] →
            _handlers self' !! k = _handlers ex_manager_ab !! k).
Proof.
  apply (removeHandler_not_atomic ex_manager_ab ex_cache_ab ex_ab
           ["a"] [] "b").
  - reflexivity.
  - vm_compute. repeat constructor; set_solver.
  - intros k Hk. apply list_elem_of_singleton in Hk. subst k.
    vm_compute. set_solver.
  - vm_compute. set_solver.
Defined.

(** ** The end of a task *)

Lemma processTask_exhausted fuel thread s event task :
  gens s !! task = Some GStop →
  processTask (S fuel) thread s event task None
  = task_stopped thread (set_gens (<[task:=GStop]> (gens s)) s)
                 event task None.
Proof. intros Hg. cbn [processTask]. unfold gen_next. by rewrite Hg. Qed.

(** X7: when the generator of the last suspended handler of an event is
    exhausted, [processTask] calls [_eventDone] without an error: [Done]
    is fired if [alert_done] is set and [Success] if [success] is set,
    also when a handler of the event has raised before
    ([event.value.errors] plays no part), and then only [Complete] events.
    As long as other handlers wait, nothing is fired. *)
Theorem success_after_last_task (fuel thread : nat) (s : State)
    (event task : nat) :
  gens s !! task = Some GStop →
  (event < length (events s))%nat →
  let s' := processTask (S fuel) thread s event task None in
  (waitingHandlers (ev s event) = 1 →
   ∃ completes,
     queued_since s s' = done_entries s event None ++ completes
     ∧ Forall (λ q, ∃ c, q.1 = KComplete c) completes)
  ∧ (waitingHandlers (ev s event) ≠ 1 → _queue s' = _queue s).
Proof.
  intros Hg Hev s'. subst s'. rewrite processTask_exhausted by done.
  unfold task_stopped.
  set (s1 := set_gens _ s).
  set (sA := upd_event (λ x, set_waiting (waitingHandlers x - 1) x) event s1).
  set (sB := unregisterTask (Task2 event task) sA).
  assert (HwB : waitingHandlers (ev sB event) = waitingHandlers (ev s event) - 1).
  { change (ev sB event) with (ev sA event). subst sA.
    by rewrite ev_upd_event_eq. }
  rewrite HwB. split.
  - intros Hw. rewrite Hw. change (1 - 1 =? 0) with true. cbv iota.
    set (sC := upd_event inform event sB).
    assert (HwC : waitingHandlers (ev sC event) = 0).
    { subst sC. rewrite (fld_upd_event waitingHandlers) by done.
      rewrite HwB, Hw. done. }
    assert (HlC : (event < length (events sC))%nat).
    { subst sC. rewrite length_upd_event.
      change (events sB) with (events sA). subst sA.
      by rewrite length_upd_event. }
    destruct (_eventDone_entries thread sC event None HwC HlC)
      as (completes & Hq & Hall).
    exists completes. split; [|done].
    change (queued_since s ?x) with (queued_since sC x). rewrite Hq.
    f_equal. unfold done_entries, or_default, default_channels, root_channel.
    change (tree sC) with (tree s).
    assert (Hfld : ∀ {A} (fld : Event → A),
               (∀ w x, fld (set_waiting w x) = fld x) →
               (∀ x, fld (inform x) = fld x) →
               fld (ev sC event) = fld (ev s event)).
    { intros A fld H1 H2. subst sC. rewrite (fld_upd_event fld) by done.
      change (ev sB event) with (ev sA event). subst sA.
      by rewrite (fld_upd_event fld). }
    rewrite (Hfld _ e_alert_done), (Hfld _ e_channels), (Hfld _ e_success),
      (Hfld _ e_success_channels) by done.
    done.
  - intros Hw.
    destruct (Z.eqb_spec (waitingHandlers (ev s event) - 1) 0) as [H0|_];
      [lia|done].
Qed.

Lemma success_after_last_task_witness :
  v_errors (e_value (ev ex_mixed_flushed 0)) = true
  ∧ ∃ completes,
      queued_since ex_mixed_flushed
        (processTask 1 0 ex_mixed_flushed 0 0 None)
      = done_entries ex_mixed_flushed 0 None ++ completes
      ∧ Forall (λ q, ∃ c, q.1 = KComplete c) completes.
Proof.
  split; [vm_compute; reflexivity|].
  apply (success_after_last_task 0 0 ex_mixed_flushed 0 0).
  - vm_compute. reflexivity.
  - vm_compute. lia.
  - vm_compute. reflexivity.
Defined.

(** ** A [CallValue] without a parent *)

Lemma processTask_call_orphan fuel thread s event task v k :
  gens s !! task = Some (GYield (YCallValue v) k) →
  processTask (S fuel) thread s event task None
  = task_failed thread
      (unregisterTask (Task3 event task None)
         (set_gens (<[task:=k]> (gens s)) s))
      event task (VCallValue v) AttributeError.
Proof. intros Hg. cbn [processTask]. unfold gen_next. by rewrite Hg. Qed.

(** X8: a task without a parent that yields a [CallValue], as the
    generator of [callEvent] does at its end when a handler has returned
    it instead of yielding it, fails: [None.send] raises
    [AttributeError], the task is unregistered, the [CallValue] object
    itself becomes the value of the event, the error flag is set,
    [Failure] (if [failure] is set) and [Error] are fired, and
    [waitingHandlers] is not counted down. *)
Theorem call_value_without_parent (fuel thread : nat) (s : State)
    (event task : nat) (v : value) (k : Gen) :
  gens s !! task = Some (GYield (YCallValue v) k) →
  (event < length (events s))%nat →
  let s' := processTask (S fuel) thread s event task None in
  (Task2 event task ∉ _tasks s')
  ∧ waitingHandlers (ev s' event) = waitingHandlers (ev s event)
  ∧ v_value (e_value (ev s' event)) = VCallValue v
  ∧ v_errors (e_value (ev s' event)) = true
  ∧ queued_since s s'
    = (if e_failure (ev s event)
       then [(KFailure event, or_default s (e_channels (ev s event)))]
       else [])
      ++ [(KError (e_handler (ev s event)), default_channels s)].
Proof.
  intros Hg Hev s'. subst s'. rewrite (processTask_call_orphan _ _ _ _ _ v k Hg).
  set (s2 := unregisterTask _ (set_gens _ s)).
  destruct (task_failed_waiting thread s2 event task (VCallValue v)
              AttributeError event) as [Hw Ht].
  split; [done|]. split; [done|]. clear Hw Ht.
  unfold task_failed.
  set (sA := unregisterTask (Task2 event task) s2).
  set (sB := upd_event inform event
               (upd_event errors_set event
                  (upd_event (value_set (VCallValue v)) event sA))).
  assert (HevB : ev sB event
                 = inform (errors_set (value_set (VCallValue v) (ev s event)))).
  { subst sB. rewrite !ev_upd_event_eq by (rewrite ?length_upd_event; done).
    done. }
  assert (HlB : (event < length (events sB))%nat).
  { subst sB. by rewrite !length_upd_event. }
  set (sC := if e_failure (ev sB event) then _ else sB).
  set (s' := fire_new thread (root_channel sC) _ [] sC).
  assert (HstC : ev_stable sB sC).
  { subst sC. destruct (e_failure (ev sB event)); [|done].
    apply ev_stable_fire_new. }
  assert (Hst' : ev_stable sC s') by apply ev_stable_fire_new.
  assert (Hst : ev_stable sB s') by by etrans.
  assert (HlC : (event < length (events sC))%nat).
  { apply ev_stable_length in HstC. lia. }
  assert (Hval : e_value (ev s' event) = e_value (ev sB event)).
  { by apply (fld_stable e_value). }
  rewrite Hval, HevB. split; [done|]. split; [done|].
  (* the queue *)
  destruct (cond_fire_entries (e_failure (ev sB event)) thread
              (root_channel sB)
              (core_event (KFailure event)
                 (derived_name (ev sB event) "_failure")
                 [exc_info AttributeError])
              (e_channels (ev sB event)) sB s') as (D & Hq1 & HD).
  { exact Hst'. }
  fold sC in Hq1.
  destruct (cond_fire_entries true thread (root_channel sC)
              (core_event (KError (e_handler (ev sC event))) "error"
                 [exc_info AttributeError]) [] sC s') as (E & Hq2 & HE).
  { done. }
  cbv iota in Hq2. fold s' in Hq2.
  unfold queued_since. rewrite Hq2, Hq1.
  change (_queue sB) with (_queue s).
  rewrite <- (assoc_L (++)), drop_app_length, map_app, HD, HE.
  rewrite !fire_channels_core. cbn [e_kind core_event].
  rewrite (fld_stable e_handler sB sC event) by done.
  rewrite HevB. cbn [e_failure e_channels e_handler inform errors_set
                     value_set set_value].
  assert (Hroot : root_channel sC = root_channel s).
  { subst sC. destruct (e_failure (ev sB event)); [|done].
    unfold root_channel. by rewrite tree_fire_new. }
  unfold or_default, default_channels. rewrite Hroot. done.
Qed.

Lemma call_value_without_parent_witness :
  let s' := processTask 1 0 ex_ask_flushed 0 0 None in
  (Task2 0 0 ∉ _tasks s')
  ∧ waitingHandlers (ev s' 0) = waitingHandlers (ev ex_ask_flushed 0)
  ∧ v_value (e_value (ev s' 0)) = VCallValue (VStr "answer")
  ∧ v_errors (e_value (ev s' 0)) = true
  ∧ queued_since ex_ask_flushed s'
    = (if e_failure (ev ex_ask_flushed 0)
       then [(KFailure 0, or_default ex_ask_flushed
                            (e_channels (ev ex_ask_flushed 0)))]
       else [])
      ++ [(KError (e_handler (ev ex_ask_flushed 0)),
           default_channels ex_ask_flushed)].
Proof.
  apply (call_value_without_parent 0 0 ex_ask_flushed 0 0 (VStr "answer")
           GStop).
  - vm_compute. reflexivity.
  - vm_compute. lia.
Defined.

(** ** Steps that append to the queue *)

#[local] Instance appends_refl : Reflexive appends.
Proof.
  intros s. split; [done|]. split; [done|].
  exists []. split; [by rewrite app_nil_r|]. by intros x Hx%elem_of_nil.
Qed.

#[local] Instance appends_trans : Transitive appends.
Proof.
  intros s1 s2 s3 (Hl1 & Hk1 & qs1 & Hq1 & Hb1) (Hl2 & Hk2 & qs2 & Hq2 & Hb2).
  split; [lia|]. split.
  { intros e He. rewrite Hk2 by lia. by apply Hk1. }
  exists (qs1 ++ qs2). split.
  - by rewrite Hq2, Hq1, <- app_assoc.
  - intros x [Hx|Hx]%elem_of_app.
    + specialize (Hb1 x Hx). lia.
    + specialize (Hb2 x Hx). lia.
Qed.

#[local] Instance extends_refl : Reflexive extends.
Proof. by intros s. Qed.

#[local] Instance extends_trans : Transitive extends.
Proof.
  intros s1 s2 s3 [Hc1 Ha1] [Hc2 Ha2]. split; [congruence|by etrans].
Qed.

Lemma extends_same s s' :
  control s' = control s → events s' = events s → _queue s' = _queue s →
  extends s s'.
Proof.
  intros Hc He Hq. split; [done|]. split; [by rewrite He|].
  split; [intros e _; unfold ev; by rewrite He|].
  exists []. split; [by rewrite Hq, app_nil_r|]. by intros x Hx%elem_of_nil.
Qed.

Lemma extends_upd_event f e s :
  (∀ x, e_kind (f x) = e_kind x) → extends s (upd_event f e s).
Proof.
  intros Hf. split; [done|]. split; [by rewrite length_upd_event|].
  split; [intros e' _; by apply (fld_upd_event e_kind)|].
  exists []. split; [by rewrite app_nil_r|]. by intros x Hx%elem_of_nil.
Qed.

Lemma extends_registerTask g s : extends s (registerTask g s).
Proof. unfold registerTask. case_match; [done|]. by apply extends_same. Qed.

Lemma extends_unregisterTask g s : extends s (unregisterTask g s).
Proof. by apply extends_same. Qed.

Lemma control__fire thread s event channel :
  control (_fire thread s event channel) = control s.
Proof. unfold _fire. by repeat case_match. Qed.

Lemma extends_fire_new thread sc x chs s :
  extends s (fire_new thread sc x chs s).
Proof.
  split; [|split; [|split]].
  - unfold fire_new, fireEvent. cbn [alloc_event]. by rewrite control__fire.
  - rewrite length_fire_new. lia.
  - intros e He. apply (fld_stable e_kind); [done| |done].
    apply ev_stable_fire_new.
  - eexists. split; [apply queue_fire_new|].
    intros q Hq%list_elem_of_singleton. subst q. cbn [fst].
    rewrite length_fire_new. lia.
Qed.

Lemma extends_cond_fire (b : bool) thread sc x chs s :
  extends s (if b then fire_new thread sc x chs s else s).
Proof. destruct b; [apply extends_fire_new|done]. Qed.

Lemma extends_run_program thread p s :
  extends s (run_program thread s p).1.
Proof.
  revert s. induction p as [| | |sc sp chs k IH]; intros s; simpl; try done.
  etrans; [|apply IH]. apply extends_fire_new.
Qed.

Lemma extends_eventDone_chain thread fuel :
  ∀ s x, extends s (eventDone_chain fuel thread s x).
Proof.
  induction fuel as [|fuel IH]; intros s x; [done|].
  rewrite eventDone_chain_S.
  destruct (e_tracking (ev s x)) as [[c n]|]; [|done]. cbv zeta.
  etrans; [by apply (extends_upd_event (add_effects (-1)) x)|].
  case_bool_decide; [done|].
  etrans; [|apply IH]. unfold chain_round.
  etrans; [|by apply extends_upd_event]. apply extends_cond_fire.
Qed.

Lemma extends__eventDone thread s event error :
  extends s (_eventDone thread s event error).
Proof.
  unfold _eventDone. case_match; [done|].
  etrans; [|apply extends_eventDone_chain].
  etrans; [|apply extends_cond_fire]. apply extends_cond_fire.
Qed.

Lemma extends_after_call s event h v :
  extends s (after_call s event h v).1.
Proof.
  unfold after_call. destruct v as [v|g]; cbn [alloc_gen fst].
  - destruct (is_not_None v); [by apply extends_upd_event|done].
  - etrans; [|apply extends_registerTask].
    etrans; [|by apply extends_upd_event].
    etrans; [|by apply extends_upd_event]. by apply extends_same.
Qed.

Lemma extends_dispatch_one env thread s event h error :
  extends s (result_state (dispatch_one env thread s event h error)).1.1.
Proof.
  unfold dispatch_one.
  set (s0 := upd_event (set_handler (Some h)) event s).
  pose proof (extends_run_program thread (code env s0 h event) s0) as Hrun.
  destruct (run_program thread s0 (code env s0 h event)) as [s1 out].
  cbn [fst] in Hrun.
  assert (H1 : extends s s1)
    by (etrans; [by apply (extends_upd_event (set_handler (Some h)))|done]).
  set (s2 := set_calls _ s1).
  assert (H2 : extends s s2) by (etrans; [exact H1|by apply extends_same]).
  destruct out as [v|g|e].
  - pose proof (extends_after_call s2 event h (inl v)) as Ha.
    destruct (after_call s2 event h (inl v)) as [s3 brk]. by etrans.
  - pose proof (extends_after_call s2 event h (inr g)) as Ha.
    destruct (after_call s2 event h (inr g)) as [s3 brk]. by etrans.
  - destruct (is_fatal e); [done|].
    set (s3 := fire_new _ _ _ _ _).
    pose proof (extends_after_call s3 event h (inl (exc_info e))) as Ha.
    destruct (after_call s3 event h (inl (exc_info e))) as [s4 brk].
    cbn [result_state fst] in *.
    etrans; [exact H2|]. etrans; [|exact Ha]. subst s3.
    etrans; [|apply extends_fire_new].
    etrans; [by apply (extends_upd_event errors_set event)|].
    apply extends_cond_fire.
Qed.

Lemma extends_dispatch_loop env thread event hs :
  ∀ s error,
    extends s (result_state (dispatch_loop env thread s event hs error)).1.
Proof.
  induction hs as [|h hs IH]; intros s error; [done|]. cbn [dispatch_loop].
  pose proof (extends_dispatch_one env thread s event h error) as H1.
  destruct (dispatch_one env thread s event h error)
    as [[[s1 err1] brk]|e [[s1 err1] brk]]; cbn [result_state fst] in *;
    [|done].
  destruct brk; [done|]. etrans; [exact H1|apply IH].
Qed.

Lemma extends_gen_run thread body :
  ∀ s, extends s (gen_run thread s body).1.1.
Proof.
  induction body as [| |sc sp chs k IH|y k IH]; intros s; simpl; try done.
  etrans; [|apply IH]. apply extends_fire_new.
Qed.

Lemma extends_gen_next thread s g :
  extends s (gen_next thread s g).1.
Proof.
  unfold gen_next. destruct (gens s !! g) as [body|]; [|done].
  pose proof (extends_gen_run thread body s) as Hr.
  destruct (gen_run thread s body) as [[s1 rest] out]. cbn [fst] in Hr.
  assert (H1 : extends s (set_gens (<[g:=rest]> (gens s1)) s1))
    by (etrans; [exact Hr|by apply extends_same]).
  destruct out as [|e|[v|v|b]]; exact H1.
Qed.

Lemma extends_task_stopped thread s event task parent :
  extends s (task_stopped thread s event task parent).
Proof.
  unfold task_stopped. destruct parent as [p|].
  - etrans; [|apply extends_registerTask].
    etrans; [|apply extends_unregisterTask]. by apply extends_upd_event.
  - set (s1 := unregisterTask _ _).
    assert (H1 : extends s s1)
      by (etrans; [|apply extends_unregisterTask]; by apply extends_upd_event).
    case_match; [|done]. etrans; [exact H1|].
    etrans; [|apply extends__eventDone]. by apply extends_upd_event.
Qed.

Lemma extends_task_failed thread s event task v e :
  extends s (task_failed thread s event task v e).
Proof.
  unfold task_failed. etrans; [|apply extends_fire_new].
  etrans; [|apply extends_cond_fire].
  do 3 (etrans; [|by apply extends_upd_event]). apply extends_unregisterTask.
Qed.

Lemma extends_processTask thread fuel :
  ∀ s event task parent,
    extends s (processTask fuel thread s event task parent).
Proof.
  induction fuel as [|fuel IH]; intros s event task parent; [done|].
  cbn [processTask].
  pose proof (extends_gen_next thread s task) as H1.
  destruct (gen_next thread s task) as [s1 r]. cbn [fst] in H1.
  etrans; [exact H1|]. clear H1.
  destruct r as [|e|v|g|v].
  - apply extends_task_stopped.
  - apply extends_task_failed.
  - destruct (is_not_None v); [by apply extends_upd_event|done].
  - etrans; [|apply IH].
    etrans; [|apply extends_unregisterTask].
    etrans; [|apply extends_registerTask]. by apply extends_upd_event.
  - etrans; [apply (extends_unregisterTask (Task3 event task parent))|].
    destruct parent as [p|]; [|apply extends_task_failed].
    set (s2 := unregisterTask _ s1).
    pose proof (extends_gen_next thread s2 p) as H2.
    destruct (gen_next thread s2 p) as [s3 r']. cbn [fst] in H2.
    etrans; [exact H2|]. clear H2.
    destruct r' as [|e|v'|g|v'].
    + apply extends_task_stopped.
    + apply extends_task_failed.
    + etrans; [|apply extends_registerTask].
      etrans; [by apply (extends_upd_event
                           (λ x, set_waiting (waitingHandlers x - 1) x) event)|].
      destruct (is_not_None v'); [by apply extends_upd_event|done].
    + etrans; [|apply IH]. apply extends_registerTask.
    + etrans; [|apply extends_registerTask].
      etrans; [|by apply extends_upd_event]. by apply extends_upd_event.
Qed.

Lemma extends_run_tasks thread ts :
  ∀ s, extends s (run_tasks thread s ts).
Proof.
  induction ts as [|[event task|event task parent] ts IH]; intros s;
    [done| |]; cbn [run_tasks];
    (etrans; [|apply IH]); apply extends_processTask.
Qed.

Lemma extends_run_ticks env thread fs :
  ∀ s, extends s (result_state (run_ticks env thread s fs)).
Proof.
  induction fs as [|f fs IH]; intros s; [done|]. cbn [run_ticks].
  pose proof (extends_run_program thread (tick_code env s f) s) as H1.
  destruct (run_program thread s (tick_code env s f)) as [s1 out].
  cbn [fst] in H1.
  destruct out as [v|g|e]; try (etrans; [exact H1|apply IH]).
  destruct (is_fatal e); [done|].
  etrans; [exact H1|]. etrans; [|apply IH]. apply extends_fire_new.
Qed.

Lemma extends_control s s' :
  extends s s' →
  tree s' = tree s ∧ _cache s' = _cache s ∧ _ticks s' = _ticks s
  ∧ _running s' = _running s ∧ _executing_thread s' = _executing_thread s
  ∧ _currently_handling s' = _currently_handling s
  ∧ _generate_event s' = _generate_event s ∧ appends s s'.
Proof. intros [Hc Ha]. unfold control in Hc. by simplify_eq. Qed.

Lemma cache_lookup_handlers_setup s event channels f :
  (∀ x, e_name (f x) = e_name x) →
  _cache (lookup_handlers
            (upd_event f event (set_currently_handling (Some event) s))
            event channels).1
  = _cache (lookup_handlers s event channels).1.
Proof.
  intros Hf. unfold lookup_handlers.
  rewrite (fld_upd_event e_name) by done. simpl.
  change (ev (set_currently_handling (Some event) s) event) with (ev s event).
  by case_match.
Qed.

Lemma lookup_handlers_frame s event channels :
  let s' := (lookup_handlers s event channels).1 in
  tree s' = tree s ∧ _ticks s' = _ticks s ∧ _running s' = _running s
  ∧ _executing_thread s' = _executing_thread s
  ∧ _currently_handling s' = _currently_handling s
  ∧ _generate_event s' = _generate_event s
  ∧ events s' = events s ∧ _queue s' = _queue s.
Proof. unfold lookup_handlers. by case_match. Qed.

(** What a dispatch leaves of the manager's attributes: the cache may get
    one more entry, [_currently_handling] is reset unless a fatal exception
    passes through, and events are only appended to the queue. *)
Lemma _dispatcher_frame env thread s event chs :
  let r := _dispatcher env thread s event chs in
  let s' := result_state r in
  tree s' = tree s ∧ _ticks s' = _ticks s ∧ _running s' = _running s
  ∧ _executing_thread s' = _executing_thread s
  ∧ _generate_event s' = _generate_event s
  ∧ _cache s' = _cache (lookup_handlers s event chs).1
  ∧ _currently_handling s'
    = match raised r with Some _ => Some event | None => None end
  ∧ appends s s'.
Proof.
  unfold _dispatcher.
  set (s0 := set_currently_handling (Some event) s).
  set (f := λ x, set_tracking (Some (default event (cause x), 1)) x).
  assert (Hc : _cache (lookup_handlers
                         (if e_complete (ev s0 event)
                          then upd_event f event s0 else s0) event chs).1
               = _cache (lookup_handlers s event chs).1).
  { destruct (e_complete (ev s0 event)).
    - by apply cache_lookup_handlers_setup.
    - unfold lookup_handlers. change (ev s0 event) with (ev s event).
      simpl. by case_match. }
  set (s1 := if e_complete (ev s0 event) then upd_event f event s0 else s0)
    in *.
  assert (H1 : extends s0 s1).
  { subst s1. destruct (e_complete (ev s0 event)); [|done].
    by apply extends_upd_event. }
  destruct (extends_control _ _ H1) as (T1 & _ & K1 & R1 & X1 & C1 & G1 & A1).
  destruct (lookup_handlers_frame s1 event chs)
    as (T2 & K2 & R2 & X2 & C2 & G2 & E2 & Q2).
  destruct (lookup_handlers s1 event chs) as [s2 hs]. cbn [fst] in *.
  pose proof (extends_dispatch_loop env thread event hs s2 None) as H3.
  destruct (dispatch_loop env thread s2 event hs None)
    as [[s3 err]|e [s3 err]]; cbn [result_state fst raised] in *.
  - set (s4 := set_currently_handling None s3).
    pose proof (extends__eventDone thread s4 event err) as H5.
    destruct (extends_control _ _ H3) as (T3 & M3 & K3 & R3 & X3 & C3 & G3 & A3).
    destruct (extends_control _ _ H5) as (T5 & M5 & K5 & R5 & X5 & C5 & G5 & A5).
    rewrite T5, K5, R5, X5, G5, M5, C5. subst s4. simpl.
    rewrite T3, K3, R3, X3, G3, M3, T2, K2, R2, X2, G2, Hc, T1, K1, R1, X1, G1.
    do 7 (split; [done|]).
    etrans; [exact A1|]. etrans; [|exact A5]. etrans; [|exact A3].
    split; [by rewrite E2|]. split; [intros e' _; unfold ev; by rewrite E2|].
    exists []. rewrite Q2, app_nil_r.
    split; [done|]. by intros x Hx%elem_of_nil.
  - destruct (extends_control _ _ H3) as (T3 & M3 & K3 & R3 & X3 & C3 & G3 & A3).
    rewrite T3, K3, R3, X3, G3, M3, C3, T2, K2, R2, X2, G2, C2, Hc,
      T1, K1, R1, X1, G1, C1.
    do 7 (split; [done|]).
    etrans; [exact A1|]. etrans; [|exact A3].
    split; [by rewrite E2|]. split; [intros e' _; unfold ev; by rewrite E2|].
    exists []. rewrite Q2, app_nil_r.
    split; [done|]. by intros x Hx%elem_of_nil.
Qed.

Lemma chan_key_names (cs : list string) :
  List.map chan_key (ChanName <$> cs) = KName <$> cs.
Proof. induction cs as [|c cs IH]; [done|]. csimpl. by rewrite IH. Qed.

Lemma chan_key_names_inv chs (cs : list string) :
  List.map chan_key chs = KName <$> cs → chs = ChanName <$> cs.
Proof.
  revert cs. induction chs as [|[c|m] chs IH]; intros [|c' cs] H;
    csimpl in *; try done.
  injection H as -> H. by rewrite (IH cs).
Qed.

Lemma cache_coherent_eq s s' :
  tree s' = tree s → _cache s' = _cache s →
  cache_coherent s → cache_coherent s'.
Proof. intros Ht Hc H name cs l. rewrite Ht, Hc. apply H. Qed.

Lemma cache_coherent_extends s s' :
  extends s s' → cache_coherent s → cache_coherent s'.
Proof.
  intros H. destruct (extends_control _ _ H) as (Ht & Hc & _).
  by apply cache_coherent_eq.
Qed.

Lemma cache_coherent_lookup_handlers s event chs :
  cache_coherent s → cache_coherent (lookup_handlers s event chs).1.
Proof.
  intros H. unfold lookup_handlers. case_match; [done|].
  intros name cs l. cbn [fst]. simpl.
  destruct (decide ((e_name (ev s event), List.map chan_key chs)
                    = (name, KName <$> cs))) as [Heq|Hne].
  - rewrite Heq, lookup_insert_eq. intros [= <-].
    injection Heq as <- Hk. by rewrite (chan_key_names_inv _ _ Hk).
  - rewrite lookup_insert_ne by done. apply H.
Qed.

Lemma cache_coherent__dispatcher env thread s event chs :
  cache_coherent s →
  cache_coherent (result_state (_dispatcher env thread s event chs)).
Proof.
  intros H.
  destruct (_dispatcher_frame env thread s event chs)
    as (T & _ & _ & _ & _ & C & _).
  intros name cs l. rewrite T, C.
  pose proof (cache_coherent_lookup_handlers s event chs H name cs l) as H'.
  by destruct (lookup_handlers_frame s event chs) as (-> & _) in H'.
Qed.

(** With a coherent cache the dispatcher works on the handlers that are
    registered now. *)
Lemma dispatch_order_coherent s event (cs : list string) :
  cache_coherent s →
  dispatch_order s event (ChanName <$> cs)
  = sorted_desc (resolve (tree s) (e_name (ev s event)) (ChanName <$> cs)).
Proof.
  intros H. unfold dispatch_order, lookup_handlers.
  rewrite chan_key_names. case_match eqn:Hl; [|done]. cbn [snd].
  by apply H.
Qed.

(** ** The queue is flushed as a snapshot *)

(** The loop of [_flush] over a snapshot [q]: the calls come in groups,
    one for every entry the loop has reached, and the loop stops at the
    entry whose dispatch lets a fatal exception through. *)
Lemma flush_loop_spec env thread q :
  ∀ s,
    let r := flush_loop env thread s q in
    let s' := result_state r in
    tree s' = tree s ∧ _ticks s' = _ticks s ∧ _running s' = _running s
    ∧ _executing_thread s' = _executing_thread s
    ∧ _generate_event s' = _generate_event s
    ∧ appends s s'
    ∧ ∃ groups reached,
        calls s' = calls s ++ concat groups
        ∧ Forall2 (λ g x, Forall (λ c, c_event c = x.1) g) groups reached
        ∧ match raised r with
          | None =>
              reached = q
              ∧ (_currently_handling s = None → _currently_handling s' = None)
          | Some e =>
              is_fatal e = true
              ∧ ∃ x post, q = reached ++ post ∧ last reached = Some x
                          ∧ _currently_handling s' = Some x.1
          end.
Proof.
  induction q as [|[event chs] q IH]; intros s.
  { do 5 (split; [done|]). split; [done|]. exists [], [].
    cbn. by rewrite app_nil_r. }
  cbn [flush_loop].
  destruct (_dispatcher_frame env thread s event chs)
    as (T1 & K1 & R1 & X1 & G1 & _ & C1 & A1).
  destruct (dispatcher_trace env thread s event chs)
    as (Hcalls & _ & Hev & _ & _ & Hfatal & _).
  set (tr := invoked env thread s event chs) in *.
  destruct (_dispatcher env thread s event chs) as [s1|e s1];
    cbn [result_state raised] in *.
  - destruct (IH s1) as (T2 & K2 & R2 & X2 & G2 & A2 & groups & reached
                         & Hc2 & Hall & Hres).
    rewrite T2, K2, R2, X2, G2, T1, K1, R1, X1, G1.
    do 5 (split; [done|]). split; [by etrans|].
    exists (tr :: groups), ((event, chs) :: reached).
    split; [by rewrite Hc2, Hcalls, <- app_assoc|].
    split; [by constructor|].
    destruct (raised (flush_loop env thread s1 q)) as [e|].
    + destruct Hres as (He & x & post & -> & Hlast & Hcur).
      split; [done|]. exists x, post. split; [done|]. split; [|done].
      destruct reached as [|y reached]; [done|].
      by rewrite last_cons, Hlast.
    + destruct Hres as [-> Hcur]. split; [done|]. intros _. by apply Hcur.
  - do 5 (split; [done|]). split; [done|].
    exists [tr], [(event, chs)].
    split; [cbn [concat]; by rewrite app_nil_r|].
    split; [by repeat constructor|]. split; [by apply Hfatal|].
    by exists (event, chs), q.
Qed.






Lemma cache_coherent_flush_loop env thread q :
  ∀ s, cache_coherent s →
       cache_coherent (result_state (flush_loop env thread s q)).
Proof.
  induction q as [|[event chs] q IH]; intros s H; [done|]. cbn [flush_loop].
  pose proof (cache_coherent__dispatcher env thread s event chs H) as H1.
  destruct (_dispatcher env thread s event chs) as [s1|e s1]; [|done].
  by apply IH.
Qed.

(** What [_flush] leaves of the manager, whether it returns or not. *)
Lemma _flush_frame env thread s :
  let r := _flush env thread s in
  let s' := result_state r in
  tree s' = tree s ∧ _ticks s' = _ticks s ∧ _running s' = _running s
  ∧ _generate_event s' = _generate_event s
  ∧ (cache_coherent s → cache_coherent s')
  ∧ (length (events s) ≤ length (events s'))%nat
  ∧ (∀ e, (e < length (events s))%nat → e_kind (ev s' e) = e_kind (ev s e))
  ∧ (∀ x, x ∈ _queue s' →
          (length (events s) ≤ x.1 < length (events s'))%nat)
  ∧ (raised r = None → _executing_thread s' = _executing_thread s)
  ∧ (∀ e, raised r = Some e → is_fatal e = true).
Proof.
  unfold _flush.
  set (b := bool_decide (_executing_thread s = None)).
  assert (Hb : b = bool_decide (_executing_thread s = None)) by done.
  clearbody b.
  set (s0 := if b then set_executing_thread (Some thread) s else s).
  set (s1 := set_queue [] s0).
  assert (H0 : tree s1 = tree s ∧ _ticks s1 = _ticks s
               ∧ _running s1 = _running s
               ∧ _generate_event s1 = _generate_event s
               ∧ _cache s1 = _cache s ∧ events s1 = events s
               ∧ _queue s0 = _queue s)
    by (subst s1 s0; by destruct b).
  destruct H0 as (T0 & K0 & R0 & G0 & C0 & E0 & Q0).
  destruct (flush_loop_spec env thread (_queue s0) s1)
    as (T & K & R & X & G & (Hlen & Hkind & qs & Hq & Hbound) & groups
        & reached & _ & _ & Hres).
  pose proof (cache_coherent_flush_loop env thread (_queue s0) s1) as Hcoh.
  change (_queue s1) with (@nil (nat * list Channel)) in Hq.
  rewrite app_nil_l in Hq. subst qs.
  unfold ev in Hkind. rewrite E0 in *.
  destruct (flush_loop env thread s1 (_queue s0)) as [s2|e s2];
    cbn [result_state raised] in *.
  - assert (H2 : ∀ {A} (fld : State → A),
               (∀ t x, fld (set_executing_thread t x) = fld x) →
               fld (if b then set_executing_thread None s2 else s2) = fld s2)
      by (intros A fld Hf; by destruct b).
    rewrite (H2 _ tree), (H2 _ _ticks), (H2 _ _running),
      (H2 _ _generate_event), (H2 _ events), (H2 _ _queue) by done.
    rewrite T, K, R, G, T0, K0, R0, G0.
    do 4 (split; [done|]). split.
    { intros Hc. eapply (cache_coherent_eq s2); [by apply H2|by apply H2|].
      apply Hcoh. by apply (cache_coherent_eq s). }
    split; [done|]. split.
    { intros e' He'. unfold ev. rewrite (H2 _ events) by done.
      by apply Hkind. }
    split; [done|]. split; [|done]. intros _.
    destruct b.
    + symmetry in Hb. apply bool_decide_eq_true in Hb. by rewrite Hb.
    + rewrite X. by subst s1 s0.
  - rewrite T, K, R, G, T0, K0, R0, G0. do 4 (split; [done|]). split.
    { intros Hc. apply Hcoh. by apply (cache_coherent_eq s). }
    split; [done|]. split; [done|]. split; [done|]. split; [done|].
    intros e' [= <-]. by destruct Hres.
Qed.

Lemma reduce_time_left_kind t x :
  e_kind (reduce_time_left t x) = e_kind x.
Proof. unfold reduce_time_left. by case_match. Qed.

Lemma run_ticks_fatal env thread fs :
  ∀ s e, raised (run_ticks env thread s fs) = Some e → is_fatal e = true.
Proof.
  induction fs as [|f fs IH]; intros s e; [by simpl|]. cbn [run_ticks].
  destruct (run_program thread s (tick_code env s f)) as [s1 [v|g|e']];
    try apply IH.
  destruct (is_fatal e') eqn:Hf; [by intros [= <-]|apply IH].
Qed.

(** What one [tick] leaves of the manager. When it returns, the entries
    left in the queue are for events created after the flush began, at
    the index [n]; the token of a running manager was created before. *)
Lemma tick_spec env thread timeout s :
  let r := tick env thread timeout s in
  let s' := result_state r in
  tree s' = tree s ∧ _ticks s' = _ticks s ∧ _running s' = _running s
  ∧ (cache_coherent s → cache_coherent s')
  ∧ (length (events s) ≤ length (events s'))%nat
  ∧ (∀ e, (e < length (events s))%nat → e_kind (ev s' e) = e_kind (ev s e))
  ∧ (∀ e, raised r = Some e → is_fatal e = true)
  ∧ (raised r = None →
     _executing_thread s' = None
     ∧ ∃ n, (length (events s) ≤ n ≤ length (events s'))%nat
         ∧ (∀ x, x ∈ _queue s' → (n ≤ x.1 < length (events s'))%nat)
         ∧ if _running s
           then ∃ g, _generate_event s' = Some g
                     ∧ (length (events s) ≤ g < n)%nat
                     ∧ e_kind (ev s' g) = KGenerateEvents
           else _generate_event s' = _generate_event s).
Proof.
  unfold tick.
  set (s0 := set_executing_thread (Some thread) s).
  pose proof (extends_run_ticks env thread (_ticks s0) s0) as H1.
  pose proof (run_ticks_fatal env thread (_ticks s0) s0) as Hfat1.
  destruct (run_ticks env thread s0 (_ticks s0)) as [s1|e s1];
    cbn [result_state raised] in *.
  2: { destruct (extends_control _ _ H1)
         as (T1 & C1 & K1 & R1 & _ & _ & _ & L1 & Kd1 & _).
       rewrite T1, K1, R1. do 3 (split; [done|]).
       split; [by apply (cache_coherent_extends s0 s1)|].
       split; [done|]. split; [done|]. split; [done|]. done. }
  clear Hfat1.
  pose proof (extends_run_tasks thread (_tasks s1) s1) as H2.
  set (s2 := run_tasks thread s1 (_tasks s1)) in *.
  assert (H02 : extends s0 s2) by (by etrans).
  clear H1 H2.
  destruct (extends_control _ _ H02)
    as (T2 & C2 & K2 & R2 & X2 & _ & G2 & L2 & Kd2 & _).
  change (tree s0) with (tree s) in T2.
  change (_cache s0) with (_cache s) in C2.
  change (_ticks s0) with (_ticks s) in K2.
  change (_running s0) with (_running s) in R2.
  change (_generate_event s0) with (_generate_event s) in G2.
  change (events s0) with (events s) in L2, Kd2.
  change (∀ e, (e < length (events s))%nat
               → e_kind (ev s2 e) = e_kind (ev s e)) in Kd2.
  assert (Hcoh2 : cache_coherent s → cache_coherent s2)
    by (by apply cache_coherent_eq).
  set (s3 := if _running s2 then _ else s2).
  assert (H3 : tree s3 = tree s2 ∧ _cache s3 = _cache s2
               ∧ _ticks s3 = _ticks s2 ∧ _running s3 = _running s2
               ∧ _executing_thread s3 = _executing_thread s2
               ∧ (length (events s2) ≤ length (events s3))%nat
               ∧ (∀ e, (e < length (events s2))%nat →
                       e_kind (ev s3 e) = e_kind (ev s2 e))
               ∧ if _running s2
                 then _generate_event s3 = Some (length (events s2))
                      ∧ (length (events s2) < length (events s3))%nat
                      ∧ e_kind (ev s3 (length (events s2))) = KGenerateEvents
                      ∧ (0 < length (_queue s3))%nat
                 else s3 = s2).
  { subst s3. destruct (_running s2) eqn:Hrun.
    - cbv zeta.
      set (t0 := set_time_left timeout _).
      set (t1 := if bool_decide (0 < length (_ticks s2))%nat then _ else t0).
      set (t2 := if _ || _ then reduce_time_left 0 t1 else t1).
      assert (Hk : e_kind t2 = KGenerateEvents).
      { subst t2 t1. repeat case_match;
          by rewrite ?reduce_time_left_kind. }
      set (sG := set_generate_event (Some (length (events s2))) s2).
      change (alloc_event t2 s2)
        with (set_events (events s2 ++ [t2]) s2, length (events s2)).
      cbv iota beta.
      change (fireEvent thread _ _ (length (events s2)) [ChanName "*"])
        with (fire_new thread (root_channel sG) t2 [ChanName "*"] sG).
      pose proof (extends_fire_new thread (root_channel sG) t2
                    [ChanName "*"] sG) as Hf.
      destruct (extends_control _ _ Hf)
        as (T & C & K & R & X & _ & G & L & Kd & qs & Hq & _).
      rewrite T, C, K, R, X, G. do 5 (split; [done|]).
      split; [done|]. split; [done|].
      split; [done|]. split; [rewrite length_fire_new; simpl; lia|].
      split.
      { rewrite <- Hk.
        apply (fire_new_entry thread (root_channel sG) t2 [ChanName "*"] sG). }
      rewrite queue_fire_new, length_app. simpl. lia.
    - done. }
  clearbody s3.
  destruct H3 as (T3 & C3 & K3 & R3 & X3 & L3 & Kd3 & Hgen).
  destruct (_flush_frame env thread s3)
    as (T4 & K4 & R4 & G4 & C4 & L4 & Kd4 & Q4 & X4 & F4).
  set (r := if bool_decide (0 < length (_queue s3))%nat
            then _flush env thread s3 else Ok s3).
  assert (Hr : tree (result_state r) = tree s
               ∧ _ticks (result_state r) = _ticks s
               ∧ _running (result_state r) = _running s
               ∧ _generate_event (result_state r) = _generate_event s3
               ∧ (cache_coherent s → cache_coherent (result_state r))
               ∧ (length (events s3) ≤ length (events (result_state r)))%nat
               ∧ (∀ e, (e < length (events s3))%nat →
                       e_kind (ev (result_state r) e) = e_kind (ev s3 e))
               ∧ (∀ x, x ∈ _queue (result_state r) →
                       (length (events s3) ≤ x.1
                        < length (events (result_state r)))%nat)
               ∧ (∀ e, raised r = Some e → is_fatal e = true)
               ∧ ((0 < length (_queue s3))%nat → r = _flush env thread s3)).
  { subst r. case_bool_decide as Hq.
    - rewrite T4, K4, R4, T3, K3, R3, T2, K2, R2.
      do 4 (split; [done|]). split.
      { intros Hc. apply C4. apply (cache_coherent_eq s2); [done|done|].
        by apply Hcoh2. }
      done.
    - cbn [result_state raised]. rewrite T3, K3, R3, T2, K2, R2.
      do 4 (split; [done|]). split.
      { intros Hc. apply (cache_coherent_eq s2); [done|done|].
        by apply Hcoh2. }
      split; [done|]. split; [done|]. split; [|done].
      intros x Hx. destruct (_queue s3); [by apply elem_of_nil in Hx|].
      simpl in Hq. lia. }
  clearbody r. clear T4 K4 R4 G4 C4 L4 Kd4 Q4 X4 F4.
  destruct Hr as (T5 & K5 & R5 & G5 & C5 & L5 & Kd5 & Q5 & F5 & _).
  assert (Hkd : ∀ e, (e < length (events s))%nat →
                     e_kind (ev (result_state r) e) = e_kind (ev s e)).
  { intros e He. rewrite Kd5, Kd3, Kd2 by lia. done. }
  destruct r as [s4|e s4]; cbn [result_state raised] in *.
  - do 3 (split; [done|]). split; [done|]. split; [simpl; lia|].
    split; [done|]. split; [done|]. intros _. split; [done|].
    exists (length (events s3)). split; [simpl; lia|]. split; [done|].
    rewrite R2 in Hgen. destruct (_running s).
    + destruct Hgen as (Hg & Hlt & Hkg & _).
      exists (length (events s2)). split; [simpl; by rewrite G5|].
      split; [lia|].
      change (e_kind (ev s4 (length (events s2))) = KGenerateEvents).
      by rewrite Kd5.
    + simpl. rewrite G5, Hgen. done.
  - do 3 (split; [done|]). split; [done|]. split; [lia|].
    split; [done|]. split; [done|]. done.
Qed.

(** ** What a tick leaves in the queue *)



(** ** Stopping drains the queue *)







(** ** The cache follows the registry *)

Lemma cache_coherent_empty s : _cache s = ∅ → cache_coherent s.
Proof. intros H name cs l. by rewrite H, lookup_empty. Qed.

Lemma cache_coherent_run_op env thread s o s' :
  run_op env thread s o = Ok s' → cache_coherent s → cache_coherent s'.
Proof.
  destruct o as [from sc sp chs| |timeout]; cbn [run_op].
  - intros [= <-]. apply cache_coherent_extends, extends_fire_new.
  - intros H. destruct (_flush_frame env thread s) as (_ & _ & _ & _ & C & _).
    by rewrite H in C.
  - intros H. destruct (tick_spec env thread timeout s)
      as (_ & _ & _ & C & _).
    by rewrite H in C.
Qed.

Lemma cache_coherent_run_action env thread s a s' :
  run_action env thread s a = Ok s' → cache_coherent s → cache_coherent s'.
Proof.
  destruct a as [o|f|f event]; cbn [run_action].
  - apply cache_coherent_run_op.
  - unfold addHandler. intros [= <-] _. by apply cache_coherent_empty.
  - unfold removeHandler.
    destruct (remove_loop _ _ _) as [m|e m]; [|done].
    intros [= <-] _. by apply cache_coherent_empty.
Qed.

(** X13: the handler cache is never stale. From an empty cache, whatever
    sequence of [fire], [flush], [tick], [addHandler] and [removeHandler]
    calls has returned, the handlers the dispatcher takes for an event on
    string channels are the ones the registry holds now, in sorted order,
    whether they come from the cache or not. *)
Theorem cache_never_stale (env : Env) (thread : nat) (s : State)
    (acts : list Action) (s' : State) :
  _cache s = ∅ →
  run_actions env thread s acts = Ok s' →
  ∀ event (cs : list string),
    dispatch_order s' event (ChanName <$> cs)
    = sorted_desc (resolve (tree s') (e_name (ev s' event)) (ChanName <$> cs)).
Proof.
  intros He H event cs. apply dispatch_order_coherent.
  apply cache_coherent_empty in He. clear event cs.
  revert s He H. induction acts as [|a acts IH]; intros s Hc; cbn [run_actions].
  - by intros [= <-].
  - destruct (run_action env thread s a) as [s1|e s1] eqn:Ha; [|done].
    apply IH. by apply (cache_coherent_run_action env thread s a).
Qed.

Lemma cache_never_stale_witness :
  let s' := result_state (run_actions ex_env 0 (ex_fired "foo" false)
                            ex_actions) in
  _cache s' ≠ ∅
  ∧ ∀ event (cs : list string),
      dispatch_order s' event (ChanName <$> cs)
      = sorted_desc (resolve (tree s') (e_name (ev s' event))
                       (ChanName <$> cs)).
Proof.
  split.
  - intros H. apply (f_equal (λ c, bool_decide (c = ∅))) in H.
    vm_compute in H. discriminate H.
  - apply (cache_never_stale ex_env 0 (ex_fired "foo" false) ex_actions).
    + reflexivity.
    + apply Ok_result_state. vm_compute. reflexivity.
Defined.

(** ** Events fired outside a dispatch *)

#[local] Instance no_new_cause_refl : Reflexive no_new_cause.
Proof. by intros s Hc. Qed.

#[local] Instance no_new_cause_trans : Transitive no_new_cause.
Proof.
  intros s1 s2 s3 H1 H2 Hc. destruct (H1 Hc) as [Hc2 Ht2].
  destruct (H2 Hc2) as [Hc3 Ht3]. split; [done|].
  intros e He. by apply Ht3, Ht2.
Qed.

Lemma no_new_cause_same s s' :
  events s' = events s → _currently_handling s' = _currently_handling s →
  no_new_cause s s'.
Proof. intros He Hc H. unfold ev. by rewrite He, Hc. Qed.

Lemma no_new_cause_upd_event f e s :
  (∀ x, e_tracking x = None → e_tracking (f x) = None) →
  no_new_cause s (upd_event f e s).
Proof.
  intros Hf Hc. split; [done|]. intros e' He'.
  destruct (decide (e = e')) as [->|Hne]; [|by rewrite ev_upd_event_ne].
  revert He'. unfold ev, upd_event. simpl. rewrite list_lookup_alter_eq.
  destruct (events s !! e'); simpl; [apply Hf|done].
Qed.

Lemma no_new_cause_registerTask g s : no_new_cause s (registerTask g s).
Proof. unfold registerTask. case_match; [done|]. by apply no_new_cause_same. Qed.

Lemma no_new_cause_unregisterTask g s : no_new_cause s (unregisterTask g s).
Proof. by apply no_new_cause_same. Qed.

Lemma no_new_cause_fire_new thread sc x chs s :
  e_tracking x = None → no_new_cause s (fire_new thread sc x chs s).
Proof.
  intros Hx Hc. split.
  - destruct (extends_control _ _ (extends_fire_new thread sc x chs s))
      as (_ & _ & _ & _ & _ & -> & _). done.
  - intros e He. by rewrite tracking_fire_new_None.
Qed.

Lemma no_new_cause_cond_fire (b : bool) thread sc x chs s :
  e_tracking x = None →
  no_new_cause s (if b then fire_new thread sc x chs s else s).
Proof. destruct b; [apply no_new_cause_fire_new|done]. Qed.

Lemma no_new_cause_run_program thread p :
  ∀ s, no_new_cause s (run_program thread s p).1.
Proof.
  induction p as [| | |sc sp chs k IH]; intros s; simpl; try done.
  etrans; [|apply IH]. by apply no_new_cause_fire_new.
Qed.

Lemma no_new_cause_eventDone_chain thread fuel :
  ∀ s x, no_new_cause s (eventDone_chain fuel thread s x).
Proof.
  induction fuel as [|fuel IH]; intros s x; [done|].
  rewrite eventDone_chain_S.
  destruct (e_tracking (ev s x)) as [[c n]|] eqn:Ht; [|done]. cbv zeta.
  etrans; [apply (no_new_cause_upd_event (add_effects (-1)) x)|].
  { intros y Hy. unfold add_effects. simpl. by rewrite Hy. }
  case_bool_decide; [done|].
  etrans; [|apply IH]. unfold chain_round.
  etrans; [|by apply no_new_cause_upd_event].
  by apply no_new_cause_cond_fire.
Qed.

Lemma no_new_cause__eventDone thread s event error :
  no_new_cause s (_eventDone thread s event error).
Proof.
  unfold _eventDone. case_match; [done|].
  etrans; [|apply no_new_cause_eventDone_chain].
  etrans; [|by apply no_new_cause_cond_fire].
  by apply no_new_cause_cond_fire.
Qed.

Lemma no_new_cause_gen_run thread body :
  ∀ s, no_new_cause s (gen_run thread s body).1.1.
Proof.
  induction body as [| |sc sp chs k IH|y k IH]; intros s; simpl; try done.
  etrans; [|apply IH]. by apply no_new_cause_fire_new.
Qed.

Lemma no_new_cause_gen_next thread s g :
  no_new_cause s (gen_next thread s g).1.
Proof.
  unfold gen_next. destruct (gens s !! g) as [body|]; [|done].
  pose proof (no_new_cause_gen_run thread body s) as Hr.
  destruct (gen_run thread s body) as [[s1 rest] out]. cbn [fst] in Hr.
  destruct out as [|e|[v|v|b]]; exact Hr.
Qed.

Lemma no_new_cause_task_stopped thread s event task parent :
  no_new_cause s (task_stopped thread s event task parent).
Proof.
  unfold task_stopped. destruct parent as [p|].
  - etrans; [|apply no_new_cause_registerTask].
    etrans; [|apply no_new_cause_unregisterTask].
    by apply no_new_cause_upd_event.
  - set (s1 := unregisterTask _ _).
    assert (H1 : no_new_cause s s1).
    { etrans; [|apply no_new_cause_unregisterTask].
      by apply no_new_cause_upd_event. }
    case_match; [|done]. etrans; [exact H1|].
    etrans; [|apply no_new_cause__eventDone].
    by apply no_new_cause_upd_event.
Qed.

Lemma no_new_cause_task_failed thread s event task v e :
  no_new_cause s (task_failed thread s event task v e).
Proof.
  unfold task_failed. etrans; [|by apply no_new_cause_fire_new].
  etrans; [|by apply no_new_cause_cond_fire].
  do 3 (etrans; [|by apply no_new_cause_upd_event]).
  apply no_new_cause_unregisterTask.
Qed.

Lemma no_new_cause_processTask thread fuel :
  ∀ s event task parent,
    no_new_cause s (processTask fuel thread s event task parent).
Proof.
  induction fuel as [|fuel IH]; intros s event task parent; [done|].
  cbn [processTask].
  pose proof (no_new_cause_gen_next thread s task) as H1.
  destruct (gen_next thread s task) as [s1 r]. cbn [fst] in H1.
  etrans; [exact H1|]. clear H1.
  destruct r as [|e|v|g|v].
  - apply no_new_cause_task_stopped.
  - apply no_new_cause_task_failed.
  - destruct (is_not_None v); [by apply no_new_cause_upd_event|done].
  - etrans; [|apply IH].
    etrans; [|apply no_new_cause_unregisterTask].
    etrans; [|apply no_new_cause_registerTask].
    by apply no_new_cause_upd_event.
  - etrans; [apply (no_new_cause_unregisterTask (Task3 event task parent))|].
    destruct parent as [p|]; [|apply no_new_cause_task_failed].
    set (s2 := unregisterTask _ s1).
    pose proof (no_new_cause_gen_next thread s2 p) as H2.
    destruct (gen_next thread s2 p) as [s3 r']. cbn [fst] in H2.
    etrans; [exact H2|]. clear H2.
    destruct r' as [|e|v'|g|v'].
    + apply no_new_cause_task_stopped.
    + apply no_new_cause_task_failed.
    + etrans; [|apply no_new_cause_registerTask].
      etrans; [by apply (no_new_cause_upd_event
                           (λ x, set_waiting (waitingHandlers x - 1) x) event)|].
      destruct (is_not_None v'); [by apply no_new_cause_upd_event|done].
    + etrans; [|apply IH]. apply no_new_cause_registerTask.
    + etrans; [|apply no_new_cause_registerTask].
      etrans; [|by apply no_new_cause_upd_event].
      by apply no_new_cause_upd_event.
Qed.

Lemma no_new_cause_run_tasks thread ts :
  ∀ s, no_new_cause s (run_tasks thread s ts).
Proof.
  induction ts as [|[event task|event task parent] ts IH]; intros s;
    [done| |]; cbn [run_tasks];
    (etrans; [|apply IH]); apply no_new_cause_processTask.
Qed.

Lemma no_new_cause_run_ticks env thread fs :
  ∀ s, no_new_cause s (result_state (run_ticks env thread s fs)).
Proof.
  induction fs as [|f fs IH]; intros s; [done|]. cbn [run_ticks].
  pose proof (no_new_cause_run_program thread (tick_code env s f) s) as H1.
  destruct (run_program thread s (tick_code env s f)) as [s1 out].
  cbn [fst] in H1.
  destruct out as [v|g|e]; try (etrans; [exact H1|apply IH]).
  destruct (is_fatal e); [done|].
  etrans; [exact H1|]. etrans; [|apply IH]. by apply no_new_cause_fire_new.
Qed.

(** X14: an event fired outside a dispatch is never counted for a
    [Complete] event. While no event is being handled, the tick functions
    and the resumed generators of suspended handlers give no event a
    [cause]: the events they fire, and the [Done], [Success], [Failure],
    [Error] and [Complete] events [processTask] fires for them, have none,
    and no older event gets one. *)
Theorem fired_outside_dispatch_untracked (env : Env) (thread : nat)
    (s : State) :
  _currently_handling s = None →
  (∀ ts e, e_tracking (ev s e) = None →
           e_tracking (ev (run_tasks thread s ts) e) = None)
  ∧ (∀ fs e, e_tracking (ev s e) = None →
             e_tracking (ev (result_state (run_ticks env thread s fs)) e)
             = None).
Proof.
  intros Hc. split.
  - intros ts. by apply (no_new_cause_run_tasks thread ts s).
  - intros fs. by apply (no_new_cause_run_ticks env thread fs s).
Qed.

Lemma fired_outside_dispatch_untracked_witness :
  let s := ex_work_suspended in
  (length (events s) < length (events (run_tasks 0 s (_tasks s))))%nat
  ∧ (∀ ts e, e_tracking (ev s e) = None →
             e_tracking (ev (run_tasks 0 s ts) e) = None)
  ∧ (∀ fs e, e_tracking (ev s e) = None →
             e_tracking (ev (result_state (run_ticks ex_work_env 0 s fs)) e)
             = None).
Proof.
  split; [vm_compute; lia|].
  apply (fired_outside_dispatch_untracked ex_work_env 0 ex_work_suspended).
  vm_compute. reflexivity.
Defined.

(** ** The signal handler *)



(** ** The loops end *)

(** X16: the [while True] loop of [_eventDone] ends. Every round that
    goes on deletes the [cause] of an event, also when an event is its own
    cause, so the events that have one bound the number of rounds: beyond
    [chain_measure], which is what [_eventDone] allows, more rounds change
    nothing. *)
Theorem eventDone_loop_ends (fuel thread : nat) (s : State) (event : nat) :
  (chain_measure s < fuel)%nat →
  eventDone_chain fuel thread s event
  = eventDone_chain (S (chain_measure s)) thread s event.
Proof. apply eventDone_chain_fuel. Qed.

Lemma eventDone_loop_ends_witness :
  let s := result_state (_flush ex_tree_env 0 ex_tree_fired) in
  (0 < chain_measure s)%nat
  ∧ eventDone_chain 100 0 s 1
    = eventDone_chain (S (chain_measure s)) 0 s 1.
Proof.
  split; [vm_compute; lia|].
  apply (eventDone_loop_ends 100 0
           (result_state (_flush ex_tree_env 0 ex_tree_fired)) 1).
  vm_compute. lia.
Defined.









(** ** The value of an event after its dispatch *)

Lemma value_stable s s' e :
  ev_stable s s' → (e < length (events s))%nat →
  v_value (e_value (ev s' e)) = v_value (e_value (ev s e)).
Proof.
  intros Hst He.
  by rewrite (fld_stable e_value s s' e ltac:(done) Hst He).
Qed.

Lemma value_upd_event f e s e' :
  (∀ x, v_value (e_value (f x)) = v_value (e_value x)) →
  v_value (e_value (ev (upd_event f e s) e')) = v_value (e_value (ev s e')).
Proof.
  intros Hf. exact (fld_upd_event (λ x, v_value (e_value x)) f e s e' Hf).
Qed.

Lemma after_call_value s event h (x : value + Gen) :
  (event < length (events s))%nat →
  (event < length (events (after_call s event h x).1))%nat
  ∧ v_value (e_value (ev (after_call s event h x).1 event))
    = match x with
      | inl v => if is_not_None v then v else v_value (e_value (ev s event))
      | inr _ => v_value (e_value (ev s event))
      end.
Proof.
  intros He. unfold after_call. destruct x as [v|g]; cbn [alloc_gen fst].
  - destruct (is_not_None v); [|done]. rewrite length_upd_event.
    split; [done|]. by rewrite ev_upd_event_eq.
  - rewrite events_registerTask, !length_upd_event. split; [done|].
    change (ev (registerTask ?t ?x) event) with
      (default default_event (events (registerTask t x) !! event)).
    rewrite events_registerTask.
    change (default default_event (events ?x !! event)) with (ev x event).
    by rewrite !value_upd_event.
Qed.

(** One round of the handler loop: the value of the event afterwards. *)
Lemma dispatch_one_leaves env thread s event h error :
  (event < length (events s))%nat →
  let s' := (result_state (dispatch_one env thread s event h error)).1.1 in
  (event < length (events s'))%nat
  ∧ v_value (e_value (ev s' event))
    = default (v_value (e_value (ev s event)))
              (call_value (call_of env thread s event h)).
Proof.
  intros He. unfold dispatch_one, call_of, call_value. cbn [c_result].
  set (s0 := upd_event (set_handler (Some h)) event s).
  assert (H0 : (event < length (events s0))%nat
               ∧ v_value (e_value (ev s0 event))
                 = v_value (e_value (ev s event))).
  { subst s0. rewrite length_upd_event. split; [done|].
    by rewrite value_upd_event. }
  destruct H0 as [He0 Hv0].
  pose proof (ev_stable_run_program thread (code env s0 h event) s0) as Hst.
  destruct (run_program thread s0 (code env s0 h event)) as [s1 out].
  cbn [fst snd] in *.
  pose proof (ev_stable_length _ _ Hst) as Hl1.
  pose proof (value_stable _ _ event Hst He0) as Hv1.
  set (s2 := set_calls _ s1).
  assert (He2 : (event < length (events s2))%nat) by (simpl; lia).
  assert (Hv2 : v_value (e_value (ev s2 event))
                = v_value (e_value (ev s event))) by (by rewrite <- Hv0, <- Hv1).
  clearbody s2. clear Hst Hl1 Hv1 He0 Hv0. clearbody s0.
  destruct out as [v|g|e]; cbn [call_result].
  - destruct (after_call_value s2 event h (inl v) He2) as [Hl Hv].
    destruct (after_call s2 event h (inl v)) as [s3 brk].
    cbn [result_state fst] in *. split; [done|]. rewrite Hv, Hv2.
    by destruct (is_not_None v).
  - destruct (after_call_value s2 event h (inr g) He2) as [Hl Hv].
    destruct (after_call s2 event h (inr g)) as [s3 brk].
    cbn [result_state fst] in *. split; [done|]. by rewrite Hv, Hv2.
  - destruct (is_fatal e) eqn:Hf; [done|].
    set (s3 := fire_new _ _ _ _ _).
    assert (He3 : (event < length (events s3))%nat).
    { subst s3. rewrite length_fire_new.
      assert (length (events s2)
              ≤ length (events
                  (if e_failure (ev (upd_event errors_set event s2) event)
                   then fire_new thread
                          (root_channel (upd_event errors_set event s2))
                          (core_event (KFailure event)
                             (derived_name
                                (ev (upd_event errors_set event s2) event)
                                "_failure") [exc_info e])
                          (e_channels
                             (ev (upd_event errors_set event s2) event))
                          (upd_event errors_set event s2)
                   else upd_event errors_set event s2)))%nat; [|lia].
      case_match; rewrite ?length_fire_new, length_upd_event; lia. }
    destruct (after_call_value s3 event h (inl (exc_info e)) He3) as [Hl Hv].
    destruct (after_call s3 event h (inl (exc_info e))) as [s4 brk].
    cbn [result_state fst] in *. split; [done|]. rewrite Hv.
    by destruct e.
Qed.

Lemma last_omap_cons (c : Call) tr (d : value) :
  default d (last (omap call_value (c :: tr)))
  = default (default d (call_value c)) (last (omap call_value tr)).
Proof.
  csimpl. destruct (call_value c) as [v|]; [|done]. csimpl.
  rewrite last_cons. by destruct (last (omap call_value tr)).
Qed.

Lemma dispatch_loop_leaves env thread event hs :
  ∀ s error,
    (event < length (events s))%nat →
    let s' := (result_state (dispatch_loop env thread s event hs error)).1 in
    (event < length (events s'))%nat
    ∧ ∃ tr, calls s' = calls s ++ tr
            ∧ v_value (e_value (ev s' event))
              = default (v_value (e_value (ev s event)))
                        (last (omap call_value tr)).
Proof.
  induction hs as [|h hs IH]; intros s error He.
  { split; [done|]. exists []. by rewrite app_nil_r. }
  cbn [dispatch_loop].
  destruct (dispatch_one_leaves env thread s event h error He) as [He1 Hv1].
  pose proof (dispatch_one_calls env thread s event h error) as Hc.
  cbv zeta in Hc.
  set (c := call_of env thread s event h) in *. clearbody c.
  destruct (dispatch_one env thread s event h error)
    as [[[s1 err1] brk]|e [[s1 err1] brk]]; cbn [result_state fst] in *.
  - destruct Hc as (Hc & _).
    destruct brk; cbn [result_state fst].
    + split; [done|]. exists [c]. split; [done|].
      rewrite Hv1. by rewrite (last_omap_cons c []).
    + destruct (IH s1 err1 He1) as (He2 & tr & Hc2 & Hv2).
      split; [done|]. exists (c :: tr).
      split; [by rewrite Hc2, Hc, <- app_assoc|].
      by rewrite Hv2, Hv1, last_omap_cons.
  - destruct Hc as (Hc & _). split; [done|]. exists [c]. split; [done|].
    rewrite Hv1. by rewrite (last_omap_cons c []).
Qed.

(** X18: the value of an event after its dispatch is the value of the last
    handler that was called and left one: a handler that returns [None] or
    a generator leaves none, a captured exception leaves its error triple,
    so the result of an earlier handler, or an error, is overwritten by a
    later one. When no handler leaves a value, the value is what it was
    before. *)
Theorem event_value_last (env : Env) (thread : nat) (s : State)
    (event : nat) (channels : list Channel) :
  (event < length (events s))%nat →
  v_value (e_value
             (ev (result_state (_dispatcher env thread s event channels))
                 event))
  = default (v_value (e_value (ev s event)))
            (last (omap call_value (invoked env thread s event channels))).
Proof.
  intros He.
  destruct (dispatcher_trace env thread s event channels) as (Hcalls & _).
  revert Hcalls. generalize (invoked env thread s event channels).
  intros tr0. unfold _dispatcher.
  set (s0 := set_currently_handling (Some event) s).
  set (s1 := if e_complete (ev s0 event) then _ else s0).
  assert (H1 : (event < length (events s1))%nat
               ∧ v_value (e_value (ev s1 event))
                 = v_value (e_value (ev s event))
               ∧ calls s1 = calls s).
  { subst s1. destruct (e_complete (ev s0 event)); [|done].
    rewrite length_upd_event. split; [done|]. split; [|done].
    by rewrite value_upd_event. }
  destruct H1 as (He1 & Hv1 & Hc1). clearbody s1.
  pose proof (events_lookup_handlers s1 event channels) as Hel.
  pose proof (calls_lookup_handlers s1 event channels) as Hcl.
  destruct (lookup_handlers s1 event channels) as [s2 hs]. cbn [fst] in *.
  assert (He2 : (event < length (events s2))%nat) by (by rewrite Hel).
  destruct (dispatch_loop_leaves env thread event hs s2 None He2)
    as (He3 & tr & Hc3 & Hv3).
  assert (Hv2 : v_value (e_value (ev s2 event))
                = v_value (e_value (ev s event))).
  { unfold ev. rewrite Hel. exact Hv1. }
  rewrite Hv2, Hcl, Hc1 in *.
  destruct (dispatch_loop env thread s2 event hs None)
    as [[s3 err]|e [s3 err]]; cbn [result_state fst] in *.
  - rewrite calls__eventDone. simpl. intros Hcalls.
    rewrite Hc3 in Hcalls. apply app_inv_head in Hcalls. subst tr0.
    rewrite <- Hv3.
    apply (value_stable (set_currently_handling None s3));
      [apply ev_stable__eventDone|done].
  - intros Hcalls. rewrite Hc3 in Hcalls. apply app_inv_head in Hcalls.
    by subst tr0.
Qed.

Lemma event_value_last_witness :
  let s := ex_fired "op" false in
  let tr := invoked ex_env 0 s 0 [ChanName "*"] in
  omap call_value tr = [VError "ValueError" "boom" []; VStr "ok"]
  ∧ v_value (e_value
               (ev (result_state (_dispatcher ex_env 0 s 0 [ChanName "*"])) 0))
    = default (v_value (e_value (ev s 0))) (last (omap call_value tr)).
Proof.
  split; [vm_compute; reflexivity|].
  apply (event_value_last ex_env 0 (ex_fired "op" false) 0 [ChanName "*"]).
  vm_compute. lia.
Defined.

(** ** Which exceptions leave the manager *)

Lemma ticks_fatal env thread n :
  ∀ s e, raised (ticks env thread n s) = Some e → is_fatal e = true.
Proof.
  induction n as [|n IH]; intros s e; cbn [ticks]; [done|].
  destruct (tick_spec env thread (-1) s) as (_ & _ & _ & _ & _ & _ & F & _).
  destruct (tick env thread (-1) s) as [s1|e1 s1]; [apply IH|].
  intros [= <-]. by apply F.
Qed.

(** X19: only [KeyboardInterrupt] and [SystemExit] leave [flush], [tick]
    and [stop]: no other exception of a handler or of a tick function gets
    out of them. *)
Theorem only_fatal_escapes (env : Env) (thread : nat) (timeout : Z)
    (s : State) :
  (∀ e, raised (_flush env thread s) = Some e → is_fatal e = true)
  ∧ (∀ e, raised (tick env thread timeout s) = Some e → is_fatal e = true)
  ∧ (∀ e, raised (stop env thread s) = Some e → is_fatal e = true).
Proof.
  split; [|split].
  - by destruct (_flush_frame env thread s)
      as (_ & _ & _ & _ & _ & _ & _ & _ & _ & F).
  - by destruct (tick_spec env thread timeout s)
      as (_ & _ & _ & _ & _ & _ & F & _).
  - intros e. unfold stop. destruct (negb (_running s)); [done|].
    apply ticks_fatal.
Qed.

(** ** [Success] comes after the events of the handlers *)

Lemma round_step_refl event s : round_step event s s.
Proof. split; [done|]. split; [|done]. intros e He. lia. Qed.

Lemma round_step_trans event s1 s2 s3 :
  round_step event s1 s2 → round_step event s2 s3 → round_step event s1 s3.
Proof.
  intros (E1 & K1 & F1) (E2 & K2 & F2).
  destruct (extends_control _ _ E1) as (_ & _ & _ & _ & _ & _ & _ & L1 & _).
  destruct (extends_control _ _ E2)
    as (_ & _ & _ & _ & _ & _ & _ & L2 & Kd2 & _).
  split; [by etrans|]. split.
  - intros e He. destruct (decide (e < length (events s2))%nat) as [Hlt|Hge].
    + rewrite Kd2 by done. apply K1. lia.
    + apply K2. lia.
  - intros e He. rewrite F2 by lia. by apply F1.
Qed.

Lemma round_step_same event s s' :
  control s' = control s → events s' = events s → _queue s' = _queue s →
  round_step event s s'.
Proof.
  intros Hc He Hq. split; [by apply extends_same|]. split.
  - intros e. rewrite He. lia.
  - intros e _. unfold ev. by rewrite He.
Qed.

Lemma round_step_upd_event event f e s :
  (∀ x, e_kind (f x) = e_kind x) → (∀ x, flags (f x) = flags x) →
  round_step event s (upd_event f e s).
Proof.
  intros Hk Hf. split; [by apply extends_upd_event|]. split.
  - intros e'. rewrite length_upd_event. lia.
  - intros e' _. by apply (fld_upd_event flags).
Qed.

Lemma round_step_fire_new event thread sc x chs s :
  round_kind event (e_kind x) →
  round_step event s (fire_new thread sc x chs s).
Proof.
  intros Hx. split; [apply extends_fire_new|]. split.
  - intros e. rewrite length_fire_new. intros He.
    assert (e = length (events s)) as -> by lia.
    by rewrite fire_new_entry.
  - intros e He. apply (fld_stable flags); [done| |done].
    apply ev_stable_fire_new.
Qed.

Lemma round_step_run_program event thread p :
  ∀ s, round_step event s (run_program thread s p).1.
Proof.
  induction p as [| | |sc sp chs k IH]; intros s; simpl;
    try apply round_step_refl.
  eapply round_step_trans; [|apply IH].
  apply round_step_fire_new. by left.
Qed.

Lemma round_step_after_call event s h x :
  round_step event s (after_call s event h x).1.
Proof.
  unfold after_call. destruct x as [v|g]; cbn [alloc_gen fst].
  - destruct (is_not_None v); [|apply round_step_refl].
    by apply round_step_upd_event.
  - set (sa := set_gens (gens s ++ [g]) s).
    set (sb := upd_event (λ x, set_waiting (waitingHandlers x + 1) x) event sa).
    set (sc := upd_event promise_set event sb).
    apply (round_step_trans _ _ sa); [by apply round_step_same|].
    apply (round_step_trans _ _ sb); [apply round_step_upd_event; done|].
    apply (round_step_trans _ _ sc); [apply round_step_upd_event; done|].
    unfold registerTask. case_match; [apply round_step_refl|].
    by apply round_step_same.
Qed.

(** One round of the handler loop that returns: what it creates, and the
    local variable [error] afterwards. *)
Lemma dispatch_one_round env thread s event h error s' error' brk :
  dispatch_one env thread s event h error = Ok (s', error', brk) →
  round_step event s s'
  ∧ (error' = None ↔
     error = None ∧ call_raised (call_of env thread s event h) = false).
Proof.
  unfold dispatch_one, call_of, call_raised. cbn [c_result].
  set (s0 := upd_event (set_handler (Some h)) event s).
  assert (H0 : round_step event s s0) by (by apply round_step_upd_event).
  pose proof (round_step_run_program event thread (code env s0 h event) s0)
    as H1.
  destruct (run_program thread s0 (code env s0 h event)) as [s1 out].
  cbn [fst snd] in *.
  set (s2 := set_calls _ s1).
  assert (H2 : round_step event s s2).
  { eapply round_step_trans; [exact H0|].
    eapply round_step_trans; [exact H1|]. by apply round_step_same. }
  clearbody s2. clear H0 H1. clearbody s0.
  destruct out as [v|g|e]; cbn [call_result].
  - pose proof (round_step_after_call event s2 h (inl v)) as Ha.
    destruct (after_call s2 event h (inl v)) as [s3 b]. cbn [fst] in Ha.
    intros [= <- <- <-]. split; [by eapply round_step_trans|]. naive_solver.
  - pose proof (round_step_after_call event s2 h (inr g)) as Ha.
    destruct (after_call s2 event h (inr g)) as [s3 b]. cbn [fst] in Ha.
    intros [= <- <- <-]. split; [by eapply round_step_trans|]. naive_solver.
  - destruct (is_fatal e); [done|].
    set (s3 := fire_new _ _ _ _ _).
    assert (H3 : round_step event s2 s3).
    { subst s3. eapply round_step_trans;
        [|apply round_step_fire_new; right; right; by eexists].
      eapply round_step_trans;
        [apply (round_step_upd_event event errors_set event); done|].
      case_match; [|apply round_step_refl].
      apply round_step_fire_new. right. by left. }
    clearbody s3.
    pose proof (round_step_after_call event s3 h (inl (exc_info e))) as Ha.
    destruct (after_call s3 event h (inl (exc_info e))) as [s4 b].
    cbn [fst] in Ha. intros [= <- <- <-]. split; [|naive_solver].
    eapply round_step_trans; [exact H2|]. by eapply round_step_trans.
Qed.

Lemma dispatch_loop_round env thread event hs :
  ∀ s error s' error',
    dispatch_loop env thread s event hs error = Ok (s', error') →
    round_step event s s'
    ∧ ∃ tr, calls s' = calls s ++ tr
            ∧ (error' = None ↔
               error = None ∧ Forall (λ c, call_raised c = false) tr).
Proof.
  induction hs as [|h hs IH]; intros s error s' error'; cbn [dispatch_loop].
  { intros [= <- <-]. split; [apply round_step_refl|]. exists [].
    rewrite app_nil_r. split; [done|]. naive_solver. }
  pose proof (dispatch_one_round env thread s event h error) as H1.
  pose proof (dispatch_one_calls env thread s event h error) as Hc.
  cbv zeta in Hc.
  set (c := call_of env thread s event h) in *. clearbody c.
  destruct (dispatch_one env thread s event h error)
    as [[[s1 err1] brk]|e [[s1 err1] brk]]; [|done].
  destruct (H1 s1 err1 brk eq_refl) as [R1 E1]. destruct Hc as (Hc & _).
  destruct brk.
  - intros [= <- <-]. split; [done|]. exists [c]. split; [done|].
    rewrite E1, Forall_singleton. done.
  - intros H. destruct (IH s1 err1 s' error' H) as (R2 & tr & Hc2 & E2).
    split; [by eapply round_step_trans|]. exists (c :: tr).
    split; [by rewrite Hc2, Hc, <- app_assoc|].
    rewrite E2, E1, Forall_cons. naive_solver.
Qed.

Lemma queued_since_app s s' F D :
  _queue s' = _queue s ++ F ++ D →
  queued_since s s'
  = List.map (λ q, (e_kind (ev s' q.1), q.2)) F
    ++ List.map (λ q, (e_kind (ev s' q.1), q.2)) D.
Proof.
  intros H. unfold queued_since. rewrite H, drop_app_length.
  apply List.map_app.
Qed.

(** X20: when the dispatch of an event returns and no handler is left
    waiting, what it has appended to the queue is, in this order: the
    events the handlers have fired, with [Failure] and [Error] for the
    handlers that raised; then [Done] and [Success] as [_eventDone] fires
    them, [Success] only if no handler has raised; then only [Complete]
    events. So [Success] is dispatched after the events the handlers of
    the event have fired. *)
Theorem success_after_effects (env : Env) (thread : nat) (s : State)
    (event : nat) (channels : list Channel) (s' : State) :
  (event < length (events s))%nat →
  _dispatcher env thread s event channels = Ok s' →
  waitingHandlers (ev s' event) = 0 →
  ∃ fired error completes,
    queued_since s s' = fired ++ done_entries s event error ++ completes
    ∧ (error = None ↔
       Forall (λ c, call_raised c = false)
              (invoked env thread s event channels))
    ∧ Forall (λ q, round_kind event q.1) fired
    ∧ Forall (λ q, ∃ c, q.1 = KComplete c) completes.
Proof.
  intros He.
  destruct (dispatcher_trace env thread s event channels) as (Hcalls & _).
  revert Hcalls. generalize (invoked env thread s event channels).
  intros tr0. unfold _dispatcher.
  set (s0 := set_currently_handling (Some event) s).
  set (s1 := if e_complete (ev s0 event) then _ else s0).
  assert (H1 : length (events s1) = length (events s)
               ∧ _queue s1 = _queue s ∧ calls s1 = calls s
               ∧ tree s1 = tree s
               ∧ (∀ e, e_kind (ev s1 e) = e_kind (ev s e))
               ∧ flags (ev s1 event) = flags (ev s event)).
  { subst s1. destruct (e_complete (ev s0 event)); [|done].
    rewrite length_upd_event. do 4 (split; [done|]).
    split; [intros e|]; by rewrite fld_upd_event. }
  destruct H1 as (L1 & Q1 & C1 & T1 & K1 & F1). clearbody s1.
  destruct (lookup_handlers_frame s1 event channels)
    as (T2 & _ & _ & _ & _ & _ & E2 & Q2).
  pose proof (calls_lookup_handlers s1 event channels) as C2.
  destruct (lookup_handlers s1 event channels) as [s2 hs]. cbn [fst] in *.
  destruct (dispatch_loop env thread s2 event hs None)
    as [[s3 err]|e [s3 err]] eqn:Hloop; [|done].
  destruct (dispatch_loop_round env thread event hs s2 None s3 err Hloop)
    as ((E3 & K3 & F3) & tr & C3 & Herr).
  destruct (extends_control _ _ E3)
    as (T3 & _ & _ & _ & _ & _ & _ & L3 & Kd3 & F & Q3 & B3).
  cbn [result_state]. intros Hcalls [= <-] Hw.
  set (s4 := set_currently_handling None s3) in *.
  assert (He4 : (event < length (events s4))%nat).
  { change (events s4) with (events s3). rewrite E2 in L3. lia. }
  pose proof (ev_stable__eventDone thread s4 event err) as Hst.
  assert (Hw4 : waitingHandlers (ev s4 event) = 0).
  { rewrite <- Hw. symmetry. by apply (fld_stable waitingHandlers). }
  destruct (_eventDone_entries thread s4 event err Hw4 He4)
    as (completes & Hq & Hall).
  destruct (extends_control _ _ (extends__eventDone thread s4 event err))
    as (_ & _ & _ & _ & _ & _ & _ & L5 & Kd5 & D & Q5 & _).
  set (s5 := _eventDone thread s4 event err) in *.
  assert (Hqueue : _queue s5 = _queue s ++ F ++ D).
  { rewrite Q5. change (_queue s4) with (_queue s3).
    by rewrite Q3, Q2, Q1, <- app_assoc. }
  assert (Hq4 : queued_since s4 s5
                = List.map (λ q, (e_kind (ev s5 q.1), q.2)) D).
  { unfold queued_since. by rewrite Q5, drop_app_length. }
  exists (List.map (λ q, (e_kind (ev s5 q.1), q.2)) F), err, completes.
  split; [|split; [|split]].
  - rewrite (queued_since_app s s5 F D Hqueue). f_equal.
    rewrite <- Hq4, Hq. f_equal.
    assert (Hfl : flags (ev s4 event) = flags (ev s event)).
    { change (ev s4 event) with (ev s3 event).
      rewrite F3 by (rewrite E2; lia).
      unfold ev at 1. rewrite E2. exact F1. }
    unfold flags in Hfl. injection Hfl as Ha Hs Hc Hsc.
    unfold done_entries, or_default, default_channels, root_channel.
    change (tree s4) with (tree s3).
    by rewrite Ha, Hs, Hc, Hsc, T3, T2, T1.
  - rewrite Herr.
    assert (Hc5 : calls s5 = calls s3)
      by (subst s5; by rewrite calls__eventDone).
    rewrite Hc5, C3, C2, C1 in Hcalls. apply app_inv_head in Hcalls.
    subst tr0. naive_solver.
  - apply Forall_forall. intros q Hin.
    apply list_elem_of_In, in_map_iff in Hin as [x [<- Hx]].
    apply list_elem_of_In in Hx.
    cbn [fst]. specialize (B3 x Hx).
    rewrite Kd5 by (change (events s4) with (events s3); lia).
    change (ev s4 x.1) with (ev s3 x.1). apply K3. lia.
  - done.
Qed.

Lemma success_after_effects_witness :
  let s := ex_root_success in
  let s' := result_state (_dispatcher ex_tree_env 0 s 0 [ChanName "*"]) in
  List.map fst (queued_since s s') = [KPlain; KPlain; KSuccess 0]
  ∧ ∃ fired error completes,
      queued_since s s' = fired ++ done_entries s 0 error ++ completes
      ∧ (error = None ↔
         Forall (λ c, call_raised c = false)
                (invoked ex_tree_env 0 s 0 [ChanName "*"]))
      ∧ Forall (λ q, round_kind 0 q.1) fired
      ∧ Forall (λ q, ∃ c, q.1 = KComplete c) completes.
Proof.
  split; [vm_compute; reflexivity|].
  apply (success_after_effects ex_tree_env 0 ex_root_success 0
           [ChanName "*"]).
  - vm_compute. lia.
  - apply Ok_result_state. vm_compute. reflexivity.
  - vm_compute. reflexivity.
Defined.
